(** * piano-tutorial-player: the visualiser's layout, visibility and effect-pool core

    A shallow embedding of [src/components/piano-visualizer.tsx] and of the
    note scheduling of the player.

    Conventions of the embedding
    - A JavaScript [number] that holds a time, a length or a coordinate is an
      exact rational ([Q]); rounding, [NaN] and the infinities of IEEE-754
      doubles are outside the model.  The concrete boundary cases quoted by the
      specification are also replayed on binary64 floats in [Module Float64].
    - A [number] that holds a MIDI pitch or a counter is an integer ([Z]).
      The remainder operator [%] is [Z.rem] (sign of the dividend).
    - [Math.random], [Math.sin], [Math.cos], [Math.PI] and the conversion of
      a number to a string are parameters bundled in [JsEnv]; the random
      source is a stream read through an explicit cursor.
    - A React ref that holds a mutable array or set is explicit state that is
      passed in and returned; a [Set] is a [gset], and where the order in
      which [forEach] visits it matters (the keyboard frame) it is the list
      [activeNotesOrder] in insertion order.  The [animTime] of a scene is
      state as well: [syncAnimTime] is its step.
    - Rendering is the list of boxes and instances handed to three.js; the
      camera, the lights and the materials are left out. *)

From Stdlib Require Import ZArith QArith Qround Qminmax Qabs List Lia Lqa Bool String.
From Stdlib Require Import Permutation Sorted Floats.
From stdpp Require Import gmap strings.
Import ListNotations.

Open Scope Z_scope.

(* ===================================================================== *)
(** ** Constants *)
(* ===================================================================== *)

Definition KEYBOARD_WIDTH : Q := 60.
Definition WHITE_KEY_WIDTH : Q := KEYBOARD_WIDTH / 52.
Definition BLACK_KEY_WIDTH : Q := WHITE_KEY_WIDTH * 0.65.
Definition NOTE_SPEED : Q := 25.
Definition FALL_HEIGHT : Q := 40.
Definition SPAWN_Y : Q := FALL_HEIGHT.
Definition HIT_Y : Q := 0.
Definition VISIBLE_WINDOW : Q := FALL_HEIGHT / NOTE_SPEED.
Definition KEY_Z : Q := 0.
Definition SPAWN_Z : Q := - FALL_HEIGHT.
Definition NOTE_GAP : Q := 0.1 * NOTE_SPEED.

Module COLORS.
Definition cyan : string := "#4dd0e1".
Definition magenta : string := "#ce93d8".
End COLORS.

(* ===================================================================== *)
(** ** The lane resolver [getNoteX] *)
(* ===================================================================== *)

(** [arr.includes(n)] on an array of integers. *)
Definition includes (arr : list Z) (n : Z) : bool := existsb (Z.eqb n) arr.

Definition sharps : list Z := [1; 3; 6; 8; 10].

Module Lane.
Record t : Type := mk { x : Q; width : Q; isBlack : bool }.
End Lane.

(** The body of [for (let i = 21; i < midi; i++)]: one iteration per unit of
    fuel, [i] and the running [whiteKeyCount] threaded through. *)
Fixpoint countWhite (fuel : nat) (i whiteKeyCount : Z) : Z :=
  match fuel with
  | O => whiteKeyCount
  | S fuel' =>
      let n := Z.rem i 12 in
      countWhite fuel' (i + 1)
        (if negb (includes sharps n) then whiteKeyCount + 1 else whiteKeyCount)
  end.

(** The loop runs [max 0 (midi - 21)] times. *)
Definition whiteKeyCount (midi : Z) : Z :=
  countWhite (Z.to_nat (midi - 21)) 21 0.

Definition getNoteX (midi : Z) : Lane.t :=
  let whiteKeyCount := whiteKeyCount midi in
  let n := Z.rem midi 12 in
  let isBlack := includes sharps n in
  let offset := (- KEYBOARD_WIDTH / 2)%Q in
  if isBlack then
    Lane.mk (offset + (inject_Z whiteKeyCount + 0.5) * WHITE_KEY_WIDTH)%Q
            BLACK_KEY_WIDTH
            true
  else
    Lane.mk (offset + inject_Z whiteKeyCount * WHITE_KEY_WIDTH
             + WHITE_KEY_WIDTH / 2)%Q
            (WHITE_KEY_WIDTH * 0.9)%Q
            false.

(** The 88 keys built by [PianoKeys]: [for (let i = 21; i <= 108; i++)]. *)
Definition pitchRange (lo : Z) (count : nat) : list Z :=
  map (fun k => lo + Z.of_nat k) (seq 0 count).

Definition keys : list (Z * Lane.t) :=
  map (fun i => (i, getNoteX i)) (pitchRange 21 88).

(** The specification's reading of the white-key index: how many pitches in
    [21, pitch) have a pitch class outside [{1,3,6,8,10}]. *)
Definition isWhitePitch (p : Z) : bool := negb (includes sharps (p mod 12)).

Definition whiteKeysBelow (pitch : Z) : nat :=
  length (List.filter isWhitePitch (pitchRange 21 (Z.to_nat (pitch - 21)))).

(** What one iteration of the loop adds to [whiteKeyCount]. *)
Definition whiteStep (i : Z) : Z :=
  if negb (includes sharps (Z.rem i 12)) then 1 else 0.

(* ===================================================================== *)
(** ** Comparisons and small numeric helpers on [Q] *)
(* ===================================================================== *)

Definition Qleb (a b : Q) : bool := Qle_bool a b.
Definition Qltb (a b : Q) : bool := negb (Qle_bool b a).

Infix "<=?" := Qleb (at level 70, no associativity) : Q_scope.
Infix "<?" := Qltb (at level 70, no associativity) : Q_scope.
Notation "a >? b" := (Qltb b a) (at level 70, no associativity) : Q_scope.
Notation "a >=? b" := (Qleb b a) (at level 70, no associativity) : Q_scope.

(* ===================================================================== *)
(** ** Data: vectors, colours, notes, particles, sparkles *)
(* ===================================================================== *)

Module Vector3.
Record t : Type := mk { x : Q; y : Q; z : Q }.
Definition multiplyScalar (v : t) (s : Q) : t :=
  mk (x v * s)%Q (y v * s)%Q (z v * s)%Q.
Definition add (a b : t) : t :=
  mk (x a + x b)%Q (y a + y b)%Q (z a + z b)%Q.
End Vector3.

(** A three.js [Color]: the CSS colour it was built from and the scalar its
    channels have been multiplied by. *)
Module Color.
Record t : Type := mk { css : string; scalar : Q }.
Definition new (c : string) : t := mk c 1.
Definition multiplyScalar (c : t) (s : Q) : t := mk (css c) (scalar c * s)%Q.
End Color.

Module NoteData.
Record t : Type := mk {
  id : string;
  midi : Z;
  time : Q;
  duration : Q;
  velocity : Q;
  isBlack : bool;
  x : Q;
  width : Q;
  color : string;
  hit : bool
}.
End NoteData.

Module Particle.
Record t : Type := mk {
  position : Vector3.t;
  velocity : Vector3.t;
  color : Color.t;
  life : Q;
  maxLife : Q;
  size : Q
}.
End Particle.

Module Sparkle.
Record t : Type := mk {
  position : Vector3.t;
  velocity : Vector3.t;
  color : Color.t;
  life : Q;
  maxLife : Q;
  size : Q;
  rotation : Q;
  rotationSpeed : Q
}.
End Sparkle.

(** What the score source hands over: [midiData.tracks[k].notes[i]]. *)
Module MidiNote.
Record t : Type := mk { midi : Z; time : Q; duration : Q; velocity : Q }.
End MidiNote.

Definition Track : Type := list MidiNote.t.
Definition Midi : Type := list Track.

Module HandFilter.
Inductive t : Type := both | left | right.
End HandFilter.

(* ===================================================================== *)
(** ** The host environment and the mutable refs of a scene *)
(* ===================================================================== *)

(** The parts of the JavaScript runtime the visualiser calls. [random k] is
    the value returned by the [k]-th call of [Math.random]. *)
Record JsEnv : Type := {
  Math_PI : Q;
  Math_sin : Q -> Q;
  Math_cos : Q -> Q;
  Math_random : nat -> Q;
  numberToString : Q -> string
}.

(** [particlesRef.current], [sparklesRef.current], and how many random
    numbers have been drawn so far. *)
Record Refs : Type := {
  particlesRef : list Particle.t;
  sparklesRef : list Sparkle.t;
  drawn : nat
}.

(** The refs as [useRef([])] creates them. *)
Definition emptyRefs : Refs :=
  {| particlesRef := []; sparklesRef := []; drawn := 0 |}.

(** Effectful code is a state transformer over [Refs]. *)
Definition Eff (A : Type) : Type := Refs -> A * Refs.

Definition ret {A : Type} (a : A) : Eff A := fun r => (a, r).

Definition bind {A B : Type} (m : Eff A) (k : A -> Eff B) : Eff B :=
  fun r => let '(a, r') := m r in k a r'.

Notation "x <- m ;; k" := (bind m (fun x => k))
  (at level 100, m at next level, right associativity).
Notation "m ;;; k" := (bind m (fun _ => k))
  (at level 100, right associativity).

Definition exec {A : Type} (m : Eff A) (r : Refs) : Refs := snd (m r).

(** [for (let i = 0; i < n; i++) body] for a body that does not read [i]. *)
Fixpoint forN (n : nat) (body : Eff unit) : Eff unit :=
  match n with
  | O => ret tt
  | S n' => body ;;; forN n' body
  end.

Definition particlesLength : Eff Z :=
  fun r => (Z.of_nat (length (particlesRef r)), r).

Definition sparklesLength : Eff Z :=
  fun r => (Z.of_nat (length (sparklesRef r)), r).

(** [particlesRef.current.push(p)] *)
Definition pushParticle (p : Particle.t) : Eff unit :=
  fun r => (tt, {| particlesRef := particlesRef r ++ [p];
                   sparklesRef := sparklesRef r;
                   drawn := drawn r |}).

(** [sparklesRef.current.push(s)] *)
Definition pushSparkle (s : Sparkle.t) : Eff unit :=
  fun r => (tt, {| particlesRef := particlesRef r;
                   sparklesRef := sparklesRef r ++ [s];
                   drawn := drawn r |}).

Section Runtime.

Context (js : JsEnv).

Local Open Scope Q_scope.

(** [Math.random()] *)
Definition random : Eff Q :=
  fun r => (Math_random js (drawn r),
            {| particlesRef := particlesRef r;
               sparklesRef := sparklesRef r;
               drawn := S (drawn r) |}).

Definition PI : Q := Math_PI js.
Definition sin : Q -> Q := Math_sin js.
Definition cos : Q -> Q := Math_cos js.

(* ===================================================================== *)
(** ** Ingestion: the [notes] memo of a scene *)
(* ===================================================================== *)

(** The template literal [`${trackIndex}-${i}-${n.time}`]. *)
Definition noteId (trackIndex i : nat) (time : Q) : string :=
  (numberToString js (inject_Z (Z.of_nat trackIndex)) ++ "-"
   ++ numberToString js (inject_Z (Z.of_nat i)) ++ "-"
   ++ numberToString js time)%string.

(** Stable insertion by onset: the element goes in front of the first one
    that does not start earlier, as [Array.prototype.sort] with the
    comparator [(a, b) => a.time - b.time] orders it. *)
Fixpoint insertByTime (a : NoteData.t) (l : list NoteData.t) : list NoteData.t :=
  match l with
  | [] => [a]
  | b :: l' =>
      if NoteData.time b <? NoteData.time a
      then b :: insertByTime a l'
      else a :: b :: l'
  end.

Definition sortByTime (l : list NoteData.t) : list NoteData.t :=
  foldr insertByTime [] l.

Definition handFilterIs (a b : HandFilter.t) : bool :=
  match a, b with
  | HandFilter.both, HandFilter.both => true
  | HandFilter.left, HandFilter.left => true
  | HandFilter.right, HandFilter.right => true
  | _, _ => false
  end.

(** The body of [track.notes.forEach((n, i) => ...)]: [None] when the
    callback returns before the [push]. *)
Definition deriveNote (handFilter : HandFilter.t) (trackIndex i : nat)
    (n : MidiNote.t) : option NoteData.t :=
  let lane := getNoteX (MidiNote.midi n) in
  let isLeft := (MidiNote.midi n <? 60)%Z in
  if handFilterIs handFilter HandFilter.left && negb isLeft then None
  else if handFilterIs handFilter HandFilter.right && isLeft then None
  else
    let color := if isLeft then COLORS.magenta else COLORS.cyan in
    Some {| NoteData.id := noteId trackIndex i (MidiNote.time n);
            NoteData.midi := MidiNote.midi n;
            NoteData.time := MidiNote.time n;
            NoteData.duration := MidiNote.duration n;
            NoteData.velocity := MidiNote.velocity n;
            NoteData.isBlack := Lane.isBlack lane;
            NoteData.x := Lane.x lane;
            NoteData.width := Lane.width lane;
            NoteData.color := color;
            NoteData.hit := false |}.

Fixpoint deriveTrack (handFilter : HandFilter.t) (trackIndex i : nat)
    (track : Track) : list NoteData.t :=
  match track with
  | [] => []
  | n :: rest =>
      match deriveNote handFilter trackIndex i n with
      | Some d => d :: deriveTrack handFilter trackIndex (S i) rest
      | None => deriveTrack handFilter trackIndex (S i) rest
      end
  end.

Fixpoint deriveTracks (handFilter : HandFilter.t) (trackIndex : nat)
    (tracks : Midi) : list NoteData.t :=
  match tracks with
  | [] => []
  | track :: rest =>
      deriveTrack handFilter trackIndex 0 track
      ++ deriveTracks handFilter (S trackIndex) rest
  end.

(** [const notes = useMemo(() => ..., [midiData, handFilter])], the same text
    in [PianoScene] and in [SynthesiaScene]. *)
Definition notes (midiData : option Midi) (handFilter : HandFilter.t)
    : list NoteData.t :=
  match midiData with
  | None => []
  | Some midi => sortByTime (deriveTracks handFilter 0 midi)
  end.

End Runtime.

(* ===================================================================== *)
(** ** The activation tracker *)
(* ===================================================================== *)

(** [const activeNotes = useMemo(() => ..., [animTime, notes])], the same
    text in both scenes. *)
Definition activeNotes (animTime : Q) (notes : list NoteData.t) : gset Z :=
  fold_left
    (fun (active : gset Z) n =>
       if ((animTime >=? NoteData.time n)
           && (animTime <? NoteData.time n + NoteData.duration n))%Q
       then {[ NoteData.midi n ]} ∪ active
       else active)
    notes ∅.

(** The scene's clock sync: [animTime] follows [currentTimeRef.current] once
    they differ by more than a millisecond. *)
Definition syncAnimTime (currentTimeRef animTime : Q) : Q :=
  if (Qabs (currentTimeRef - animTime) >? 0.001)%Q then currentTimeRef
  else animTime.

(* ===================================================================== *)
(** ** The visible-window filter and the two placements *)
(* ===================================================================== *)

(** A rendered [<RoundedBox key position args>] with its material colour. *)
Module Box.
Record t : Type := mk {
  key : string;
  position : Vector3.t;
  args : Vector3.t;
  color : string
}.
End Box.

Module FallingNotes.

Local Open Scope Q_scope.

(** The guard of [if (...) return null] (and of the [return] in
    [useFrame]). *)
Definition outOfView (currentTime : Q) (note : NoteData.t) : bool :=
  let timeUntilHit := NoteData.time note - currentTime in
  (timeUntilHit >? VISIBLE_WINDOW)
  || (timeUntilHit + NoteData.duration note <? -0.5).

(** One element of [notes.map((note) => ...)]; [None] is [null]. *)
Definition renderNote (currentTime : Q) (note : NoteData.t) : option Box.t :=
  let timeUntilHit := NoteData.time note - currentTime in
  if (timeUntilHit >? VISIBLE_WINDOW)
     || (timeUntilHit + NoteData.duration note <? -0.5)
  then None
  else
    let fullHeight := NoteData.duration note * NOTE_SPEED in
    let height := Qmax 0.1 (fullHeight - NOTE_GAP) in
    let y := HIT_Y + timeUntilHit * NOTE_SPEED + height / 2 in
    let color := NoteData.color note in
    Some (Box.mk (NoteData.id note)
                 (Vector3.mk (NoteData.x note) y (-2.5))
                 (Vector3.mk (NoteData.width note) height 0.5)
                 color).

Definition render (notes : list NoteData.t) (currentTime : Q)
    : list (option Box.t) :=
  map (renderNote currentTime) notes.

(** One step of [notes.forEach] inside [useFrame]: the accumulator is
    [visibleNoteIds] and [lastSpawnedNotes.current]. *)
Definition frameNote (currentTime : Q)
    (onSpawnSparkles : Q -> Q -> string -> Eff unit)
    (acc : gset string * gset string) (note : NoteData.t)
    : Eff (gset string * gset string) :=
  let '(visibleNoteIds, lastSpawnedNotes) := acc in
  let timeUntilHit := NoteData.time note - currentTime in
  if (timeUntilHit >? VISIBLE_WINDOW)
     || (timeUntilHit + NoteData.duration note <? -0.5)
  then ret acc
  else
    let visibleNoteIds := {[ NoteData.id note ]} ∪ visibleNoteIds in
    if negb (bool_decide (NoteData.id note ∈ lastSpawnedNotes))
       && (timeUntilHit >? 0) && (timeUntilHit <? VISIBLE_WINDOW)
    then
      let y := HIT_Y + timeUntilHit * NOTE_SPEED
               + (NoteData.duration note * NOTE_SPEED) / 2 in
      onSpawnSparkles (NoteData.x note) y (NoteData.color note) ;;;
      ret (visibleNoteIds, {[ NoteData.id note ]} ∪ lastSpawnedNotes)
    else ret (visibleNoteIds, lastSpawnedNotes).

Fixpoint frameNotes (currentTime : Q)
    (onSpawnSparkles : Q -> Q -> string -> Eff unit)
    (acc : gset string * gset string) (notes : list NoteData.t)
    : Eff (gset string * gset string) :=
  match notes with
  | [] => ret acc
  | note :: rest =>
      acc' <- frameNote currentTime onSpawnSparkles acc note ;;
      frameNotes currentTime onSpawnSparkles acc' rest
  end.

(** The [useFrame] callback: returns the next [lastSpawnedNotes.current]. *)
Definition useFrame (notes : list NoteData.t) (currentTime : Q)
    (onSpawnSparkles : Q -> Q -> string -> Eff unit)
    (lastSpawnedNotes : gset string) : Eff (gset string) :=
  acc <- frameNotes currentTime onSpawnSparkles (∅, lastSpawnedNotes) notes ;;
  let '(visibleNoteIds, lastSpawnedNotes) := acc in
  ret (filter (fun id => id ∈ visibleNoteIds) lastSpawnedNotes).



End FallingNotes.

Module SynthesiaFallingNotes.

Local Open Scope Q_scope.

Definition outOfView (currentTime : Q) (note : NoteData.t) : bool :=
  let timeUntilHit := NoteData.time note - currentTime in
  (timeUntilHit >? VISIBLE_WINDOW)
  || (timeUntilHit + NoteData.duration note <? 0).

(** The depth of the box after the gap, before any clipping. *)
Definition fullDepth (note : NoteData.t) : Q :=
  let fullDepthOriginal := NoteData.duration note * NOTE_SPEED in
  Qmax 0.1 (fullDepthOriginal - NOTE_GAP).

(** The pair [(currentDepth, zCenter)] after the [if (timeUntilHit < 0)]
    block. *)
Definition clip (timeUntilHit fullDepth : Q) : Q * Q :=
  let currentDepth := fullDepth in
  let zCenter := (KEY_Z - (timeUntilHit * NOTE_SPEED)) - currentDepth / 2 in
  if timeUntilHit <? 0 then
    let passedDepth := - timeUntilHit * NOTE_SPEED in
    let currentDepth := Qmax 0 (fullDepth - passedDepth) in
    let zCenter := KEY_Z - currentDepth / 2 in
    (currentDepth, zCenter)
  else (currentDepth, zCenter).

Definition renderNote (currentTime : Q) (note : NoteData.t) : option Box.t :=
  let timeUntilHit := NoteData.time note - currentTime in
  if (timeUntilHit >? VISIBLE_WINDOW)
     || (timeUntilHit + NoteData.duration note <? 0)
  then None
  else
    let fullDepthOriginal := NoteData.duration note * NOTE_SPEED in
    let fullDepth := Qmax 0.1 (fullDepthOriginal - NOTE_GAP) in
    let '(currentDepth, zCenter) := clip timeUntilHit fullDepth in
    if currentDepth <=? 0 then None
    else
      let keyHeight := 1 in
      let color := NoteData.color note in
      Some (Box.mk (NoteData.id note)
                   (Vector3.mk (NoteData.x note) keyHeight zCenter)
                   (Vector3.mk (NoteData.width note) 0.5 currentDepth)
                   color).

Definition render (notes : list NoteData.t) (currentTime : Q)
    : list (option Box.t) :=
  map (renderNote currentTime) notes.

End SynthesiaFallingNotes.

(* ===================================================================== *)
(** ** Effect pools: spawning *)
(* ===================================================================== *)

Module PianoScene.
Section WithJs.

Context (js : JsEnv).

Local Open Scope Q_scope.

Definition maxParticles : Z := 500.
Definition maxSparkles : Z := 500.

(** One iteration of the [for] loop of [spawnParticles]. *)
Definition newParticle (x : Q) (color : string) : Eff unit :=
  r <- random js ;; let angle := r * PI js - PI js / 2 in
  r <- random js ;; let speed := r * 15 + 8 in
  r <- random js ;; let life := 1.0 + r * 0.5 in
  rz <- random js ;;
  rsize <- random js ;;
  pushParticle
    {| Particle.position := Vector3.mk (x + 0.3) (HIT_Y + 3) (-1);
       Particle.velocity :=
         Vector3.mk (sin js angle * speed * 0.8)
                    (cos js angle * speed * 1.2)
                    ((rz - 0.5) * 5);
       Particle.color := Color.multiplyScalar (Color.new color) 1.5;
       Particle.life := life;
       Particle.maxLife := life;
       Particle.size := rsize * 0.1 + 0.3 |}.

Definition spawnParticles (x : Q) (color : string) : Eff unit :=
  currentCount <- particlesLength ;;
  let availableSlots := (maxParticles - currentCount)%Z in
  if (availableSlots <=? 0)%Z then ret tt
  else
    let particleCount := Z.min 10 availableSlots in
    forN (Z.to_nat particleCount) (newParticle x color).

(** One iteration of the [for] loop of [spawnSparkles]. *)
Definition newSparkle (x y : Q) (color : string) : Eff unit :=
  r <- random js ;; let offsetX := (r - 0.5) * 2 in
  r <- random js ;; let offsetY := r * 10 + 2 in
  rx <- random js ;;
  ry <- random js ;;
  rz <- random js ;;
  rsize <- random js ;;
  rrot <- random js ;;
  rspeed <- random js ;;
  pushSparkle
    {| Sparkle.position := Vector3.mk (x + offsetX) (y + offsetY) (-2);
       Sparkle.velocity :=
         Vector3.mk ((rx - 0.5) * 2)
                    (- NOTE_SPEED * 0.8 - ry * 5)
                    ((rz - 0.5) * 1);
       Sparkle.color := Color.new color;
       Sparkle.life := 1.0;
       Sparkle.maxLife := 1.0;
       Sparkle.size := rsize * 0.15 + 0.1;
       Sparkle.rotation := rrot * PI js * 2;
       Sparkle.rotationSpeed := (rspeed - 0.5) * 10 |}.

Definition spawnSparkles (x y : Q) (color : string) : Eff unit :=
  currentCount <- sparklesLength ;;
  let availableSlots := (maxSparkles - currentCount)%Z in
  if (availableSlots <=? 0)%Z then ret tt
  else
    r <- random js ;;
    let sparkleCount := Z.min (3 + Qfloor (r * 3)) availableSlots in
    forN (Z.to_nat sparkleCount) (newSparkle x y color).

End WithJs.
End PianoScene.

Module SynthesiaScene.
Section WithJs.

Context (js : JsEnv).

Local Open Scope Q_scope.

Definition maxParticles : Z := 500.
Definition maxSparkles : Z := 500.

Definition newParticle (x : Q) (color : string) : Eff unit :=
  r <- random js ;; let angle := r * PI js * 2 in
  r <- random js ;; let speed := r * 10 + 5 in
  r <- random js ;; let life := 0.8 + r * 0.4 in
  ry <- random js ;;
  rsize <- random js ;;
  pushParticle
    {| Particle.position := Vector3.mk x 1 0;
       Particle.velocity :=
         Vector3.mk (sin js angle * speed * 0.5)
                    (ry * 5 + 2)
                    (cos js angle * speed * 0.5);
       Particle.color := Color.multiplyScalar (Color.new color) 1.5;
       Particle.life := life;
       Particle.maxLife := life;
       Particle.size := rsize * 0.1 + 0.2 |}.

Definition spawnParticles (x : Q) (color : string) : Eff unit :=
  currentCount <- particlesLength ;;
  let availableSlots := (maxParticles - currentCount)%Z in
  if (availableSlots <=? 0)%Z then ret tt
  else
    let particleCount := Z.min 10 availableSlots in
    forN (Z.to_nat particleCount) (newParticle x color).

Definition newSparkle (x z : Q) (color : string) : Eff unit :=
  r <- random js ;; let offsetX := (r - 0.5) * 2 in
  r <- random js ;; let offsetZ := (r - 0.5) * 2 in
  rx <- random js ;;
  ry <- random js ;;
  rsize <- random js ;;
  rrot <- random js ;;
  rspeed <- random js ;;
  pushSparkle
    {| Sparkle.position := Vector3.mk (x + offsetX) 2 (z + offsetZ);
       Sparkle.velocity :=
         Vector3.mk ((rx - 0.5) * 1) (ry * 2) NOTE_SPEED;
       Sparkle.color := Color.new color;
       Sparkle.life := 1.0;
       Sparkle.maxLife := 1.0;
       Sparkle.size := rsize * 0.1 + 0.1;
       Sparkle.rotation := rrot * PI js * 2;
       Sparkle.rotationSpeed := (rspeed - 0.5) * 5 |}.

Definition spawnSparkles (x z : Q) (color : string) : Eff unit :=
  currentCount <- sparklesLength ;;
  let availableSlots := (maxSparkles - currentCount)%Z in
  if (availableSlots <=? 0)%Z then ret tt
  else
    let sparkleCount := Z.min 2 availableSlots in
    forN (Z.to_nat sparkleCount) (newSparkle x z color).

End WithJs.
End SynthesiaScene.

(* ===================================================================== *)
(** ** Effect pools: the per-frame integration *)
(* ===================================================================== *)

(** What is written into the instanced mesh for one live member: the
    position, scale and colour the matrix is composed from, and the angle of
    [makeRotationZ] for a sparkle (a particle faces the camera instead). *)
Module Instance.
Record t : Type := mk {
  position : Vector3.t;
  rotationZ : option Q;
  scale : Q;
  color : Color.t
}.
End Instance.

Module ParticleSystem.

Local Open Scope Q_scope.

Definition COUNT : Z := 1000.

(** The body of [for (let i = particles.length - 1; i >= 0; i--)] for the
    member [p]; the accumulator holds the members kept so far (those behind
    [p] in the array), the instances written so far and [activeCount]. *)
Definition step (delta : Q) (p : Particle.t)
    (acc : list Particle.t * list Instance.t * Z)
    : list Particle.t * list Instance.t * Z :=
  let '(kept, instances, activeCount) := acc in
  let life := Particle.life p - delta * 1.2 in
  if life <=? 0 then acc
  else if (activeCount >=? COUNT)%Z then acc
  else
    let v := Particle.velocity p in
    let velocity :=
      Vector3.mk (Vector3.x v) (Vector3.y v - 20 * delta) (Vector3.z v) in
    let position :=
      Vector3.add (Particle.position p) (Vector3.multiplyScalar velocity delta) in
    let scale := Particle.size p * (life / Particle.maxLife p) in
    ({| Particle.position := position;
        Particle.velocity := velocity;
        Particle.color := Particle.color p;
        Particle.life := life;
        Particle.maxLife := Particle.maxLife p;
        Particle.size := Particle.size p |} :: kept,
     instances ++ [Instance.mk position None scale (Particle.color p)],
     (activeCount + 1)%Z).

(** The loop visits the array from its last member to its first. *)
Definition advance (delta : Q) (particles : list Particle.t)
    : list Particle.t * list Instance.t * Z :=
  foldr (step delta) ([], [], 0%Z) particles.

(** The [useFrame] callback; [mounted] is [instancedMeshRef.current] being
    set. It returns the instances written and [instancedMeshRef.current.count],
    or [None] when it returned at once. *)
Definition useFrame (mounted : bool) (delta : Q)
    : Eff (option (list Instance.t * Z)) :=
  fun r =>
    if negb mounted then (None, r)
    else
      let '(kept, instances, activeCount) := advance delta (particlesRef r) in
      (Some (instances, activeCount),
       {| particlesRef := kept;
          sparklesRef := sparklesRef r;
          drawn := drawn r |}).

End ParticleSystem.

Module SparkleSystem.

Local Open Scope Q_scope.

Definition COUNT : Z := 500.

Definition step (delta : Q) (s : Sparkle.t)
    (acc : list Sparkle.t * list Instance.t * Z)
    : list Sparkle.t * list Instance.t * Z :=
  let '(kept, instances, activeCount) := acc in
  let life := Sparkle.life s - delta * 1.5 in
  let rotation := Sparkle.rotation s + Sparkle.rotationSpeed s * delta in
  if life <=? 0 then acc
  else if (activeCount >=? COUNT)%Z then acc
  else
    let v := Sparkle.velocity s in
    let velocity :=
      Vector3.mk (Vector3.x v) (Vector3.y v - 5 * delta) (Vector3.z v) in
    let position :=
      Vector3.add (Sparkle.position s) (Vector3.multiplyScalar velocity delta) in
    let scale := Sparkle.size s * (life / Sparkle.maxLife s) in
    ({| Sparkle.position := position;
        Sparkle.velocity := velocity;
        Sparkle.color := Sparkle.color s;
        Sparkle.life := life;
        Sparkle.maxLife := Sparkle.maxLife s;
        Sparkle.size := Sparkle.size s;
        Sparkle.rotation := rotation;
        Sparkle.rotationSpeed := Sparkle.rotationSpeed s |} :: kept,
     instances ++ [Instance.mk position (Some rotation) scale (Sparkle.color s)],
     (activeCount + 1)%Z).

Definition advance (delta : Q) (sparkles : list Sparkle.t)
    : list Sparkle.t * list Instance.t * Z :=
  foldr (step delta) ([], [], 0%Z) sparkles.

Definition useFrame (mounted : bool) (delta : Q)
    : Eff (option (list Instance.t * Z)) :=
  fun r =>
    if negb mounted then (None, r)
    else
      let '(kept, instances, activeCount) := advance delta (sparklesRef r) in
      (Some (instances, activeCount),
       {| particlesRef := particlesRef r;
          sparklesRef := kept;
          drawn := drawn r |}).

End SparkleSystem.

(* ===================================================================== *)
(** ** The boundary cases on binary64 floats *)
(* ===================================================================== *)

(** The two window tests and the activation test with the arithmetic of
    JavaScript numbers, for replaying concrete cases. *)
Module Float64.

Local Open Scope float_scope.

Definition VISIBLE_WINDOW : float := 40 / 25.

Definition fallOutOfView (time duration currentTime : float) : bool :=
  let timeUntilHit := time - currentTime in
  (VISIBLE_WINDOW <? timeUntilHit) || (timeUntilHit + duration <? -0.5).

Definition recedeOutOfView (time duration currentTime : float) : bool :=
  let timeUntilHit := time - currentTime in
  (VISIBLE_WINDOW <? timeUntilHit) || (timeUntilHit + duration <? 0).

Definition isActive (time duration animTime : float) : bool :=
  (time <=? animTime) && (animTime <? time + duration).

End Float64.

(* ===================================================================== *)
(** ** Vocabulary of the statements *)
(* ===================================================================== *)

(** The note [n] is sounding at [t]: the half-open interval
    [[onset, onset + duration)]. *)
Definition sounding (t : Q) (n : NoteData.t) : Prop :=
  (NoteData.time n <= t /\ t < NoteData.time n + NoteData.duration n)%Q.

(** Two vectors, two boxes, that are the same numbers. *)
Definition sameVector (a b : Vector3.t) : Prop :=
  (Vector3.x a == Vector3.x b /\ Vector3.y a == Vector3.y b
   /\ Vector3.z a == Vector3.z b)%Q.


(** The onsets of a list never decrease. *)
Definition byTime (a b : NoteData.t) : Prop :=
  (NoteData.time a <= NoteData.time b)%Q.

(** A derived note copies the event's pitch, onset, duration and velocity
    and is laid out by [getNoteX]. *)
Definition derivedFrom (n : MidiNote.t) (d : NoteData.t) : Prop :=
  NoteData.midi d = MidiNote.midi n
  /\ NoteData.time d = MidiNote.time n
  /\ NoteData.duration d = MidiNote.duration n
  /\ NoteData.velocity d = MidiNote.velocity n
  /\ NoteData.x d = Lane.x (getNoteX (MidiNote.midi n))
  /\ NoteData.width d = Lane.width (getNoteX (MidiNote.midi n))
  /\ NoteData.isBlack d = Lane.isBlack (getNoteX (MidiNote.midi n)).

(** The event passes the hand filter. *)
Definition passes (handFilter : HandFilter.t) (n : MidiNote.t) : bool :=
  match handFilter with
  | HandFilter.both => true
  | HandFilter.left => (MidiNote.midi n <? 60)%Z
  | HandFilter.right => negb (MidiNote.midi n <? 60)%Z
  end.

(** A spawn request as a scene receives it. *)
Inductive SpawnCall : Type :=
| FallParticles (x : Q) (color : string)
| FallSparkles (x y : Q) (color : string)
| RecedeParticles (x : Q) (color : string)
| RecedeSparkles (x z : Q) (color : string).

Definition spawn (js : JsEnv) (call : SpawnCall) : Eff unit :=
  match call with
  | FallParticles x color => PianoScene.spawnParticles js x color
  | FallSparkles x y color => PianoScene.spawnSparkles js x y color
  | RecedeParticles x color => SynthesiaScene.spawnParticles js x color
  | RecedeSparkles x z color => SynthesiaScene.spawnSparkles js x z color
  end.

Definition spawnAll (js : JsEnv) (calls : list SpawnCall) (r : Refs) : Refs :=
  fold_left (fun r call => exec (spawn js call) r) calls r.

(** The number of live members of the pool a request goes to. *)
Definition currentCount (call : SpawnCall) (r : Refs) : nat :=
  match call with
  | FallParticles _ _ | RecedeParticles _ _ => length (particlesRef r)
  | FallSparkles _ _ _ | RecedeSparkles _ _ _ => length (sparklesRef r)
  end.

Definition capacity : nat := 500.

Definition withinCapacity (r : Refs) : Prop :=
  (length (particlesRef r) <= capacity)%nat
  /\ (length (sparklesRef r) <= capacity)%nat.

(** What can happen to the refs of a scene: a spawn request, or a frame of
    either pool. *)
Inductive Step (js : JsEnv) : Refs -> Refs -> Prop :=
| step_spawn (call : SpawnCall) (r : Refs) :
    Step js r (exec (spawn js call) r)
| step_particles (mounted : bool) (delta : Q) (r : Refs) :
    Step js r (exec (ParticleSystem.useFrame mounted delta) r)
| step_sparkles (mounted : bool) (delta : Q) (r : Refs) :
    Step js r (exec (SparkleSystem.useFrame mounted delta) r).

Inductive Reachable (js : JsEnv) : Refs -> Prop :=
| reach_init : Reachable js emptyRefs
| reach_step (r r' : Refs) : Reachable js r -> Step js r r' -> Reachable js r'.

(** [r'] is [r] with [np] particles and [ns] sparkles pushed. *)
Definition pushed (np ns : nat) (r r' : Refs) : Prop :=
  exists (ps : list Particle.t) (ss : list Sparkle.t),
    particlesRef r' = particlesRef r ++ ps /\ length ps = np
    /\ sparklesRef r' = sparklesRef r ++ ss /\ length ss = ns.

(** [v'] is [v] after a constant downward acceleration [gravity] over [dt]. *)
Definition accelerated (gravity dt : Q) (v v' : Vector3.t) : Prop :=
  (Vector3.x v' == Vector3.x v)%Q
  /\ (Vector3.y v' == Vector3.y v - gravity * dt)%Q
  /\ (Vector3.z v' == Vector3.z v)%Q.

(** [x'] is [x] moved by [v * dt]. *)
Definition moved (dt : Q) (v x x' : Vector3.t) : Prop :=
  (Vector3.x x' == Vector3.x x + Vector3.x v * dt)%Q
  /\ (Vector3.y x' == Vector3.y x + Vector3.y v * dt)%Q
  /\ (Vector3.z x' == Vector3.z x + Vector3.z v * dt)%Q.

(** The decremented life of a member is used up. *)
Definition particleFades (dt : Q) (p : Particle.t) : bool :=
  (Particle.life p - dt * 1.2 <=? 0)%Q.

Definition sparkleFades (dt : Q) (s : Sparkle.t) : bool :=
  (Sparkle.life s - dt * 1.5 <=? 0)%Q.

(** A particle [p] that survives a step [dt] becomes [p']. *)
Definition particleAdvanced (dt : Q) (p p' : Particle.t) : Prop :=
  (Particle.life p' == Particle.life p - dt * 1.2)%Q
  /\ accelerated 20 dt (Particle.velocity p) (Particle.velocity p')
  /\ moved dt (Particle.velocity p') (Particle.position p) (Particle.position p')
  /\ Particle.maxLife p' = Particle.maxLife p
  /\ Particle.size p' = Particle.size p
  /\ Particle.color p' = Particle.color p.

(** The instance [i] draws the live particle [p']. *)
Definition particleDrawn (p' : Particle.t) (i : Instance.t) : Prop :=
  (Instance.scale i == Particle.size p' * (Particle.life p' / Particle.maxLife p'))%Q
  /\ Instance.position i = Particle.position p'
  /\ Instance.color i = Particle.color p'.

Definition sparkleAdvanced (dt : Q) (s s' : Sparkle.t) : Prop :=
  (Sparkle.life s' == Sparkle.life s - dt * 1.5)%Q
  /\ (Sparkle.rotation s' == Sparkle.rotation s + Sparkle.rotationSpeed s * dt)%Q
  /\ accelerated 5 dt (Sparkle.velocity s) (Sparkle.velocity s')
  /\ moved dt (Sparkle.velocity s') (Sparkle.position s) (Sparkle.position s')
  /\ Sparkle.maxLife s' = Sparkle.maxLife s
  /\ Sparkle.size s' = Sparkle.size s
  /\ Sparkle.rotationSpeed s' = Sparkle.rotationSpeed s
  /\ Sparkle.color s' = Sparkle.color s.

Definition sparkleDrawn (s' : Sparkle.t) (i : Instance.t) : Prop :=
  (Instance.scale i == Sparkle.size s' * (Sparkle.life s' / Sparkle.maxLife s'))%Q
  /\ Instance.rotationZ i = Some (Sparkle.rotation s')
  /\ Instance.position i = Sparkle.position s'
  /\ Instance.color i = Sparkle.color s'.

(* ===================================================================== *)
(** ** Fixtures to replay concrete cases on *)
(* ===================================================================== *)

(** A host whose random source cycles through 0, 0.1, ..., 0.9. *)
Definition sampleJs : JsEnv :=
  {| Math_PI := 3.14159;
     Math_sin := fun a => a;
     Math_cos := fun _ => 1%Q;
     Math_random := fun k => (inject_Z (Z.of_nat (k mod 10)) / 10)%Q;
     numberToString := fun q => if Qeq_bool q 0 then "0" else "n" |}.

Definition sampleParticle (life : Q) : Particle.t :=
  {| Particle.position := Vector3.mk 0 3 (-1);
     Particle.velocity := Vector3.mk 1 10 0;
     Particle.color := Color.multiplyScalar (Color.new COLORS.cyan) 1.5;
     Particle.life := life;
     Particle.maxLife := 1.0;
     Particle.size := 0.3 |}.

Definition sampleSparkle (life : Q) : Sparkle.t :=
  {| Sparkle.position := Vector3.mk 0 12 (-2);
     Sparkle.velocity := Vector3.mk 0 (-20) 0;
     Sparkle.color := Color.new COLORS.cyan;
     Sparkle.life := life;
     Sparkle.maxLife := 1.0;
     Sparkle.size := 0.2;
     Sparkle.rotation := 0;
     Sparkle.rotationSpeed := 2 |}.

(** A derived note with the given pitch, onset and duration, laid out and
    coloured as the [notes] memo does it. *)
Definition sampleNote (midi : Z) (time duration : Q) : NoteData.t :=
  let lane := getNoteX midi in
  {| NoteData.id := "0-0";
     NoteData.midi := midi;
     NoteData.time := time;
     NoteData.duration := duration;
     NoteData.velocity := 0.8;
     NoteData.isBlack := Lane.isBlack lane;
     NoteData.x := Lane.x lane;
     NoteData.width := Lane.width lane;
     NoteData.color := if (midi <? 60)%Z then COLORS.magenta else COLORS.cyan;
     NoteData.hit := false |}.

(* ===================================================================== *)
(** ** Further vocabulary: ingestion, tracking, pools, keyboard, audio *)
(* ===================================================================== *)



(** What the layout keeps of an event, and of a derived note. *)
Definition eventKey (e : MidiNote.t) : Z * Q * Q * Q :=
  (MidiNote.midi e, MidiNote.time e, MidiNote.duration e, MidiNote.velocity e).

Definition noteKey (d : NoteData.t) : Z * Q * Q * Q :=
  (NoteData.midi d, NoteData.time d, NoteData.duration d, NoteData.velocity d).

(** The notes that start at the same number [t]. *)
Definition startsAt (t : Q) (d : NoteData.t) : bool := Qeq_bool (NoteData.time d) t.

(** The [useFrame] callback of [SynthesiaFallingNotes]. *)
Module SynthesiaFrame.

Local Open Scope Q_scope.

Definition frameNote (currentTime : Q)
    (onSpawnSparkles : Q -> Q -> string -> Eff unit)
    (acc : gset string * gset string) (note : NoteData.t)
    : Eff (gset string * gset string) :=
  let '(visibleNoteIds, lastSpawnedNotes) := acc in
  let timeUntilHit := NoteData.time note - currentTime in
  if (timeUntilHit >? VISIBLE_WINDOW)
     || (timeUntilHit + NoteData.duration note <? 0)
  then ret acc
  else
    let visibleNoteIds := {[ NoteData.id note ]} ∪ visibleNoteIds in
    if negb (bool_decide (NoteData.id note ∈ lastSpawnedNotes))
       && (timeUntilHit >? 0) && (timeUntilHit <? VISIBLE_WINDOW)
    then
      let z := KEY_Z - (timeUntilHit * NOTE_SPEED
                        + (NoteData.duration note * NOTE_SPEED) / 2) in
      onSpawnSparkles (NoteData.x note) z (NoteData.color note) ;;;
      ret (visibleNoteIds, {[ NoteData.id note ]} ∪ lastSpawnedNotes)
    else ret (visibleNoteIds, lastSpawnedNotes).

Fixpoint frameNotes (currentTime : Q)
    (onSpawnSparkles : Q -> Q -> string -> Eff unit)
    (acc : gset string * gset string) (notes : list NoteData.t)
    : Eff (gset string * gset string) :=
  match notes with
  | [] => ret acc
  | note :: rest =>
      acc' <- frameNote currentTime onSpawnSparkles acc note ;;
      frameNotes currentTime onSpawnSparkles acc' rest
  end.

Definition useFrame (notes : list NoteData.t) (currentTime : Q)
    (onSpawnSparkles : Q -> Q -> string -> Eff unit)
    (lastSpawnedNotes : gset string) : Eff (gset string) :=
  acc <- frameNotes currentTime onSpawnSparkles (∅, lastSpawnedNotes) notes ;;
  let '(visibleNoteIds, lastSpawnedNotes) := acc in
  ret (filter (fun id => id ∈ visibleNoteIds) lastSpawnedNotes).

End SynthesiaFrame.

(** Where the sparkles of a note coming into view are asked for: the middle
    of the note, above the keys (fall view) or behind them (recede view). *)
Definition fallAnchor (currentTime : Q) (note : NoteData.t) : Q :=
  (HIT_Y + (NoteData.time note - currentTime) * NOTE_SPEED
   + (NoteData.duration note * NOTE_SPEED) / 2)%Q.

Definition recedeAnchor (currentTime : Q) (note : NoteData.t) : Q :=
  (KEY_Z - ((NoteData.time note - currentTime) * NOTE_SPEED
            + (NoteData.duration note * NOTE_SPEED) / 2))%Q.

(** The ids of a list of notes, as a set. *)
Definition idsOf (notes : list NoteData.t) : gset string :=
  list_to_set (map NoteData.id notes).

Section Tracking.

Context (outOfView : Q -> NoteData.t -> bool) (anchor : Q -> NoteData.t -> Q).

Local Open Scope Q_scope.

(** The note is in view, on its way to the keys, and not yet recorded. *)
Definition sparklesDue (currentTime : Q) (lastSpawnedNotes : gset string)
    (note : NoteData.t) : bool :=
  negb (outOfView currentTime note)
  && (negb (bool_decide (NoteData.id note ∈ lastSpawnedNotes))
      && (NoteData.time note - currentTime >? 0)
      && (NoteData.time note - currentTime <? VISIBLE_WINDOW)).

(** The calls of [onSpawnSparkles] for a list of notes, in order. *)
Definition sparkleCalls (currentTime : Q)
    (onSpawnSparkles : Q -> Q -> string -> Eff unit)
    (due : list NoteData.t) (r : Refs) : Refs :=
  fold_left
    (fun r note =>
       exec (onSpawnSparkles (NoteData.x note) (anchor currentTime note)
               (NoteData.color note)) r)
    due r.

End Tracking.

(** The last [n] members of a list. *)
Definition lastN {A : Type} (n : nat) (l : list A) : list A :=
  drop (length l - n) l.

(** The members a frame of step [dt] leaves in the pool. *)
Definition particlesAfter (dt : Q) (particles : list Particle.t) : list Particle.t :=
  (ParticleSystem.advance dt particles).1.1.

Definition sparklesAfter (dt : Q) (sparkles : list Sparkle.t) : list Sparkle.t :=
  (SparkleSystem.advance dt sparkles).1.1.

(** The same particle after one frame of [dt1 + dt2] ([one]) and after a
    frame of [dt1] followed by a frame of [dt2] ([two]): everything agrees
    but the height, which the split raises by [gravity * dt1 * dt2]. *)
Definition particleSplit (dt1 dt2 : Q) (one two : Particle.t) : Prop :=
  (Particle.life two == Particle.life one)%Q
  /\ sameVector (Particle.velocity two) (Particle.velocity one)
  /\ (Vector3.x (Particle.position two) == Vector3.x (Particle.position one))%Q
  /\ (Vector3.y (Particle.position two)
      == Vector3.y (Particle.position one) + 20 * dt1 * dt2)%Q
  /\ (Vector3.z (Particle.position two) == Vector3.z (Particle.position one))%Q
  /\ Particle.maxLife two = Particle.maxLife one
  /\ Particle.size two = Particle.size one
  /\ Particle.color two = Particle.color one.

Definition sparkleSplit (dt1 dt2 : Q) (one two : Sparkle.t) : Prop :=
  (Sparkle.life two == Sparkle.life one)%Q
  /\ (Sparkle.rotation two == Sparkle.rotation one)%Q
  /\ sameVector (Sparkle.velocity two) (Sparkle.velocity one)
  /\ (Vector3.x (Sparkle.position two) == Vector3.x (Sparkle.position one))%Q
  /\ (Vector3.y (Sparkle.position two)
      == Vector3.y (Sparkle.position one) + 5 * dt1 * dt2)%Q
  /\ (Vector3.z (Sparkle.position two) == Vector3.z (Sparkle.position one))%Q
  /\ Sparkle.maxLife two = Sparkle.maxLife one
  /\ Sparkle.size two = Sparkle.size one
  /\ Sparkle.color two = Sparkle.color one.

(** [Math.random] returns a number of [[0, 1)]. *)
Definition randomInRange (js : JsEnv) : Prop :=
  forall k : nat, (0 <= Math_random js k /\ Math_random js k < 1)%Q.

(** A spawn request, or a frame of either pool whose [delta] is not
    negative. *)
Inductive Tick (js : JsEnv) : Refs -> Refs -> Prop :=
| tick_spawn (call : SpawnCall) (r : Refs) :
    Tick js r (exec (spawn js call) r)
| tick_particles (mounted : bool) (delta : Q) (r : Refs) :
    (0 <= delta)%Q ->
    Tick js r (exec (ParticleSystem.useFrame mounted delta) r)
| tick_sparkles (mounted : bool) (delta : Q) (r : Refs) :
    (0 <= delta)%Q ->
    Tick js r (exec (SparkleSystem.useFrame mounted delta) r).

Inductive Played (js : JsEnv) : Refs -> Prop :=
| played_init : Played js emptyRefs
| played_tick (r r' : Refs) : Played js r -> Tick js r r' -> Played js r'.

(** What holds of every live member. *)
Definition particleSound (p : Particle.t) : Prop :=
  (0 < Particle.life p /\ Particle.life p <= Particle.maxLife p
   /\ 0.8 <= Particle.maxLife p /\ Particle.maxLife p < 1.5
   /\ 0.2 <= Particle.size p /\ Particle.size p < 0.4)%Q.

Definition sparkleSound (s : Sparkle.t) : Prop :=
  (0 < Sparkle.life s /\ Sparkle.life s <= Sparkle.maxLife s
   /\ Sparkle.maxLife s == 1
   /\ 0.1 <= Sparkle.size s /\ Sparkle.size s < 0.25)%Q.

Definition membersSound (r : Refs) : Prop :=
  Forall particleSound (particlesRef r) /\ Forall sparkleSound (sparklesRef r).

(** Frames in which nothing is spawned: both pools step by the frame's
    [delta]. *)
Fixpoint idleFrames (deltas : list Q) (r : Refs) : Refs :=
  match deltas with
  | [] => r
  | delta :: rest =>
      idleFrames rest
        (exec (SparkleSystem.useFrame true delta)
           (exec (ParticleSystem.useFrame true delta) r))
  end.

Definition elapsed (deltas : list Q) : Q := fold_right Qplus 0%Q deltas.

(* ===================================================================== *)
(** ** The keyboard [PianoKeys] *)
(* ===================================================================== *)

(** The remaining entries of [COLORS] the keyboard uses. *)
Definition COLORS_cyanGlow : string := "#4dd0e1".
Definition COLORS_magentaGlow : string := "#ce93d8".
Definition COLORS_whiteKey : string := "#f5f5f5".
Definition COLORS_blackKey : string := "#1a1a1a".

(** [Set.prototype.add] on a [Set] kept in insertion order, the order
    [forEach] visits it in. *)
Definition setAdd (v : Z) (s : list Z) : list Z :=
  if includes s v then s else s ++ [v].

(** The [Set] that [activeNotes] builds, with its iteration order. *)
Definition activeNotesOrder (animTime : Q) (notes : list NoteData.t) : list Z :=
  fold_left
    (fun (active : list Z) n =>
       if ((animTime >=? NoteData.time n)
           && (animTime <? NoteData.time n + NoteData.duration n))%Q
       then setAdd (NoteData.midi n) active
       else active)
    notes [].

Fixpoint forEach {A : Type} (items : list A) (callback : A -> Eff unit) : Eff unit :=
  match items with
  | [] => ret tt
  | item :: rest => callback item ;;; forEach rest callback
  end.

(** One rendered key: the group's position, the box's [args], the material
    and the colour of the point light under an active key. *)
Module KeyView.
Record t : Type := mk {
  midi : Z;
  position : Vector3.t;
  args : Vector3.t;
  color : string;
  emissive : string;
  emissiveIntensity : Q;
  pointLight : option string
}.
End KeyView.

Module PianoKeys.

(** [keys.find(k => k.midi === midi)]. *)
Definition find (midi : Z) : option (Z * Lane.t) :=
  List.find (fun k => (k.1 =? midi)%Z) keys.

Definition useFrame (activeNotes : list Z)
    (onSpawnParticles : Q -> string -> Eff unit) : Eff unit :=
  forEach activeNotes (fun midi =>
    match find midi with
    | Some key =>
        let isLeft := (midi <? 60)%Z in
        let color := if isLeft then COLORS.magenta else COLORS.cyan in
        onSpawnParticles (Lane.x key.2) color
    | None => ret tt
    end).

Definition renderKey (activeNotes : gset Z) (key : Z * Lane.t) : KeyView.t :=
  let isActive := bool_decide (key.1 ∈ activeNotes) in
  let isBlack := Lane.isBlack key.2 in
  let height := (if isBlack then 2 else 1.5)%Q in
  let length := (if isBlack then 3 else 5)%Q in
  let yPos := (if isBlack then 0.5 else 0)%Q in
  let zPos := (if isBlack then -1 else 0)%Q in
  let isLeft := (key.1 <? 60)%Z in
  let baseColor := if isBlack then COLORS_blackKey else COLORS_whiteKey in
  let activeColor := if isLeft then COLORS.magenta else COLORS.cyan in
  let baseEmissiveColor := if isBlack then "#1a1a1a"%string else "#2a2a2a"%string in
  let emissiveColor :=
    if isActive then (if isLeft then COLORS_magentaGlow else COLORS_cyanGlow)
    else baseEmissiveColor in
  let emissiveIntensity := (if isActive then 2.5 else 0)%Q in
  {| KeyView.midi := key.1;
     KeyView.position := Vector3.mk (Lane.x key.2) yPos zPos;
     KeyView.args := Vector3.mk (Lane.width key.2) height length;
     KeyView.color := if isActive then activeColor else baseColor;
     KeyView.emissive := emissiveColor;
     KeyView.emissiveIntensity := emissiveIntensity;
     KeyView.pointLight :=
       if isActive
       then Some (if (key.1 <? 60)%Z then COLORS.magenta else COLORS.cyan)
       else None |}.

Definition render (activeNotes : gset Z) : list KeyView.t :=
  map (renderKey activeNotes) keys.

End PianoKeys.

(** The pitch has a key on the 88-key keyboard. *)
Definition onKeyboard (midi : Z) : bool := (21 <=? midi) && (midi <=? 108).

(** The colour of the hand a pitch belongs to. *)
Definition handColor (midi : Z) : string :=
  if midi <? 60 then COLORS.magenta else COLORS.cyan.

(** The sounding pitches that have a key, in the order the frame visits
    them. *)
Definition soundingKeys (animTime : Q) (notes : list NoteData.t) : list Z :=
  List.filter onKeyboard (activeNotesOrder animTime notes).

(* ===================================================================== *)
(** ** The player's audio schedule *)
(* ===================================================================== *)

(** Audio offset to compensate for latency (negative = play earlier). *)
Definition AUDIO_OFFSET : Q := (-0.05)%Q.

(** One [Tone.Transport.schedule(callback, time)]: the note the callback
    attacks and the transport time it is registered at. *)
Module Scheduled.
Record t : Type := mk { note : MidiNote.t; time : Q }.
End Scheduled.

Definition shouldPlay (handFilter : HandFilter.t) (note : MidiNote.t) : bool :=
  handFilterIs handFilter HandFilter.both
  || (handFilterIs handFilter HandFilter.left && (MidiNote.midi note <? 60)%Z)
  || (handFilterIs handFilter HandFilter.right && (MidiNote.midi note >=? 60)%Z).

(** [midi.tracks.forEach(track => track.notes.forEach(note => ...))]. *)
Definition scheduleTrack (handFilter : HandFilter.t) (track : Track)
    : list Scheduled.t :=
  flat_map
    (fun note =>
       if shouldPlay handFilter note
       then [Scheduled.mk note (MidiNote.time note + AUDIO_OFFSET)%Q]
       else [])
    track.

Definition scheduleNotes (handFilter : HandFilter.t) (midi : Midi)
    : list Scheduled.t :=
  flat_map (scheduleTrack handFilter) midi.

(* ===================================================================== *)
(** * Properties *)
(* ===================================================================== *)

(** ** Comparisons on [Q] *)

Lemma Qleb_le (a b : Q) : (a <=? b)%Q = true <-> (a <= b)%Q.
Proof. apply Qle_bool_iff. Qed.

Lemma Qltb_lt (a b : Q) : (a <? b)%Q = true <-> (a < b)%Q.
Proof.
  unfold Qltb. rewrite negb_true_iff. split.
  - intros H. apply Qnot_le_lt. intros Hle. apply Qle_bool_iff in Hle. congruence.
  - intros H. destruct (Qle_bool b a) eqn:E; [|reflexivity].
    apply Qle_bool_iff in E. exfalso. exact (Qlt_not_le _ _ H E).
Qed.

Lemma Qltb_ge (a b : Q) : (a <? b)%Q = false <-> (b <= a)%Q.
Proof.
  unfold Qltb. rewrite negb_false_iff. apply Qle_bool_iff.
Qed.

Lemma Qleb_gt (a b : Q) : (a <=? b)%Q = false <-> (b < a)%Q.
Proof.
  rewrite <- Qltb_lt. unfold Qltb, Qleb. destruct (Qle_bool a b); simpl; split; congruence.
Qed.

(** ** The white-key counter *)

Lemma countWhite_acc fuel : forall i acc, countWhite fuel i acc = acc + countWhite fuel i 0.
Proof.
  induction fuel as [|f IH]; intros i acc; simpl; [lia|].
  destruct (negb _).
  - rewrite (IH (i + 1) (acc + 1)), (IH (i + 1) (0 + 1)). lia.
  - apply IH.
Qed.

Lemma countWhite_snoc fuel : forall i acc,
  countWhite (S fuel) i acc = countWhite fuel i acc + whiteStep (i + Z.of_nat fuel).
Proof.
  induction fuel as [|f IH]; intros i acc.
  - simpl. rewrite Z.add_0_r. unfold whiteStep. destruct (negb _); lia.
  - change (countWhite (S (S f)) i acc) with
      (countWhite (S f) (i + 1) (if negb (includes sharps (Z.rem i 12)) then acc + 1 else acc)).
    rewrite IH. simpl countWhite at 2.
    replace (i + 1 + Z.of_nat f) with (i + Z.of_nat (S f)) by lia. reflexivity.
Qed.

Lemma whiteKeyCount_below midi : midi <= 21 -> whiteKeyCount midi = 0.
Proof.
  intros H. unfold whiteKeyCount. replace (Z.to_nat (midi - 21)) with O by lia. reflexivity.
Qed.

Lemma whiteKeyCount_succ midi : 21 <= midi ->
  whiteKeyCount (midi + 1) = whiteKeyCount midi + whiteStep midi.
Proof.
  intros H. unfold whiteKeyCount.
  replace (Z.to_nat (midi + 1 - 21)) with (S (Z.to_nat (midi - 21))) by lia.
  rewrite countWhite_snoc. f_equal. f_equal. lia.
Qed.

Lemma whiteStep_range i : 0 <= whiteStep i <= 1.
Proof. unfold whiteStep. destruct (negb _); lia. Qed.

Lemma whiteKeyCount_mono_nat (k : nat) midi : whiteKeyCount midi <= whiteKeyCount (midi + Z.of_nat k).
Proof.
  induction k as [|k IH].
  - rewrite Z.add_0_r. lia.
  - destruct (Z_le_gt_dec 21 (midi + Z.of_nat k)) as [Hge|Hlt].
    + replace (midi + Z.of_nat (S k)) with (midi + Z.of_nat k + 1) by lia.
      rewrite whiteKeyCount_succ by exact Hge. pose proof (whiteStep_range (midi + Z.of_nat k)). lia.
    + rewrite (whiteKeyCount_below (midi + Z.of_nat (S k))) by lia.
      rewrite (whiteKeyCount_below midi) by lia. lia.
Qed.

Lemma whiteKeyCount_mono p q : p <= q -> whiteKeyCount p <= whiteKeyCount q.
Proof.
  intros H. replace q with (p + Z.of_nat (Z.to_nat (q - p))) by lia. apply whiteKeyCount_mono_nat.
Qed.




Lemma whiteKeysBelow_count midi : whiteKeyCount midi = Z.of_nat (whiteKeysBelow midi).
Proof.
  unfold whiteKeyCount, whiteKeysBelow, pitchRange.
  induction (Z.to_nat (midi - 21)) as [|f IH]; [reflexivity|].
  rewrite countWhite_snoc, IH. clear IH.
  rewrite seq_S, map_app, List.filter_app, length_app. simpl.
  unfold whiteStep, isWhitePitch.
  rewrite Z.rem_mod_nonneg by lia.
  destruct (negb _) eqn:E; simpl; rewrite ?E; simpl; lia.
Qed.

(** ** The lane resolver *)

Lemma WHITE_KEY_WIDTH_pos : (0 < WHITE_KEY_WIDTH)%Q.
Proof. reflexivity. Qed.

Lemma includes_In (l : list Z) (n : Z) : includes l n = true <-> In n l.
Proof.
  unfold includes. rewrite existsb_exists. split.
  - intros (y & Hy & E). apply Z.eqb_eq in E. subst. exact Hy.
  - intros H. exists n. split; [exact H | apply Z.eqb_refl].
Qed.

Lemma getNoteX_isBlack midi : Lane.isBlack (getNoteX midi) = includes sharps (Z.rem midi 12).
Proof. unfold getNoteX. destruct (includes sharps _); reflexivity. Qed.

Lemma getNoteX_x_white midi : Lane.isBlack (getNoteX midi) = false ->
  (Lane.x (getNoteX midi) ==
   - KEYBOARD_WIDTH / 2 + inject_Z (whiteKeyCount midi) * WHITE_KEY_WIDTH + WHITE_KEY_WIDTH / 2)%Q.
Proof. unfold getNoteX. destruct (includes sharps _); simpl; [discriminate | reflexivity]. Qed.

Lemma getNoteX_black midi : Lane.isBlack (getNoteX midi) = true ->
  (Lane.x (getNoteX midi) ==
   - KEYBOARD_WIDTH / 2 + (inject_Z (whiteKeyCount midi) + 0.5) * WHITE_KEY_WIDTH)%Q
  /\ (Lane.width (getNoteX midi) == 0.65 * WHITE_KEY_WIDTH)%Q.
Proof.
  unfold getNoteX. destruct (includes sharps _); simpl; [|discriminate].
  intros _. split; [reflexivity | unfold BLACK_KEY_WIDTH; ring].
Qed.

Lemma white_x_lt (a b : Z) : a < b ->
  (- KEYBOARD_WIDTH / 2 + inject_Z a * WHITE_KEY_WIDTH + WHITE_KEY_WIDTH / 2
   < - KEYBOARD_WIDTH / 2 + inject_Z b * WHITE_KEY_WIDTH + WHITE_KEY_WIDTH / 2)%Q.
Proof.
  intros H. rewrite Zlt_Qlt in H.
  pose proof WHITE_KEY_WIDTH_pos as Hw.
  assert (inject_Z a * WHITE_KEY_WIDTH < inject_Z b * WHITE_KEY_WIDTH)%Q as Hm
    by (apply Qmult_lt_compat_r; assumption).
  generalize dependent (inject_Z a * WHITE_KEY_WIDTH)%Q.
  generalize (inject_Z b * WHITE_KEY_WIDTH)%Q (- KEYBOARD_WIDTH / 2)%Q (WHITE_KEY_WIDTH / 2)%Q.
  intros; lra.
Qed.

(** C5: for every pitch of the 88-key range 21..108, [getNoteX] marks the
    pitch black exactly when its pitch class is one of 1, 3, 6, 8, 10; a white
    key sits at [-KEYBOARD_WIDTH/2 + index * WHITE_KEY_WIDTH +
    WHITE_KEY_WIDTH/2], where the index is the number of white keys strictly
    below the pitch; a black key sits half a slot further than that index and
    is 0.65 of the white width wide; white keys have strictly increasing x;
    and the 88 keys are 52 white and 36 black. *)
Theorem getNoteX_layout_88 (pitch : Z) (Hrange : 21 <= pitch <= 108) :
  let lane := getNoteX pitch in
  let whiteKeyIndex := inject_Z (Z.of_nat (whiteKeysBelow pitch)) in
  (Lane.isBlack lane = true <-> In (pitch mod 12) [1; 3; 6; 8; 10])
  /\ (Lane.isBlack lane = false ->
      (Lane.x lane == - KEYBOARD_WIDTH / 2 + whiteKeyIndex * WHITE_KEY_WIDTH
                      + WHITE_KEY_WIDTH / 2)%Q)
  /\ (Lane.isBlack lane = true ->
      (Lane.x lane == - KEYBOARD_WIDTH / 2 + (whiteKeyIndex + 0.5) * WHITE_KEY_WIDTH)%Q
      /\ (Lane.width lane == 0.65 * WHITE_KEY_WIDTH)%Q)
  /\ (forall q, pitch < q <= 108 ->
      Lane.isBlack lane = false -> Lane.isBlack (getNoteX q) = false ->
      (Lane.x lane < Lane.x (getNoteX q))%Q)
  /\ length (List.filter (fun k => negb (Lane.isBlack (snd k))) keys) = 52%nat
  /\ length (List.filter (fun k => Lane.isBlack (snd k)) keys) = 36%nat.
Proof.
  intros lane whiteKeyIndex. subst lane whiteKeyIndex.
  rewrite <- whiteKeysBelow_count.
  split; [|split; [|split; [|split; [|split]]]].
  - rewrite getNoteX_isBlack, Z.rem_mod_nonneg by lia. apply includes_In.
  - apply getNoteX_x_white.
  - apply getNoteX_black.
  - intros q Hq Hp Hqw.
    rewrite (getNoteX_x_white _ Hp), (getNoteX_x_white _ Hqw).
    apply white_x_lt.
    assert (whiteKeyCount (pitch + 1) = whiteKeyCount pitch + 1) as Hs.
    { rewrite whiteKeyCount_succ by lia. f_equal.
      rewrite getNoteX_isBlack in Hp. unfold whiteStep. rewrite Hp. reflexivity. }
    pose proof (whiteKeyCount_mono (pitch + 1) q ltac:(lia)). lia.
  - vm_compute. reflexivity.
  - vm_compute. reflexivity.
Qed.

Lemma getNoteX_layout_88_witness :
  Lane.isBlack (getNoteX 61) = true
  /\ (Lane.x (getNoteX 60) < Lane.x (getNoteX 62))%Q.
Proof.
  split.
  - apply (getNoteX_layout_88 61 ltac:(lia)). vm_compute. auto.
  - apply (getNoteX_layout_88 60 ltac:(lia) ).
    + lia.
    + reflexivity.
    + reflexivity.
Defined.

(** ** The visible window of the fall view *)

Section Visibility.

Local Open Scope Q_scope.

Lemma VISIBLE_WINDOW_value : VISIBLE_WINDOW == 40 / 25 /\ VISIBLE_WINDOW == 1.6.
Proof. split; reflexivity. Qed.

Lemma NOTE_GAP_value : NOTE_GAP == 2.5.
Proof. reflexivity. Qed.

Lemma fall_outOfView_false (t : Q) (note : NoteData.t) :
  FallingNotes.outOfView t note = false <->
  NoteData.time note - t <= VISIBLE_WINDOW
  /\ NoteData.time note - t + NoteData.duration note >= -0.5.
Proof.
  unfold FallingNotes.outOfView. cbv zeta.
  rewrite orb_false_iff, !Qltb_ge. reflexivity.
Qed.

Lemma fall_renderNote_visible (t : Q) (note : NoteData.t) :
  is_Some (FallingNotes.renderNote t note) <-> FallingNotes.outOfView t note = false.
Proof.
  unfold FallingNotes.renderNote, FallingNotes.outOfView. cbv zeta.
  destruct (_ || _); split; intros H; try discriminate; eauto.
  destruct H; discriminate.
Qed.

(** C1: the fall view renders a note exactly when [onset - t <= W] and
    [onset - t + duration >= -g], where [W] is the fall distance over the fall
    speed, [40/25 = 1.6] seconds, and [g = 0.5] seconds; a note with onset 5.0
    and duration 1.0 is rendered at [t = 3.5] and is not at [t = 3.3] nor at
    [t = 6.6]. *)
Theorem fall_view_visible_window (note : NoteData.t) (t : Q) :
  let onset := NoteData.time note in
  let duration := NoteData.duration note in
  let W := FALL_HEIGHT / NOTE_SPEED in
  let g := 0.5 in
  (VISIBLE_WINDOW == W /\ W == 40 / 25 /\ W == 1.6)
  /\ (is_Some (FallingNotes.renderNote t note) <->
      onset - t <= W /\ onset - t + duration >= - g)
  /\ (onset == 5.0 -> duration == 1.0 ->
      (t == 3.5 -> is_Some (FallingNotes.renderNote t note))
      /\ (t == 3.3 -> FallingNotes.renderNote t note = None)
      /\ (t == 6.6 -> FallingNotes.renderNote t note = None)).
Proof.
  intros onset duration W g.
  assert (HW : W == 1.6) by reflexivity.
  assert (Hiff : is_Some (FallingNotes.renderNote t note) <->
                 onset - t <= W /\ onset - t + duration >= - g).
  { rewrite fall_renderNote_visible, fall_outOfView_false. reflexivity. }
  split; [repeat split; reflexivity|]. split; [exact Hiff|].
  intros Ho Hd. 
  generalize dependent W. intros W HW Hiff.
  repeat split.
  - intros Ht. apply Hiff. subst g. split; lra.
  - intros Ht. destruct (FallingNotes.renderNote t note) eqn:E; [|reflexivity].
    exfalso. assert (is_Some (Some t0)) as Hs by eauto. apply Hiff in Hs. subst g. lra.
  - intros Ht. destruct (FallingNotes.renderNote t note) eqn:E; [|reflexivity].
    exfalso. assert (is_Some (Some t0)) as Hs by eauto. apply Hiff in Hs. subst g. lra.
Qed.

Lemma fall_view_visible_window_witness :
  is_Some (FallingNotes.renderNote 3.5 (sampleNote 60 5.0 1.0))
  /\ FallingNotes.renderNote 3.3 (sampleNote 60 5.0 1.0) = None
  /\ FallingNotes.renderNote 6.6 (sampleNote 60 5.0 1.0) = None.
Proof.
  pose proof (fall_view_visible_window (sampleNote 60 5.0 1.0)) as H.
  split; [|split].
  - destruct (H 3.5) as (_ & _ & Hex).
    destruct Hex as (Hv & _ & _); [reflexivity..|]. apply Hv. reflexivity.
  - destruct (H 3.3) as (_ & _ & Hex).
    destruct Hex as (_ & Hv & _); [reflexivity..|]. apply Hv. reflexivity.
  - destruct (H 6.6) as (_ & _ & Hex).
    destruct Hex as (_ & _ & Hv); [reflexivity..|]. apply Hv. reflexivity.
Defined.

(** ** The recede view: window, clipping and placement *)

Lemma NOTE_SPEED_value : NOTE_SPEED == 25.
Proof. reflexivity. Qed.

Lemma fullDepth_min (note : NoteData.t) : 0.1 <= SynthesiaFallingNotes.fullDepth note.
Proof. apply Q.le_max_l. Qed.

Lemma recede_outOfView_false (t : Q) (note : NoteData.t) :
  SynthesiaFallingNotes.outOfView t note = false <->
  NoteData.time note - t <= VISIBLE_WINDOW
  /\ NoteData.time note - t + NoteData.duration note >= 0.
Proof.
  unfold SynthesiaFallingNotes.outOfView. cbv zeta.
  rewrite orb_false_iff, !Qltb_ge. reflexivity.
Qed.

(** The recede view's window is the fall view's with the grace removed. *)
Lemma recede_outOfView_fall (t : Q) (note : NoteData.t) :
  SynthesiaFallingNotes.outOfView t note
  = FallingNotes.outOfView t note
    || (NoteData.time note - t + NoteData.duration note <? 0).
Proof.
  unfold SynthesiaFallingNotes.outOfView, FallingNotes.outOfView. cbv zeta.
  destruct (_ >? _); simpl; [reflexivity|].
  destruct (_ <? -0.5) eqn:E; simpl; [|reflexivity].
  apply Qltb_lt in E. apply Qltb_lt. lra.
Qed.

Lemma clip_before (timeUntilHit fullDepth : Q) : 0 <= timeUntilHit ->
  SynthesiaFallingNotes.clip timeUntilHit fullDepth
  = (fullDepth, (KEY_Z - timeUntilHit * NOTE_SPEED) - fullDepth / 2).
Proof.
  intros H. unfold SynthesiaFallingNotes.clip.
  apply Qltb_ge in H. rewrite H. reflexivity.
Qed.

Lemma clip_after (timeUntilHit fullDepth : Q) : timeUntilHit < 0 ->
  SynthesiaFallingNotes.clip timeUntilHit fullDepth
  = (Qmax 0 (fullDepth - - timeUntilHit * NOTE_SPEED),
     KEY_Z - Qmax 0 (fullDepth - - timeUntilHit * NOTE_SPEED) / 2).
Proof.
  intros H. unfold SynthesiaFallingNotes.clip.
  apply Qltb_lt in H. rewrite H. reflexivity.
Qed.

Lemma recede_renderNote_eq (t : Q) (note : NoteData.t) :
  SynthesiaFallingNotes.renderNote t note =
  if SynthesiaFallingNotes.outOfView t note then None
  else
    let '(currentDepth, zCenter) :=
      SynthesiaFallingNotes.clip (NoteData.time note - t)
        (SynthesiaFallingNotes.fullDepth note) in
    if currentDepth <=? 0 then None
    else Some (Box.mk (NoteData.id note)
                 (Vector3.mk (NoteData.x note) 1 zCenter)
                 (Vector3.mk (NoteData.width note) 0.5 currentDepth)
                 (NoteData.color note)).
Proof. reflexivity. Qed.

(** C2, as the code has it: in the recede view, for a note inside the window
    that has begun landing ([onset - t < 0]), the depth drawn is
    [max 0 (fullExtent - elapsed * NOTE_SPEED)], where [fullExtent] is the
    depth after the visual gap, [max 0.1 (duration * 25 - 2.5)]; it is never
    negative; the note is not drawn once it is 0; and a drawn note is centred
    so that its leading edge [z + depth/2] is at the keyboard plane [z = 0].
    A note of duration 1.0 (25 units before the gap) keeps 10 units at half
    its duration; a note of duration 1.1 (25 units after the gap) keeps
    11.25. *)
Theorem recede_view_clipping (note : NoteData.t) (t : Q)
    (Hlanding : NoteData.time note - t < 0)
    (Hwindow : SynthesiaFallingNotes.outOfView t note = false) :
  let fullExtent := SynthesiaFallingNotes.fullDepth note in
  let elapsedSincePassed := t - NoteData.time note in
  let remaining := Qmax 0 (fullExtent - elapsedSincePassed * NOTE_SPEED) in
  fullExtent == Qmax 0.1 (NoteData.duration note * 25 - 2.5)
  /\ 0 <= remaining
  /\ (remaining <= 0 -> SynthesiaFallingNotes.renderNote t note = None)
  /\ (0 < remaining ->
      exists box, SynthesiaFallingNotes.renderNote t note = Some box
        /\ Vector3.z (Box.args box) == remaining
        /\ Vector3.z (Box.position box) + Vector3.z (Box.args box) / 2 == 0)
  /\ (NoteData.duration note == 1.0 ->
      elapsedSincePassed == NoteData.duration note / 2 -> remaining == 10)
  /\ (NoteData.duration note == 1.1 ->
      fullExtent == 25
      /\ (elapsedSincePassed == NoteData.duration note / 2 -> remaining == 11.25)).
Proof.
  intros fullExtent elapsedSincePassed remaining.
  assert (Hfull : fullExtent == Qmax 0.1 (NoteData.duration note * 25 - 2.5)).
  { unfold fullExtent, SynthesiaFallingNotes.fullDepth. cbv zeta.
    apply Q.max_compat; [reflexivity|]. rewrite NOTE_SPEED_value, NOTE_GAP_value. reflexivity. }
  assert (Hcur : Qmax 0 (fullExtent - - (NoteData.time note - t) * NOTE_SPEED) == remaining).
  { unfold remaining, elapsedSincePassed. apply Q.max_compat; [reflexivity|]. ring. }
  rewrite recede_renderNote_eq, Hwindow, clip_after by exact Hlanding.
  fold fullExtent.
  set (currentDepth := Qmax 0 (fullExtent - - (NoteData.time note - t) * NOTE_SPEED)) in *.
  split; [exact Hfull|]. split; [apply Q.le_max_l|]. split; [|split; [|split]].
  - intros Hr. rewrite <- Hcur in Hr. apply Qleb_le in Hr. rewrite Hr. reflexivity.
  - intros Hr. rewrite <- Hcur in Hr. apply Qleb_gt in Hr. rewrite Hr.
    eexists. split; [reflexivity|]. simpl. split; [exact Hcur|].
    unfold KEY_Z. field.
  - intros Hd He. unfold remaining. rewrite He, Hfull, Hd, NOTE_SPEED_value.
    reflexivity.
  - intros Hd. assert (Hf : fullExtent == 25) by (rewrite Hfull, Hd; reflexivity).
    split; [exact Hf|]. intros He. unfold remaining. rewrite He, Hf, Hd, NOTE_SPEED_value.
    reflexivity.
Qed.

Lemma recede_view_clipping_witness :
  exists box,
    SynthesiaFallingNotes.renderNote 0.5 (sampleNote 60 0 1.0) = Some box
    /\ Vector3.z (Box.args box) == Qmax 0 (SynthesiaFallingNotes.fullDepth (sampleNote 60 0 1.0) - (0.5 - 0) * NOTE_SPEED)
    /\ Vector3.z (Box.position box) + Vector3.z (Box.args box) / 2 == 0.
Proof.
  destruct (recede_view_clipping (sampleNote 60 0 1.0) 0.5) as (_ & _ & _ & Hbox & _);
    [reflexivity..|].
  apply Hbox. reflexivity.
Defined.

(** C2 as stated fails on its example: at half its duration past onset a
    note of extent 25 keeps 10 units (extent read before the gap) or 11.25
    (after the gap), neither within one unit of 12.5. *)
Lemma recede_half_duration_counterexample :
  ~ (forall (note : NoteData.t) (t : Q),
       NoteData.duration note * NOTE_SPEED == 25 ->
       t - NoteData.time note == NoteData.duration note / 2 ->
       exists box, SynthesiaFallingNotes.renderNote t note = Some box
                   /\ Qabs (Vector3.z (Box.args box) - 12.5) <= 1)
  /\ ~ (forall (note : NoteData.t) (t : Q),
       SynthesiaFallingNotes.fullDepth note == 25 ->
       t - NoteData.time note == NoteData.duration note / 2 ->
       exists box, SynthesiaFallingNotes.renderNote t note = Some box
                   /\ Qabs (Vector3.z (Box.args box) - 12.5) <= 1).
Proof.
  split.
  - intros H. destruct (H (sampleNote 60 0 1.0) 0.5) as (box & Hb & Hd); [reflexivity..|].
    vm_compute in Hb. injection Hb as <-. vm_compute in Hd. apply Hd. reflexivity.
  - intros H. destruct (H (sampleNote 60 0 1.1) 0.55) as (box & Hb & Hd); [reflexivity..|].
    vm_compute in Hb. injection Hb as <-. vm_compute in Hd. apply Hd. reflexivity.
Qed.

Lemma recede_renderNote_visible (t : Q) (note : NoteData.t) :
  is_Some (SynthesiaFallingNotes.renderNote t note) <->
  NoteData.time note - t <= VISIBLE_WINDOW
  /\ NoteData.time note - t + NoteData.duration note >= 0
  /\ (NoteData.time note - t < 0 ->
      0 < SynthesiaFallingNotes.fullDepth note + (NoteData.time note - t) * NOTE_SPEED).
Proof.
  rewrite recede_renderNote_eq.
  destruct (SynthesiaFallingNotes.outOfView t note) eqn:Ev.
  - split; [intros [? ?]; discriminate|]. intros (H1 & H2 & _).
    assert (SynthesiaFallingNotes.outOfView t note = false) as Hf
      by (apply recede_outOfView_false; split; assumption). congruence.
  - apply recede_outOfView_false in Ev. destruct Ev as [H1 H2].
    pose proof (fullDepth_min note) as Hmin.
    destruct (Qlt_le_dec (NoteData.time note - t) 0) as [Hlt|Hge].
    + rewrite clip_after by exact Hlt.
      set (d := SynthesiaFallingNotes.fullDepth note) in *.
      set (u := NoteData.time note - t) in *.
      destruct (Qmax 0 (d - - u * NOTE_SPEED) <=? 0) eqn:E.
      * apply Qleb_le in E. split; [intros [? ?]; discriminate|].
        intros (_ & _ & H3). specialize (H3 Hlt). exfalso.
        pose proof (Q.le_max_r 0 (d - - u * NOTE_SPEED)) as Hr.
        unfold NOTE_SPEED in *.
        generalize dependent (Qmax 0 (d - - u * 25)). intros. lra.
      * apply Qleb_gt in E. split; [|eauto]. intros _. split; [exact H1|]. split; [exact H2|].
        intros _. destruct (Q.max_spec 0 (d - - u * NOTE_SPEED)) as [[Ha Hb]|[Ha Hb]].
        -- unfold NOTE_SPEED in *. lra.
        -- rewrite Hb in E. lra.
    + rewrite clip_before by exact Hge.
      destruct (_ <=? 0) eqn:E.
      * apply Qleb_le in E. lra.
      * split; [|eauto]. intros _. split; [exact H1|]. split; [exact H2|]. intros. lra.
Qed.

(** C6 as stated fails: a note of onset 0 and duration 1 is still drawn by
    the fall view at [t = 1.2] and no longer by the recede view. *)
Lemma views_window_counterexample :
  ~ (forall (note : NoteData.t) (t : Q),
       FallingNotes.outOfView t note = SynthesiaFallingNotes.outOfView t note)
  /\ ~ (forall (note : NoteData.t) (t : Q),
       is_Some (FallingNotes.renderNote t note)
       <-> is_Some (SynthesiaFallingNotes.renderNote t note)).
Proof.
  split.
  - intros H. specialize (H (sampleNote 60 0 1.0) 1.2). vm_compute in H. discriminate.
  - intros H. destruct (proj1 (H (sampleNote 60 0 1.0) 1.2)) as [box Hb].
    + vm_compute. eauto.
    + vm_compute in Hb. discriminate.
Qed.

(** C6, as the code has it: both views use the look-ahead bound
    [VISIBLE_WINDOW]; the fall view keeps a note until 0.5 s after its end,
    the recede view until its end.  Whatever the recede view draws the fall
    view draws too, and the two window tests agree whenever
    [onset - t + duration] is not in [[-0.5, 0)]. *)
Theorem views_window_relation (note : NoteData.t) (t : Q) :
  let timeUntilHit := NoteData.time note - t in
  let duration := NoteData.duration note in
  (FallingNotes.outOfView t note = false <->
     timeUntilHit <= VISIBLE_WINDOW /\ timeUntilHit + duration >= -0.5)
  /\ (SynthesiaFallingNotes.outOfView t note = false <->
     timeUntilHit <= VISIBLE_WINDOW /\ timeUntilHit + duration >= 0)
  /\ (is_Some (SynthesiaFallingNotes.renderNote t note) ->
      is_Some (FallingNotes.renderNote t note))
  /\ (0 <= timeUntilHit + duration \/ timeUntilHit + duration < -0.5 ->
      SynthesiaFallingNotes.outOfView t note = FallingNotes.outOfView t note).
Proof.
  intros timeUntilHit duration.
  split; [apply fall_outOfView_false|]. split; [apply recede_outOfView_false|]. split.
  - rewrite recede_renderNote_visible, fall_renderNote_visible, fall_outOfView_false.
    fold timeUntilHit duration. intros (H1 & H2 & _). split; [exact H1 | lra].
  - intros H. rewrite recede_outOfView_fall. fold timeUntilHit duration.
    destruct H as [H|H].
    + apply Qltb_ge in H. rewrite H. apply orb_false_r.
    + assert (FallingNotes.outOfView t note = true) as ->; [|reflexivity].
      unfold FallingNotes.outOfView. cbv zeta. fold timeUntilHit duration.
      apply Qltb_lt in H. rewrite H. apply orb_true_r.
Qed.

Lemma views_window_relation_witness :
  is_Some (FallingNotes.renderNote 0.5 (sampleNote 60 0 1.0))
  /\ SynthesiaFallingNotes.outOfView 0.5 (sampleNote 60 0 1.0)
     = FallingNotes.outOfView 0.5 (sampleNote 60 0 1.0).
Proof.
  destruct (views_window_relation (sampleNote 60 0 1.0) 0.5) as (_ & _ & Hsub & Hagree).
  split.
  - apply Hsub. vm_compute. eauto.
  - apply Hagree. left. vm_compute. discriminate.
Defined.

End Visibility.

(** ** The activation tracker *)

Section Activation.

Local Open Scope Q_scope.

Lemma sounding_test (t : Q) (n : NoteData.t) :
  (t >=? NoteData.time n) && (t <? NoteData.time n + NoteData.duration n) = true
  <-> sounding t n.
Proof.
  unfold sounding. rewrite andb_true_iff, Qleb_le, Qltb_lt. reflexivity.
Qed.

Lemma activeNotes_fold (t : Q) (notes : list NoteData.t) :
  forall (acc : gset Z) (pitch : Z),
    pitch ∈ fold_left
      (fun (active : gset Z) n =>
         if (t >=? NoteData.time n) && (t <? NoteData.time n + NoteData.duration n)
         then {[ NoteData.midi n ]} ∪ active else active) notes acc
    <-> pitch ∈ acc \/ exists n, n ∈ notes /\ NoteData.midi n = pitch /\ sounding t n.
Proof.
  induction notes as [|n rest IH]; intros acc pitch; simpl.
  - split; [auto|]. intros [H|(n & Hn & _)]; [exact H|]. inversion Hn.
  - rewrite IH. pose proof (sounding_test t n) as Ht.
    destruct (_ && _).
    + rewrite elem_of_union, elem_of_singleton. split.
      * intros [[->|H]|(m & Hm & Hp & Hs)]; [right|left|right].
        -- exists n. split; [left|]. split; [reflexivity|]. apply Ht. reflexivity.
        -- exact H.
        -- exists m. split; [right; exact Hm|]. split; assumption.
      * intros [H|(m & Hm & Hp & Hs)]; [left; right; exact H|].
        apply elem_of_cons in Hm as [->|Hm]; [left; left; symmetry; exact Hp|].
        right. exists m. split; [exact Hm|]. split; assumption.
    + split.
      * intros [H|(m & Hm & Hp & Hs)]; [left; exact H|].
        right. exists m. split; [right; exact Hm|]. split; assumption.
      * intros [H|(m & Hm & Hp & Hs)]; [left; exact H|].
        apply elem_of_cons in Hm as [->|Hm].
        -- apply Ht in Hs. discriminate.
        -- right. exists m. split; [exact Hm|]. split; assumption.
Qed.

Lemma activeNotes_elem (t : Q) (notes : list NoteData.t) (pitch : Z) :
  pitch ∈ activeNotes t notes
  <-> exists n, n ∈ notes /\ NoteData.midi n = pitch /\ sounding t n.
Proof.
  unfold activeNotes. rewrite activeNotes_fold. split; [|auto].
  intros [H|H]; [|exact H]. exfalso. exact (not_elem_of_empty _ H).
Qed.

Lemma activeNotes_single (t : Q) (n : NoteData.t) :
  NoteData.midi n ∈ activeNotes t [n] <-> sounding t n.
Proof.
  rewrite activeNotes_elem. split.
  - intros (m & Hm & _ & Hs). apply list_elem_of_singleton in Hm. subst. exact Hs.
  - intros Hs. exists n. split; [left|]. split; [reflexivity | exact Hs].
Qed.

(** C3: a pitch is in the active set exactly when some note of that pitch
    has [onset <= t < onset + duration]; for a single note of onset 2.0 and
    duration 0.5 the pitch is in the set for every [t] of [[2.0, 2.5)] and is
    not at [t = 2.5] nor at [t = 1.999]. *)
Theorem activeNotes_half_open (notes : list NoteData.t) (t : Q) :
  (forall pitch : Z,
     pitch ∈ activeNotes t notes <->
     exists n, n ∈ notes /\ NoteData.midi n = pitch
               /\ NoteData.time n <= t /\ t < NoteData.time n + NoteData.duration n)
  /\ (forall n : NoteData.t,
       (NoteData.midi n ∈ activeNotes t [n] <->
        NoteData.time n <= t /\ t < NoteData.time n + NoteData.duration n)
       /\ (NoteData.time n == 2.0 -> NoteData.duration n == 0.5 ->
           (2.0 <= t /\ t < 2.5 -> NoteData.midi n ∈ activeNotes t [n])
           /\ (t == 2.5 -> NoteData.midi n ∉ activeNotes t [n])
           /\ (t == 1.999 -> NoteData.midi n ∉ activeNotes t [n]))).
Proof.
  split; [intros pitch; apply activeNotes_elem|].
  intros n. split; [apply activeNotes_single|].
  intros Ho Hd. rewrite activeNotes_single. unfold sounding.
  repeat split; try lra; intros Ht [H1 H2]; lra.
Qed.

Lemma activeNotes_half_open_witness :
  60%Z ∈ activeNotes 2.25 [sampleNote 60 2.0 0.5]
  /\ (60%Z ∉ activeNotes 2.5 [sampleNote 60 2.0 0.5])
  /\ (60%Z ∉ activeNotes 1.999 [sampleNote 60 2.0 0.5]).
Proof.
  destruct (activeNotes_half_open [sampleNote 60 2.0 0.5] 2.25) as (_ & H1).
  destruct (activeNotes_half_open [sampleNote 60 2.0 0.5] 2.5) as (_ & H2).
  destruct (activeNotes_half_open [sampleNote 60 2.0 0.5] 1.999) as (_ & H3).
  split; [|split].
  - destruct (H1 (sampleNote 60 2.0 0.5)) as (_ & Hex).
    destruct Hex as (Hin & _ & _); [reflexivity..|]. apply Hin. split; [discriminate | reflexivity].
  - destruct (H2 (sampleNote 60 2.0 0.5)) as (_ & Hex).
    destruct Hex as (_ & Hout & _); [reflexivity..|]. apply Hout. reflexivity.
  - destruct (H3 (sampleNote 60 2.0 0.5)) as (_ & Hex).
    destruct Hex as (_ & _ & Hout); [reflexivity..|]. apply Hout. reflexivity.
Defined.

End Activation.

(** ** Effect pools: the capacity invariant *)

Section Spawning.

Context (js : JsEnv).

Lemma pushed_refl r : pushed 0 0 r r.
Proof. exists [], []. rewrite !app_nil_r. auto. Qed.

Lemma pushed_trans a b c d r1 r2 r3 :
  pushed a b r1 r2 -> pushed c d r2 r3 -> pushed (a + c) (b + d) r1 r3.
Proof.
  intros (ps & ss & H1 & H2 & H3 & H4) (ps' & ss' & H1' & H2' & H3' & H4').
  exists (ps ++ ps'), (ss ++ ss').
  rewrite H1', H3', H1, H3, <- !app_assoc, !length_app. repeat split; lia.
Qed.

Lemma forN_pushed (body : Eff unit) (a b : nat) :
  (forall r, pushed a b r (exec body r)) ->
  forall n r, pushed (n * a) (n * b) r (exec (forN n body) r).
Proof.
  intros Hbody. induction n as [|n IH]; intros r.
  - apply pushed_refl.
  - unfold exec in *. simpl. unfold bind. specialize (Hbody r).
    destruct (body r) as [[] r1]. simpl in Hbody.
    exact (pushed_trans _ _ _ _ _ _ _ Hbody (IH r1)).
Qed.

Lemma fall_newParticle_pushed x color r :
  pushed 1 0 r (exec (PianoScene.newParticle js x color) r).
Proof. eexists [_], []. simpl. rewrite app_nil_r. auto. Qed.

Lemma fall_newSparkle_pushed x y color r :
  pushed 0 1 r (exec (PianoScene.newSparkle js x y color) r).
Proof. eexists [], [_]. simpl. rewrite app_nil_r. auto. Qed.

Lemma recede_newParticle_pushed x color r :
  pushed 1 0 r (exec (SynthesiaScene.newParticle js x color) r).
Proof. eexists [_], []. simpl. rewrite app_nil_r. auto. Qed.

Lemma recede_newSparkle_pushed x z color r :
  pushed 0 1 r (exec (SynthesiaScene.newSparkle js x z color) r).
Proof. eexists [], [_]. simpl. rewrite app_nil_r. auto. Qed.

Lemma fall_spawnParticles_pushed x color r :
  pushed (Z.to_nat (Z.min 10 (500 - Z.of_nat (length (particlesRef r))))) 0
         r (exec (PianoScene.spawnParticles js x color) r).
Proof.
  unfold exec, PianoScene.spawnParticles, bind, particlesLength, PianoScene.maxParticles.
  destruct (500 - Z.of_nat (length (particlesRef r)) <=? 0)%Z eqn:E.
  - apply Z.leb_le in E. replace (Z.to_nat _) with O by lia. apply pushed_refl.
  - pose proof (forN_pushed (PianoScene.newParticle js x color) 1 0
                  (fall_newParticle_pushed x color)
                  (Z.to_nat (Z.min 10 (500 - Z.of_nat (length (particlesRef r))))) r) as H.
    rewrite Nat.mul_1_r, Nat.mul_0_r in H. exact H.
Qed.

Lemma recede_spawnParticles_pushed x color r :
  pushed (Z.to_nat (Z.min 10 (500 - Z.of_nat (length (particlesRef r))))) 0
         r (exec (SynthesiaScene.spawnParticles js x color) r).
Proof.
  unfold exec, SynthesiaScene.spawnParticles, bind, particlesLength, SynthesiaScene.maxParticles.
  destruct (500 - Z.of_nat (length (particlesRef r)) <=? 0)%Z eqn:E.
  - apply Z.leb_le in E. replace (Z.to_nat _) with O by lia. apply pushed_refl.
  - pose proof (forN_pushed (SynthesiaScene.newParticle js x color) 1 0
                  (recede_newParticle_pushed x color)
                  (Z.to_nat (Z.min 10 (500 - Z.of_nat (length (particlesRef r))))) r) as H.
    rewrite Nat.mul_1_r, Nat.mul_0_r in H. exact H.
Qed.

Lemma fall_spawnSparkles_pushed x y color r :
  pushed 0 (Z.to_nat (Z.min (3 + Qfloor (Math_random js (drawn r) * 3))
                            (500 - Z.of_nat (length (sparklesRef r)))))
         r (exec (PianoScene.spawnSparkles js x y color) r).
Proof.
  unfold exec, PianoScene.spawnSparkles, bind, sparklesLength, PianoScene.maxSparkles.
  destruct (500 - Z.of_nat (length (sparklesRef r)) <=? 0)%Z eqn:E.
  - apply Z.leb_le in E. replace (Z.to_nat _) with O by lia. apply pushed_refl.
  - cbn [random fst snd].
    set (n := Z.to_nat _).
    pose proof (forN_pushed (PianoScene.newSparkle js x y color) 0 1
                  (fall_newSparkle_pushed x y color) n
                  {| particlesRef := particlesRef r; sparklesRef := sparklesRef r;
                     drawn := S (drawn r) |}) as H.
    rewrite Nat.mul_1_r, Nat.mul_0_r in H. exact H.
Qed.

Lemma recede_spawnSparkles_pushed x z color r :
  pushed 0 (Z.to_nat (Z.min 2 (500 - Z.of_nat (length (sparklesRef r)))))
         r (exec (SynthesiaScene.spawnSparkles js x z color) r).
Proof.
  unfold exec, SynthesiaScene.spawnSparkles, bind, sparklesLength, SynthesiaScene.maxSparkles.
  destruct (500 - Z.of_nat (length (sparklesRef r)) <=? 0)%Z eqn:E.
  - apply Z.leb_le in E. replace (Z.to_nat _) with O by lia. apply pushed_refl.
  - pose proof (forN_pushed (SynthesiaScene.newSparkle js x z color) 0 1
                  (recede_newSparkle_pushed x z color)
                  (Z.to_nat (Z.min 2 (500 - Z.of_nat (length (sparklesRef r))))) r) as H.
    rewrite Nat.mul_1_r, Nat.mul_0_r in H. exact H.
Qed.

(** A request pushes into its own pool only, and no more than the free
    slots. *)
Lemma spawn_pushed (call : SpawnCall) (r : Refs) :
  exists np ns, pushed np ns r (exec (spawn js call) r)
    /\ (np <= capacity - length (particlesRef r))%nat
    /\ (ns <= capacity - length (sparklesRef r))%nat
    /\ (np + ns <= capacity - currentCount call r)%nat.
Proof.
  unfold capacity.
  destruct call as [x c|x y c|x c|x z c]; simpl.
  - eexists _, 0%nat. split; [apply fall_spawnParticles_pushed|]. lia.
  - eexists 0%nat, _. split; [apply fall_spawnSparkles_pushed|]. lia.
  - eexists _, 0%nat. split; [apply recede_spawnParticles_pushed|]. lia.
  - eexists 0%nat, _. split; [apply recede_spawnSparkles_pushed|]. lia.
Qed.

(** At capacity the request changes nothing at all. *)
Lemma spawn_full (call : SpawnCall) (r : Refs) :
  (capacity <= currentCount call r)%nat -> spawn js call r = (tt, r).
Proof.
  unfold capacity.
  destruct call as [x c|x y c|x c|x z c]; simpl; intros H;
    unfold PianoScene.spawnParticles, PianoScene.spawnSparkles,
      SynthesiaScene.spawnParticles, SynthesiaScene.spawnSparkles,
      bind, particlesLength, sparklesLength,
      PianoScene.maxParticles, PianoScene.maxSparkles,
      SynthesiaScene.maxParticles, SynthesiaScene.maxSparkles;
    match goal with |- context [(?a <=? 0)%Z] =>
      replace (a <=? 0)%Z with true by (symmetry; apply Z.leb_le; lia) end;
    reflexivity.
Qed.

Lemma spawn_withinCapacity (call : SpawnCall) (r : Refs) :
  withinCapacity r -> withinCapacity (exec (spawn js call) r).
Proof.
  intros [Hp Hs].
  destruct (spawn_pushed call r) as (np & ns & (ps & ss & H1 & H2 & H3 & H4) & Hnp & Hns & _).
  split; [rewrite H1 | rewrite H3]; rewrite length_app; lia.
Qed.

Lemma spawnAll_withinCapacity (calls : list SpawnCall) :
  forall r, withinCapacity r -> withinCapacity (spawnAll js calls r).
Proof.
  induction calls as [|call rest IH]; intros r H; [exact H|].
  apply IH, spawn_withinCapacity, H.
Qed.

(** C4: from pools within their capacity of 500, any sequence of spawn
    requests leaves both pools within it; one request only appends, and no
    more than [capacity - currentCount] members; a request ten or fewer slots
    from the top fills the particle pool exactly; and a request that finds
    its pool at capacity returns with the refs untouched. *)
Theorem spawn_pool_capacity (calls : list SpawnCall) (r : Refs)
    (Hinv : withinCapacity r) :
  capacity = 500%nat
  /\ (length (particlesRef (spawnAll js calls r)) <= capacity)%nat
  /\ (length (sparklesRef (spawnAll js calls r)) <= capacity)%nat
  /\ (forall (x : Q) (color : string),
        (capacity - 10 <= length (particlesRef r))%nat ->
        length (particlesRef (exec (PianoScene.spawnParticles js x color) r))
        = capacity)
  /\ (forall call : SpawnCall,
        exists newParticles newSparkles,
          particlesRef (exec (spawn js call) r) = particlesRef r ++ newParticles
          /\ sparklesRef (exec (spawn js call) r) = sparklesRef r ++ newSparkles
          /\ (length newParticles + length newSparkles
              <= capacity - currentCount call r)%nat)
  /\ (forall call : SpawnCall,
        currentCount call r = capacity -> spawn js call r = (tt, r)).
Proof.
  split; [reflexivity|].
  destruct (spawnAll_withinCapacity calls r Hinv) as [Hp Hs].
  split; [exact Hp|]. split; [exact Hs|]. split; [|split].
  - intros x color Hfull. destruct Hinv as [Hip _]. unfold capacity in *.
    destruct (fall_spawnParticles_pushed x color r) as (ps & ss & H1 & H2 & _).
    rewrite H1, length_app, H2. lia.
  - intros call.
    destruct (spawn_pushed call r) as (np & ns & (ps & ss & H1 & H2 & H3 & H4) & _ & _ & Hn).
    exists ps, ss. rewrite H2, H4. auto.
  - intros call H. apply spawn_full. lia.
Qed.

End Spawning.

Lemma emptyRefs_withinCapacity : withinCapacity emptyRefs.
Proof. split; apply Nat.le_0_l. Qed.

Lemma spawn_pool_capacity_witness :
  (length (particlesRef
     (spawnAll sampleJs
        [FallParticles 0 COLORS.cyan; FallSparkles 0 10 COLORS.cyan;
         RecedeParticles 1 COLORS.magenta; RecedeSparkles 1 (-10) COLORS.magenta]
        emptyRefs)) <= capacity)%nat.
Proof.
  exact (proj1 (proj2 (spawn_pool_capacity sampleJs _ emptyRefs
                         emptyRefs_withinCapacity))).
Defined.

(** ** Effect pools: the integration step *)

Section Advance.

Local Open Scope Q_scope.

Variable dt : Q.

Lemma particle_advance_shape (particles : list Particle.t) :
  (length particles <= Z.to_nat ParticleSystem.COUNT)%nat ->
  let '(kept, instances, activeCount) := ParticleSystem.advance dt particles in
  activeCount = Z.of_nat (length kept)
  /\ (length kept <= length particles)%nat
  /\ Forall2 (particleAdvanced dt)
             (List.filter (fun p => negb (particleFades dt p)) particles) kept
  /\ Forall2 particleDrawn (rev kept) instances.
Proof.
  unfold ParticleSystem.advance, ParticleSystem.COUNT.
  induction particles as [|p rest IH]; intros Hlen.
  - simpl. repeat split; constructor.
  - simpl in Hlen. simpl foldr. simpl List.filter.
    destruct (foldr (ParticleSystem.step dt) ([], [], 0%Z) rest) as [[kept instances] activeCount].
    assert (Hrest : (length rest <= Z.to_nat 1000)%nat). { clear - Hlen. lia. }
    specialize (IH Hrest). destruct IH as (Hc & Hk & Hadv & Hdrawn).
    unfold ParticleSystem.step, particleFades.
    destruct (Particle.life p - dt * 1.2 <=? 0) eqn:Elife; simpl negb; cbv iota.
    + repeat split; try assumption. simpl; lia.
    + replace (activeCount >=? ParticleSystem.COUNT)%Z with false.
      2:{ symmetry. rewrite Z.geb_leb. apply Z.leb_gt. unfold ParticleSystem.COUNT. lia. }
      split; [simpl; lia|]. split; [simpl; lia|]. split.
      * constructor; [|exact Hadv].
        unfold particleAdvanced, accelerated, moved. simpl. repeat split; reflexivity.
      * simpl rev. apply Forall2_app; [exact Hdrawn|].
        constructor; [|constructor]. unfold particleDrawn. simpl. repeat split; reflexivity.
Qed.

Lemma sparkle_advance_shape (sparkles : list Sparkle.t) :
  (length sparkles <= Z.to_nat SparkleSystem.COUNT)%nat ->
  let '(kept, instances, activeCount) := SparkleSystem.advance dt sparkles in
  activeCount = Z.of_nat (length kept)
  /\ (length kept <= length sparkles)%nat
  /\ Forall2 (sparkleAdvanced dt)
             (List.filter (fun s => negb (sparkleFades dt s)) sparkles) kept
  /\ Forall2 sparkleDrawn (rev kept) instances.
Proof.
  unfold SparkleSystem.advance, SparkleSystem.COUNT.
  induction sparkles as [|s rest IH]; intros Hlen.
  - simpl. repeat split; constructor.
  - simpl in Hlen. simpl foldr. simpl List.filter.
    destruct (foldr (SparkleSystem.step dt) ([], [], 0%Z) rest) as [[kept instances] activeCount].
    assert (Hrest : (length rest <= Z.to_nat 500)%nat) by (clear - Hlen; lia).
    specialize (IH Hrest). destruct IH as (Hc & Hk & Hadv & Hdrawn).
    unfold SparkleSystem.step, sparkleFades.
    destruct (Sparkle.life s - dt * 1.5 <=? 0) eqn:Elife; simpl negb; cbv iota.
    + repeat split; try assumption. simpl; lia.
    + replace (activeCount >=? SparkleSystem.COUNT)%Z with false.
      2:{ symmetry. rewrite Z.geb_leb. apply Z.leb_gt. unfold SparkleSystem.COUNT. lia. }
      split; [simpl; lia|]. split; [simpl; lia|]. split.
      * constructor; [|exact Hadv].
        unfold sparkleAdvanced, accelerated, moved. simpl. repeat split; reflexivity.
      * simpl rev. apply Forall2_app; [exact Hdrawn|].
        constructor; [|constructor]. unfold sparkleDrawn. simpl. repeat split; reflexivity.
Qed.

Lemma withinCapacity_COUNT (r : Refs) : withinCapacity r ->
  (length (particlesRef r) <= Z.to_nat ParticleSystem.COUNT)%nat
  /\ (length (sparklesRef r) <= Z.to_nat SparkleSystem.COUNT)%nat.
Proof.
  unfold withinCapacity, capacity, ParticleSystem.COUNT, SparkleSystem.COUNT. lia.
Qed.

(** A frame never grows a pool, so the bound kept by the spawn functions
    holds along any interleaving of requests and frames. *)
Lemma useFrame_withinCapacity (mounted : bool) (r : Refs) :
  withinCapacity r ->
  withinCapacity (exec (ParticleSystem.useFrame mounted dt) r)
  /\ withinCapacity (exec (SparkleSystem.useFrame mounted dt) r).
Proof.
  intros Hinv. destruct (withinCapacity_COUNT r Hinv) as [Hp Hs].
  destruct Hinv as [Hip His].
  pose proof (particle_advance_shape (particlesRef r) Hp) as HP.
  pose proof (sparkle_advance_shape (sparklesRef r) Hs) as HS.
  unfold exec, ParticleSystem.useFrame, SparkleSystem.useFrame, withinCapacity.
  destruct mounted; simpl; [|auto].
  destruct (ParticleSystem.advance dt (particlesRef r)) as [[kp ip] cp].
  destruct (SparkleSystem.advance dt (sparklesRef r)) as [[ks is'] cs].
  destruct HP as (_ & HP & _). destruct HS as (_ & HS & _).
  simpl. repeat split; lia.
Qed.

(** C9: on pools within their capacity, a frame of step [dt] removes a
    particle exactly when [life - dt * 1.2 <= 0] (a sparkle when
    [life - dt * 1.5 <= 0]); every other member stays, in order, with its life
    decremented by that amount, its vertical velocity lowered by [20 * dt]
    ([5 * dt] for a sparkle), its position moved by the new velocity times
    [dt], and for a sparkle its rotation advanced by [rotationSpeed * dt];
    each is drawn with scale [size * (life / maxLife)]. *)
Theorem pools_advance (r : Refs) (Hinv : withinCapacity r) :
  (forall p, particleFades dt p = true <-> Particle.life p - dt * 1.2 <= 0)
  /\ (forall s, sparkleFades dt s = true <-> Sparkle.life s - dt * 1.5 <= 0)
  /\ (exists instances r',
        ParticleSystem.useFrame true dt r
        = (Some (instances, Z.of_nat (length (particlesRef r'))), r')
        /\ Forall2 (particleAdvanced dt)
             (List.filter (fun p => negb (particleFades dt p)) (particlesRef r))
             (particlesRef r')
        /\ Forall2 particleDrawn (rev (particlesRef r')) instances
        /\ sparklesRef r' = sparklesRef r)
  /\ (exists instances r',
        SparkleSystem.useFrame true dt r
        = (Some (instances, Z.of_nat (length (sparklesRef r'))), r')
        /\ Forall2 (sparkleAdvanced dt)
             (List.filter (fun s => negb (sparkleFades dt s)) (sparklesRef r))
             (sparklesRef r')
        /\ Forall2 sparkleDrawn (rev (sparklesRef r')) instances
        /\ particlesRef r' = particlesRef r).
Proof.
  destruct (withinCapacity_COUNT r Hinv) as [Hp Hs].
  split; [intros p; apply Qleb_le|]. split; [intros s; apply Qleb_le|]. split.
  - pose proof (particle_advance_shape (particlesRef r) Hp) as H.
    unfold ParticleSystem.useFrame. simpl negb. cbv iota.
    destruct (ParticleSystem.advance dt (particlesRef r)) as [[kept instances] activeCount].
    destruct H as (Hc & _ & Hadv & Hdrawn).
    exists instances, {| particlesRef := kept; sparklesRef := sparklesRef r; drawn := drawn r |}.
    split; [rewrite Hc; reflexivity|]. simpl. auto.
  - pose proof (sparkle_advance_shape (sparklesRef r) Hs) as H.
    unfold SparkleSystem.useFrame. simpl negb. cbv iota.
    destruct (SparkleSystem.advance dt (sparklesRef r)) as [[kept instances] activeCount].
    destruct H as (Hc & _ & Hadv & Hdrawn).
    exists instances, {| particlesRef := particlesRef r; sparklesRef := kept; drawn := drawn r |}.
    split; [rewrite Hc; reflexivity|]. simpl. auto.
Qed.

End Advance.

(** Every state of the refs a scene can get into is within capacity. *)
Lemma reachable_withinCapacity (js : JsEnv) (r : Refs) :
  Reachable js r -> withinCapacity r.
Proof.
  induction 1 as [|r r' Hr IH Hstep].
  - apply emptyRefs_withinCapacity.
  - destruct Hstep as [call r|mounted delta r|mounted delta r].
    + apply spawn_withinCapacity, IH.
    + apply (useFrame_withinCapacity delta mounted r IH).
    + apply (useFrame_withinCapacity delta mounted r IH).
Qed.

Lemma pools_advance_witness :
  exists instances r',
    ParticleSystem.useFrame true 0.5
      {| particlesRef := [sampleParticle 1.0; sampleParticle 0.5];
         sparklesRef := [sampleSparkle 1.0]; drawn := 0 |}
    = (Some (instances, Z.of_nat (length (particlesRef r'))), r')
    /\ length (particlesRef r') = 1%nat.
Proof.
  destruct (pools_advance 0.5
              {| particlesRef := [sampleParticle 1.0; sampleParticle 0.5];
                 sparklesRef := [sampleSparkle 1.0]; drawn := 0 |})
    as (_ & _ & (instances & r' & Hrun & Hadv & _) & _).
  - unfold withinCapacity, capacity. simpl. lia.
  - exists instances, r'. split; [exact Hrun|].
    apply Forall2_length in Hadv. rewrite <- Hadv. reflexivity.
Defined.

(** Outside the pool bound the frame drops members that are still alive:
    of 501 fresh sparkles only [COUNT] are kept. *)
Lemma sparkle_frame_beyond_COUNT :
  let '(kept, _, activeCount) :=
    SparkleSystem.advance 0 (repeat (sampleSparkle 1.0) 501) in
  length kept = 500%nat /\ activeCount = 500%Z.
Proof. vm_compute. split; reflexivity. Qed.

(** ** Ingestion *)

Section Ingestion.

Context (js : JsEnv).

Lemma insertByTime_perm (a : NoteData.t) (l : list NoteData.t) :
  insertByTime a l ≡ₚ a :: l.
Proof.
  induction l as [|b l IH]; simpl; [reflexivity|].
  destruct (_ <? _)%Q; [|reflexivity].
  rewrite IH. apply perm_swap.
Qed.

Lemma sortByTime_perm (l : list NoteData.t) : sortByTime l ≡ₚ l.
Proof.
  induction l as [|a l IH]; simpl; [reflexivity|].
  rewrite insertByTime_perm, IH. reflexivity.
Qed.

Lemma insertByTime_sorted (a : NoteData.t) (l : list NoteData.t) :
  Sorted byTime l -> Sorted byTime (insertByTime a l).
Proof.
  induction l as [|b l IH]; intros Hs; simpl.
  - repeat constructor.
  - inversion Hs as [|? ? Hs' Hhd]; subst.
    destruct (NoteData.time b <? NoteData.time a)%Q eqn:E.
    + constructor; [auto|].
      apply Qltb_lt in E.
      destruct l as [|c l]; simpl.
      * constructor. unfold byTime. lra.
      * destruct (NoteData.time c <? NoteData.time a)%Q; constructor.
        -- inversion Hhd; assumption.
        -- unfold byTime. lra.
    + apply Qltb_ge in E. constructor; [exact Hs|]. constructor. exact E.
Qed.

Lemma sortByTime_sorted (l : list NoteData.t) : Sorted byTime (sortByTime l).
Proof.
  induction l as [|a l IH]; simpl; [constructor|].
  apply insertByTime_sorted, IH.
Qed.

Lemma deriveNote_Some handFilter trackIndex i n d :
  deriveNote js handFilter trackIndex i n = Some d ->
  derivedFrom n d /\ passes handFilter n = true.
Proof.
  unfold deriveNote, passes, derivedFrom.
  destruct handFilter, (MidiNote.midi n <? 60)%Z; simpl; intros [= <-]; simpl; auto 10.
Qed.

Lemma deriveNote_passes handFilter trackIndex i n :
  passes handFilter n = true ->
  exists d, deriveNote js handFilter trackIndex i n = Some d.
Proof.
  unfold deriveNote, passes.
  destruct handFilter, (MidiNote.midi n <? 60)%Z; simpl; intros H;
    try discriminate; eauto.
Qed.

Lemma deriveTrack_elem handFilter trackIndex (track : Track) :
  forall i d,
    d ∈ deriveTrack js handFilter trackIndex i track <->
    exists k n, track !! k = Some n
                /\ deriveNote js handFilter trackIndex (i + k) n = Some d.
Proof.
  induction track as [|n rest IH]; intros i d; simpl.
  - split; [intros H; inversion H|]. intros (k & m & Hk & _). destruct k; discriminate.
  - assert (Hrest : d ∈ deriveTrack js handFilter trackIndex (S i) rest <->
              exists k m, (n :: rest) !! S k = Some m
                /\ deriveNote js handFilter trackIndex (i + S k) m = Some d).
    { rewrite IH. split; intros (k & m & Hk & Hd); exists k, m; split; try exact Hk.
      - replace (i + S k)%nat with (S i + k)%nat by lia. exact Hd.
      - replace (S i + k)%nat with (i + S k)%nat by lia. exact Hd. }
    destruct (deriveNote js handFilter trackIndex i n) as [d0|] eqn:E.
    + rewrite elem_of_cons, Hrest. split.
      * intros [->|(k & m & Hk & Hd)].
        -- exists 0%nat, n. rewrite Nat.add_0_r. auto.
        -- exists (S k), m. auto.
      * intros (k & m & Hk & Hd). destruct k as [|k].
        -- left. simpl in Hk. injection Hk as <-. rewrite Nat.add_0_r in Hd. congruence.
        -- right. exists k, m. auto.
    + rewrite Hrest. split.
      * intros (k & m & Hk & Hd). exists (S k), m. auto.
      * intros (k & m & Hk & Hd). destruct k as [|k].
        -- simpl in Hk. injection Hk as <-. rewrite Nat.add_0_r in Hd. congruence.
        -- exists k, m. auto.
Qed.

Lemma deriveTracks_elem handFilter (tracks : Midi) :
  forall trackIndex d,
    d ∈ deriveTracks js handFilter trackIndex tracks <->
    exists t track k n, tracks !! t = Some track /\ track !! k = Some n
      /\ deriveNote js handFilter (trackIndex + t) k n = Some d.
Proof.
  induction tracks as [|track rest IH]; intros trackIndex d; simpl.
  - split; [intros H; inversion H|]. intros (t & ? & ? & ? & Ht & _). destruct t; discriminate.
  - rewrite elem_of_app, deriveTrack_elem, IH. split.
    + intros [(k & n & Hk & Hd)|(t & tr & k & n & Ht & Hk & Hd)].
      * exists 0%nat, track, k, n. rewrite Nat.add_0_r. auto.
      * exists (S t), tr, k, n. replace (trackIndex + S t)%nat with (S trackIndex + t)%nat by lia. auto.
    + intros (t & tr & k & n & Ht & Hk & Hd). destruct t as [|t].
      * left. simpl in Ht. injection Ht as <-. rewrite Nat.add_0_r in Hd. exists k, n. auto.
      * right. exists t, tr, k, n. replace (S trackIndex + t)%nat with (trackIndex + S t)%nat by lia. auto.
Qed.

Lemma notes_elem (midiData : Midi) handFilter d :
  d ∈ notes js (Some midiData) handFilter <->
  exists t track k n, midiData !! t = Some track /\ track !! k = Some n
    /\ deriveNote js handFilter t k n = Some d.
Proof.
  unfold notes. rewrite sortByTime_perm. apply deriveTracks_elem.
Qed.

Lemma notes_from_event (midiData : Midi) handFilter d :
  d ∈ notes js (Some midiData) handFilter ->
  exists track n, track ∈ midiData /\ n ∈ track
    /\ passes handFilter n = true /\ derivedFrom n d.
Proof.
  rewrite notes_elem. intros (t & track & k & n & Ht & Hk & Hd).
  apply deriveNote_Some in Hd as [Hfrom Hpass].
  exists track, n. split; [eapply list_elem_of_lookup_2; eassumption|].
  split; [eapply list_elem_of_lookup_2; eassumption|]. auto.
Qed.

Lemma event_to_notes (midiData : Midi) handFilter track n :
  track ∈ midiData -> n ∈ track -> passes handFilter n = true ->
  exists d, d ∈ notes js (Some midiData) handFilter /\ derivedFrom n d.
Proof.
  intros Ht Hn Hp.
  apply list_elem_of_lookup_1 in Ht as [t Ht]. apply list_elem_of_lookup_1 in Hn as [k Hk].
  destruct (deriveNote_passes handFilter t k n Hp) as [d Hd].
  exists d. split.
  - apply notes_elem. exists t, track, k, n. auto.
  - apply (deriveNote_Some _ _ _ _ _ Hd).
Qed.

Lemma fall_height_min (t : Q) (note : NoteData.t) (box : Box.t) :
  FallingNotes.renderNote t note = Some box -> (0.1 <= Vector3.y (Box.args box))%Q.
Proof.
  unfold FallingNotes.renderNote. cbv zeta. destruct (_ || _); [discriminate|].
  intros [= <-]. simpl. apply Q.le_max_l.
Qed.

(** C7, as the code has it: the batch transform copies the duration of every
    event that passes the hand filter into the note list unchanged, rejecting
    and clamping nothing; so the derived durations are all positive exactly
    when those source durations are.  The layout bounds what it draws
    instead: a fall-view box is at least 0.1 high and a recede-view box at
    least 0.1 deep before clipping. *)
Theorem ingestion_copies_duration (midiData : Midi) (handFilter : HandFilter.t) :
  (forall d, d ∈ notes js (Some midiData) handFilter ->
     exists track n, track ∈ midiData /\ n ∈ track /\ passes handFilter n = true
       /\ NoteData.duration d = MidiNote.duration n)
  /\ (forall track n, track ∈ midiData -> n ∈ track -> passes handFilter n = true ->
     exists d, d ∈ notes js (Some midiData) handFilter
       /\ NoteData.duration d = MidiNote.duration n)
  /\ ((forall track n, track ∈ midiData -> n ∈ track -> passes handFilter n = true ->
         (0 < MidiNote.duration n)%Q)
      <-> (forall d, d ∈ notes js (Some midiData) handFilter ->
         (0 < NoteData.duration d)%Q))
  /\ (forall (t : Q) (note : NoteData.t) (box : Box.t),
       FallingNotes.renderNote t note = Some box ->
       (0.1 <= Vector3.y (Box.args box))%Q)
  /\ (forall note : NoteData.t, (0.1 <= SynthesiaFallingNotes.fullDepth note)%Q).
Proof.
  split; [|split; [|split; [|split]]].
  - intros d Hd. destruct (notes_from_event _ _ _ Hd) as (track & n & Ht & Hn & Hp & Hf).
    exists track, n. repeat split; try assumption. apply Hf.
  - intros track n Ht Hn Hp.
    destruct (event_to_notes _ _ _ _ Ht Hn Hp) as (d & Hd & Hf).
    exists d. split; [exact Hd | apply Hf].
  - split.
    + intros Hsrc d Hd.
      destruct (notes_from_event _ _ _ Hd) as (track & n & Ht & Hn & Hp & Hf).
      destruct Hf as (_ & _ & -> & _). eauto.
    + intros Hder track n Ht Hn Hp.
      destruct (event_to_notes _ _ _ _ Ht Hn Hp) as (d & Hd & Hf).
      destruct Hf as (_ & _ & <- & _). eauto.
  - apply fall_height_min.
  - apply fullDepth_min.
Qed.


End Ingestion.

(** C7 as stated fails: an event of duration 0 enters the note list with
    duration 0. *)
Lemma ingestion_duration_counterexample :
  ~ (forall (js : JsEnv) (midiData : Midi) (handFilter : HandFilter.t)
            (d : NoteData.t),
       d ∈ notes js (Some midiData) handFilter -> (0 < NoteData.duration d)%Q).
Proof.
  intros H.
  destruct (event_to_notes sampleJs [[MidiNote.mk 60 0 0 0.8]] HandFilter.both
              [MidiNote.mk 60 0 0 0.8] (MidiNote.mk 60 0 0 0.8))
    as (d & Hd & Hf); [left | left | reflexivity |].
  specialize (H _ _ _ _ Hd). destruct Hf as (_ & _ & Hdur & _).
  rewrite Hdur in H. vm_compute in H. discriminate.
Qed.

Lemma ingestion_copies_duration_witness :
  exists d, d ∈ notes sampleJs (Some [[MidiNote.mk 60 0 0.5 0.8]]) HandFilter.both
            /\ NoteData.duration d = 0.5%Q.
Proof.
  destruct (ingestion_copies_duration sampleJs [[MidiNote.mk 60 0 0.5 0.8]]
              HandFilter.both) as (_ & Hfwd & _).
  apply (Hfwd [MidiNote.mk 60 0 0.5 0.8] (MidiNote.mk 60 0 0.5 0.8)).
  - left.
  - left.
  - reflexivity.
Defined.


(** ** Re-derivation from the clock alone *)

Section Purity.

Local Open Scope Q_scope.

Lemma Qleb_same (a a' b b' : Q) : a == a' -> b == b' -> (a <=? b) = (a' <=? b').
Proof. intros Ha Hb. unfold Qleb. rewrite Ha, Hb. reflexivity. Qed.













(** The refs, by contrast, do depend on [lastSpawnedNotes]: a note coming
    into view gets its sparkles once. *)
Lemma useFrame_reads_lastSpawnedNotes :
  length (sparklesRef (exec (FallingNotes.useFrame [sampleNote 60 1.0 1.0] 0
                               (PianoScene.spawnSparkles sampleJs) ∅) emptyRefs))
  = 3%nat
  /\ length (sparklesRef (exec (FallingNotes.useFrame [sampleNote 60 1.0 1.0] 0
                               (PianoScene.spawnSparkles sampleJs) {[ "0-0"%string ]}) emptyRefs))
  = 0%nat.
Proof. split; vm_compute; reflexivity. Qed.

End Purity.

(** ** Replays on binary64 floats *)

Module Float64Facts.

Set Warnings "-inexact-float".

(** The visibility boundary on doubles: onset 5.0, duration 1.0. *)
Lemma fall_visibility_boundary :
  Float64.fallOutOfView 5.0 1.0 3.5 = false
  /\ Float64.fallOutOfView 5.0 1.0 3.3 = true
  /\ Float64.fallOutOfView 5.0 1.0 6.6 = true.
Proof. repeat split; vm_compute; reflexivity. Qed.

(** The activation boundary on doubles: onset 2.0, duration 0.5. *)
Lemma activation_boundary :
  Float64.isActive 2.0 0.5 2.0 = true
  /\ Float64.isActive 2.0 0.5 2.4999 = true
  /\ Float64.isActive 2.0 0.5 2.5 = false
  /\ Float64.isActive 2.0 0.5 1.999 = false.
Proof. repeat split; vm_compute; reflexivity. Qed.

(** The two views disagree on doubles as well. *)
Lemma views_differ :
  Float64.fallOutOfView 0 1.0 1.2 = false
  /\ Float64.recedeOutOfView 0 1.0 1.2 = true.
Proof. repeat split; vm_compute; reflexivity. Qed.

End Float64Facts.

(* ===================================================================== *)
(** * Further properties of the code *)
(* ===================================================================== *)

(** ** Lane geometry *)

Section LaneGeometry.

(** The pitch classes next to a sharp are not sharps. *)
Lemma sharp_neighbours (p : Z) : 21 <= p ->
  includes sharps (Z.rem p 12) = true ->
  includes sharps (Z.rem (p - 1) 12) = false
  /\ includes sharps (Z.rem (p + 1) 12) = false.
Proof.
  intros Hp. rewrite !Z.rem_mod_nonneg by lia.
  replace ((p - 1) mod 12) with ((p mod 12 + 11) mod 12)
    by (rewrite Zplus_mod_idemp_l; replace (p + 11) with (p - 1 + 1 * 12) by lia;
        apply Z_mod_plus_full).
  replace ((p + 1) mod 12) with ((p mod 12 + 1) mod 12)
    by (rewrite Zplus_mod_idemp_l; reflexivity).
  pose proof (Z.mod_pos_bound p 12 ltac:(lia)) as Hb.
  assert (Hc : p mod 12 = 0 \/ p mod 12 = 1 \/ p mod 12 = 2 \/ p mod 12 = 3
               \/ p mod 12 = 4 \/ p mod 12 = 5 \/ p mod 12 = 6 \/ p mod 12 = 7
               \/ p mod 12 = 8 \/ p mod 12 = 9 \/ p mod 12 = 10 \/ p mod 12 = 11) by lia.
  repeat (destruct Hc as [Hc|Hc]; [rewrite Hc; vm_compute; intuition discriminate|]).
  rewrite Hc; vm_compute; intuition discriminate.
Qed.

Lemma whiteKeyCount_after_white (p : Z) : 21 <= p ->
  Lane.isBlack (getNoteX p) = false -> whiteKeyCount (p + 1) = whiteKeyCount p + 1.
Proof.
  intros Hp Hw. rewrite whiteKeyCount_succ by lia.
  rewrite getNoteX_isBlack in Hw. unfold whiteStep. rewrite Hw. reflexivity.
Qed.

Lemma whiteKeyCount_after_black (p : Z) : 21 <= p ->
  Lane.isBlack (getNoteX p) = true -> whiteKeyCount (p + 1) = whiteKeyCount p.
Proof.
  intros Hp Hw. rewrite whiteKeyCount_succ by lia.
  rewrite getNoteX_isBlack in Hw. unfold whiteStep. rewrite Hw. simpl. lia.
Qed.

(** X1: a black key from pitch 21 up has a white key on either side;
    its lane centre is the centre of the white key above it, one white-key
    width to the right of the centre of the white key below it. *)
Theorem black_key_over_next_white (pitch : Z) (Hrange : 21 <= pitch)
    (Hblack : Lane.isBlack (getNoteX pitch) = true) :
  Lane.isBlack (getNoteX (pitch - 1)) = false
  /\ Lane.isBlack (getNoteX (pitch + 1)) = false
  /\ (Lane.x (getNoteX pitch) == Lane.x (getNoteX (pitch + 1)))%Q
  /\ (Lane.x (getNoteX pitch) == Lane.x (getNoteX (pitch - 1)) + WHITE_KEY_WIDTH)%Q.
Proof.
  pose proof Hblack as Hs. rewrite getNoteX_isBlack in Hs.
  destruct (sharp_neighbours pitch Hrange Hs) as [Hprev Hnext].
  assert (pitch <> 21) as Hne by (intros ->; vm_compute in Hs; discriminate).
  assert (Hwp : Lane.isBlack (getNoteX (pitch - 1)) = false)
    by (rewrite getNoteX_isBlack; exact Hprev).
  assert (Hwn : Lane.isBlack (getNoteX (pitch + 1)) = false)
    by (rewrite getNoteX_isBlack; exact Hnext).
  split; [exact Hwp|]. split; [exact Hwn|].
  destruct (getNoteX_black pitch Hblack) as [Hx _].
  rewrite Hx, (getNoteX_x_white _ Hwn), (getNoteX_x_white _ Hwp).
  rewrite (whiteKeyCount_after_black pitch Hrange Hblack).
  pose proof (whiteKeyCount_after_white (pitch - 1) ltac:(lia) Hwp) as Hc.
  replace (pitch - 1 + 1) with pitch in Hc by lia. rewrite Hc, inject_Z_plus.
  split; unfold WHITE_KEY_WIDTH, KEYBOARD_WIDTH; field.
Qed.

Lemma black_key_over_next_white_witness :
  (Lane.x (getNoteX 61) == Lane.x (getNoteX 62))%Q.
Proof.
  apply (black_key_over_next_white 61); [lia | reflexivity].
Defined.

Lemma whiteKeyCount_nonneg (p : Z) : 0 <= whiteKeyCount p.
Proof.
  destruct (Z_le_gt_dec p 21) as [H|H].
  - rewrite whiteKeyCount_below by lia. lia.
  - change 0 with (whiteKeyCount 21). apply whiteKeyCount_mono. lia.
Qed.

(** X2: every key of pitches 21 to 108 lies inside the keyboard
    width [[-30, 30]], a white key with its whole slot of one white-key
    width; the slot of key 21 starts at -30 and the slot of key 108 ends
    at 30. *)
Theorem keyboard_spans_its_width (pitch : Z) (Hrange : 21 <= pitch <= 108) :
  let lane := getNoteX pitch in
  (- KEYBOARD_WIDTH / 2 <= Lane.x lane - Lane.width lane / 2)%Q
  /\ (Lane.x lane + Lane.width lane / 2 <= KEYBOARD_WIDTH / 2)%Q
  /\ (Lane.isBlack lane = false ->
      (- KEYBOARD_WIDTH / 2 <= Lane.x lane - WHITE_KEY_WIDTH / 2)%Q
      /\ (Lane.x lane + WHITE_KEY_WIDTH / 2 <= KEYBOARD_WIDTH / 2)%Q)
  /\ (Lane.x (getNoteX 21) - WHITE_KEY_WIDTH / 2 == - KEYBOARD_WIDTH / 2)%Q
  /\ (Lane.x (getNoteX 108) + WHITE_KEY_WIDTH / 2 == KEYBOARD_WIDTH / 2)%Q.
Proof.
  intros lane. subst lane.
  pose proof (whiteKeyCount_nonneg pitch) as Hlo.
  assert (Hhi : whiteKeyCount pitch <= 51)
    by (change 51 with (whiteKeyCount 108); apply whiteKeyCount_mono; lia).
  assert (HloQ : (0 <= inject_Z (whiteKeyCount pitch))%Q)
    by (change 0%Q with (inject_Z 0); rewrite <- Zle_Qle; exact Hlo).
  assert (HhiQ : (inject_Z (whiteKeyCount pitch) <= 51)%Q)
    by (change 51%Q with (inject_Z 51); rewrite <- Zle_Qle; exact Hhi).
  assert (Hcases :
    forall c : Q, (0 <= c <= 51)%Q ->
      (- KEYBOARD_WIDTH / 2 <= (- KEYBOARD_WIDTH / 2 + (c + 0.5) * WHITE_KEY_WIDTH) - BLACK_KEY_WIDTH / 2
       /\ (- KEYBOARD_WIDTH / 2 + (c + 0.5) * WHITE_KEY_WIDTH) + BLACK_KEY_WIDTH / 2 <= KEYBOARD_WIDTH / 2
       /\ - KEYBOARD_WIDTH / 2 <= (- KEYBOARD_WIDTH / 2 + c * WHITE_KEY_WIDTH + WHITE_KEY_WIDTH / 2) - WHITE_KEY_WIDTH * 0.9 / 2
       /\ (- KEYBOARD_WIDTH / 2 + c * WHITE_KEY_WIDTH + WHITE_KEY_WIDTH / 2) + WHITE_KEY_WIDTH * 0.9 / 2 <= KEYBOARD_WIDTH / 2
       /\ - KEYBOARD_WIDTH / 2 <= (- KEYBOARD_WIDTH / 2 + c * WHITE_KEY_WIDTH + WHITE_KEY_WIDTH / 2) - WHITE_KEY_WIDTH / 2
       /\ (- KEYBOARD_WIDTH / 2 + c * WHITE_KEY_WIDTH + WHITE_KEY_WIDTH / 2) + WHITE_KEY_WIDTH / 2 <= KEYBOARD_WIDTH / 2)%Q).
  { intros c Hc.
    assert (E1 : (- KEYBOARD_WIDTH / 2 == -30)%Q) by reflexivity.
    assert (E2 : (KEYBOARD_WIDTH / 2 == 30)%Q) by reflexivity.
    assert (E3 : (WHITE_KEY_WIDTH == 15 # 13)%Q) by reflexivity.
    assert (E4 : (BLACK_KEY_WIDTH / 2 == 3 # 8)%Q) by reflexivity.
    assert (E5 : (WHITE_KEY_WIDTH / 2 == 15 # 26)%Q) by reflexivity.
    assert (E6 : (WHITE_KEY_WIDTH * 0.9 / 2 == 27 # 52)%Q) by reflexivity.
    rewrite E6, E5, E4, E1, E2, E3. repeat split; lra. }
  specialize (Hcases (inject_Z (whiteKeyCount pitch)) (conj HloQ HhiQ)).
  destruct Hcases as (B1 & B2 & W1 & W2 & S1 & S2).
  unfold getNoteX.
  destruct (includes sharps (Z.rem pitch 12)); simpl.
  - split; [exact B1|]. split; [exact B2|]. split; [discriminate|].
    split; reflexivity.
  - split; [exact W1|]. split; [exact W2|]. split; [intros _; split; assumption|].
    split; reflexivity.
Qed.

Lemma keyboard_spans_its_width_witness :
  (- KEYBOARD_WIDTH / 2 <= Lane.x (getNoteX 60) - Lane.width (getNoteX 60) / 2)%Q.
Proof.
  exact (proj1 (keyboard_spans_its_width 60 ltac:(lia))).
Defined.

End LaneGeometry.

(** ** Ingestion: order and the hand filter *)

Section IngestionMore.

Context (js : JsEnv).

Lemma insertByTime_startsAt (t : Q) (a : NoteData.t) (l : list NoteData.t) :
  List.filter (startsAt t) (insertByTime a l)
  = if startsAt t a then a :: List.filter (startsAt t) l
    else List.filter (startsAt t) l.
Proof.
  induction l as [|b l IH]; simpl; [reflexivity|].
  destruct (NoteData.time b <? NoteData.time a)%Q eqn:E; simpl.
  - rewrite IH. destruct (startsAt t a) eqn:Ea; [|reflexivity].
    destruct (startsAt t b) eqn:Eb; [|reflexivity].
    exfalso. apply Qltb_lt in E. unfold startsAt in *.
    apply Qeq_bool_iff in Ea. apply Qeq_bool_iff in Eb. lra.
  - reflexivity.
Qed.

Lemma sortByTime_startsAt (t : Q) (l : list NoteData.t) :
  List.filter (startsAt t) (sortByTime l) = List.filter (startsAt t) l.
Proof.
  induction l as [|a l IH]; simpl; [reflexivity|].
  rewrite insertByTime_startsAt, IH. reflexivity.
Qed.

Lemma deriveNote_cases handFilter trackIndex i n :
  (passes handFilter n = true
   /\ exists d, deriveNote js handFilter trackIndex i n = Some d
        /\ noteKey d = eventKey n
        /\ NoteData.color d
           = (if (MidiNote.midi n <? 60)%Z then COLORS.magenta else COLORS.cyan)
        /\ deriveNote js HandFilter.both trackIndex i n = Some d)
  \/ (passes handFilter n = false
      /\ deriveNote js handFilter trackIndex i n = None).
Proof.
  unfold deriveNote, passes.
  destruct handFilter, (MidiNote.midi n <? 60)%Z; simpl;
    first [ right; split; reflexivity
          | left; split; [reflexivity|]; eexists; repeat split; reflexivity ].
Qed.

Lemma deriveTrack_keys handFilter trackIndex (track : Track) :
  forall i,
    map noteKey (deriveTrack js handFilter trackIndex i track)
    = map eventKey (List.filter (passes handFilter) track).
Proof.
  induction track as [|n rest IH]; intros i; simpl; [reflexivity|].
  destruct (deriveNote_cases handFilter trackIndex i n)
    as [(Hp & d & Hd & Hk & _)|(Hp & Hd)]; rewrite Hd, Hp; simpl.
  - rewrite Hk, IH. reflexivity.
  - apply IH.
Qed.

Lemma deriveTracks_keys handFilter (tracks : Midi) :
  forall trackIndex,
    map noteKey (deriveTracks js handFilter trackIndex tracks)
    = map eventKey (List.filter (passes handFilter) (concat tracks)).
Proof.
  induction tracks as [|track rest IH]; intros trackIndex; simpl; [reflexivity|].
  rewrite map_app, List.filter_app, map_app, deriveTrack_keys, IH. reflexivity.
Qed.

(** X3: the derived notes never decrease in onset, and the notes that
    share an onset keep the order in which the tracks list them. *)
Theorem notes_sorted_stable (midiData : option Midi) (handFilter : HandFilter.t) :
  Sorted byTime (notes js midiData handFilter)
  /\ (forall t : Q,
        List.filter (startsAt t) (notes js midiData handFilter)
        = List.filter (startsAt t)
            (match midiData with
             | Some tracks => deriveTracks js handFilter 0 tracks
             | None => []
             end)).
Proof.
  split.
  - destruct midiData as [tracks|]; simpl; [apply sortByTime_sorted | constructor].
  - intros t. destruct midiData as [tracks|]; [apply sortByTime_startsAt | reflexivity].
Qed.

(** X4: without MIDI data there are no notes; with it the derived
    notes are, up to order, the events that pass the hand filter, each with
    its pitch, onset, duration and velocity: none dropped, none repeated. *)
Theorem notes_keep_every_event (midiData : Midi) (handFilter : HandFilter.t) :
  notes js None handFilter = []
  /\ map noteKey (notes js (Some midiData) handFilter)
     ≡ₚ map eventKey (List.filter (passes handFilter) (concat midiData))
  /\ length (notes js (Some midiData) handFilter)
     = length (List.filter (passes handFilter) (concat midiData)).
Proof.
  assert (Hperm : map noteKey (notes js (Some midiData) handFilter)
                  ≡ₚ map eventKey (List.filter (passes handFilter) (concat midiData))).
  { unfold notes. rewrite sortByTime_perm, deriveTracks_keys. reflexivity. }
  split; [reflexivity|]. split; [exact Hperm|].
  apply Permutation_length in Hperm. rewrite !length_map in Hperm. exact Hperm.
Qed.

Lemma deriveTrack_split trackIndex (track : Track) :
  forall i,
    deriveTrack js HandFilter.both trackIndex i track
    ≡ₚ deriveTrack js HandFilter.left trackIndex i track
       ++ deriveTrack js HandFilter.right trackIndex i track.
Proof.
  induction track as [|n rest IH]; intros i; simpl; [reflexivity|].
  unfold deriveNote, handFilterIs. simpl.
  destruct (MidiNote.midi n <? 60)%Z; simpl.
  - rewrite IH. reflexivity.
  - rewrite IH. apply Permutation_middle.
Qed.

Lemma deriveTracks_split (tracks : Midi) :
  forall trackIndex,
    deriveTracks js HandFilter.both trackIndex tracks
    ≡ₚ deriveTracks js HandFilter.left trackIndex tracks
       ++ deriveTracks js HandFilter.right trackIndex tracks.
Proof.
  induction tracks as [|track rest IH]; intros trackIndex; simpl; [reflexivity|].
  rewrite IH, deriveTrack_split.
  rewrite <- !app_assoc. apply Permutation_app_head.
  rewrite !app_assoc. apply Permutation_app_tail. apply Permutation_app_comm.
Qed.

Lemma notes_hand (midiData : Midi) handFilter d :
  d ∈ notes js (Some midiData) handFilter ->
  passes handFilter
    (MidiNote.mk (NoteData.midi d) (NoteData.time d) (NoteData.duration d)
       (NoteData.velocity d)) = true
  /\ NoteData.color d
     = (if (NoteData.midi d <? 60)%Z then COLORS.magenta else COLORS.cyan).
Proof.
  rewrite notes_elem. intros (t & track & k & n & _ & _ & Hd).
  destruct (deriveNote_cases handFilter t k n)
    as [(Hp & d' & Hd' & Hk & Hc & _)|(_ & Hn)]; [|congruence].
  assert (d' = d) as -> by congruence.
  unfold noteKey, eventKey in Hk. injection Hk as Hm Ht Hdu Hv.
  rewrite Hm. split; [|exact Hc].
  destruct handFilter; simpl in *; congruence.
Qed.

(** X5: the notes of [both] are those of [left] and those of [right]
    together; a left note is below pitch 60 and magenta, a right note is at
    or above 60 and cyan. *)
Theorem hand_filter_partitions (midiData : Midi) :
  notes js (Some midiData) HandFilter.both
  ≡ₚ notes js (Some midiData) HandFilter.left
     ++ notes js (Some midiData) HandFilter.right
  /\ (forall d, d ∈ notes js (Some midiData) HandFilter.left ->
        NoteData.midi d < 60 /\ NoteData.color d = COLORS.magenta)
  /\ (forall d, d ∈ notes js (Some midiData) HandFilter.right ->
        60 <= NoteData.midi d /\ NoteData.color d = COLORS.cyan).
Proof.
  split; [|split].
  - unfold notes. rewrite !sortByTime_perm. apply deriveTracks_split.
  - intros d Hd. destruct (notes_hand _ _ _ Hd) as [Hp Hc]. simpl in Hp.
    rewrite Hp in Hc. apply Z.ltb_lt in Hp. auto.
  - intros d Hd. destruct (notes_hand _ _ _ Hd) as [Hp Hc]. simpl in Hp.
    apply negb_true_iff in Hp. rewrite Hp in Hc. apply Z.ltb_ge in Hp. auto.
Qed.

End IngestionMore.

Lemma hand_filter_partitions_witness :
  exists d, d ∈ notes sampleJs (Some [[MidiNote.mk 48 0 1 0.8; MidiNote.mk 72 0 1 0.8]])
                  HandFilter.left
            /\ NoteData.midi d < 60 /\ NoteData.color d = COLORS.magenta.
Proof.
  destruct (event_to_notes sampleJs [[MidiNote.mk 48 0 1 0.8; MidiNote.mk 72 0 1 0.8]]
              HandFilter.left [MidiNote.mk 48 0 1 0.8; MidiNote.mk 72 0 1 0.8]
              (MidiNote.mk 48 0 1 0.8)) as (d & Hd & _); [left | left | reflexivity |].
  exists d. split; [exact Hd|].
  exact (proj1 (proj2 (hand_filter_partitions sampleJs
           [[MidiNote.mk 48 0 1 0.8; MidiNote.mk 72 0 1 0.8]])) d Hd).
Defined.

(** ** Activation *)

Section ActivationMore.

Local Open Scope Q_scope.

(** X6: the sounding set of two lists together is the union of their
    sounding sets; it does not depend on the order of the notes, and so not
    on the sort. *)
Theorem activeNotes_order_free (t : Q) (l1 l2 : list NoteData.t) :
  activeNotes t (l1 ++ l2) = activeNotes t l1 ∪ activeNotes t l2
  /\ (l1 ≡ₚ l2 -> activeNotes t l1 = activeNotes t l2)
  /\ activeNotes t (sortByTime l1) = activeNotes t l1.
Proof.
  assert (Hperm : forall a b : list NoteData.t,
             a ≡ₚ b -> activeNotes t a = activeNotes t b).
  { intros a b Hab. apply leibniz_equiv, set_equiv. intros p.
    rewrite !activeNotes_elem. split; intros (n & Hn & H); exists n; split; try exact H.
    - rewrite <- Hab. exact Hn.
    - rewrite Hab. exact Hn. }
  split; [|split].
  - apply leibniz_equiv, set_equiv. intros p.
    rewrite elem_of_union, !activeNotes_elem. split.
    + intros (n & Hn & H). apply elem_of_app in Hn as [Hn|Hn]; [left|right]; eauto.
    + intros [(n & Hn & H)|(n & Hn & H)]; exists n; rewrite elem_of_app; auto.
  - apply Hperm.
  - apply Hperm, sortByTime_perm.
Qed.

Lemma activeNotes_order_free_witness :
  activeNotes 0.5 [sampleNote 60 0 1; sampleNote 64 0 1]
  = activeNotes 0.5 [sampleNote 64 0 1; sampleNote 60 0 1].
Proof.
  exact (proj1 (proj2 (activeNotes_order_free 0.5
                         [sampleNote 60 0 1; sampleNote 64 0 1]
                         [sampleNote 64 0 1; sampleNote 60 0 1]))
           (perm_swap _ _ _)).
Defined.

(** X7: a pitch is sounding at [t] exactly when an event of the
    score with that pitch passes the hand filter and has
    [time <= t < time + duration]; under [left] every sounding pitch is
    below 60, under [right] at or above 60, and without data nothing
    sounds. *)
Theorem active_pitches_of_the_score (js : JsEnv) (midiData : Midi)
    (handFilter : HandFilter.t) (t : Q) :
  (forall pitch : Z,
     pitch ∈ activeNotes t (notes js (Some midiData) handFilter) <->
     exists track e, track ∈ midiData /\ e ∈ track
       /\ passes handFilter e = true /\ MidiNote.midi e = pitch
       /\ MidiNote.time e <= t /\ t < MidiNote.time e + MidiNote.duration e)
  /\ (forall pitch : Z,
        pitch ∈ activeNotes t (notes js (Some midiData) HandFilter.left) ->
        (pitch < 60)%Z)
  /\ (forall pitch : Z,
        pitch ∈ activeNotes t (notes js (Some midiData) HandFilter.right) ->
        (60 <= pitch)%Z)
  /\ activeNotes t (notes js None handFilter) = ∅.
Proof.
  assert (Hiff : forall hf pitch,
     pitch ∈ activeNotes t (notes js (Some midiData) hf) <->
     exists track e, track ∈ midiData /\ e ∈ track
       /\ passes hf e = true /\ MidiNote.midi e = pitch
       /\ MidiNote.time e <= t /\ t < MidiNote.time e + MidiNote.duration e).
  { intros hf pitch. rewrite activeNotes_elem. unfold sounding. split.
    - intros (d & Hd & Hm & Hs).
      destruct (notes_from_event js _ _ _ Hd) as (track & e & Ht & He & Hp & Hf).
      destruct Hf as (Hfm & Hft & Hfd & _).
      exists track, e. rewrite <- Hfm, <- Hft, <- Hfd. auto.
    - intros (track & e & Ht & He & Hp & Hm & Hs).
      destruct (event_to_notes js _ _ _ _ Ht He Hp) as (d & Hd & Hf).
      destruct Hf as (Hfm & Hft & Hfd & _).
      exists d. rewrite Hfm, Hft, Hfd. auto. }
  split; [apply Hiff|]. split; [|split].
  - intros pitch H. apply Hiff in H as (track & e & _ & _ & Hp & <- & _).
    simpl in Hp. apply Z.ltb_lt in Hp. exact Hp.
  - intros pitch H. apply Hiff in H as (track & e & _ & _ & Hp & <- & _).
    simpl in Hp. apply negb_true_iff, Z.ltb_ge in Hp. exact Hp.
  - reflexivity.
Qed.

Lemma active_pitches_of_the_score_witness :
  (48%Z ∈ activeNotes 0.5
     (notes sampleJs (Some [[MidiNote.mk 48 0 1 0.8; MidiNote.mk 72 0 1 0.8]])
        HandFilter.left)).
Proof.
  apply (proj1 (active_pitches_of_the_score sampleJs
           [[MidiNote.mk 48 0 1 0.8; MidiNote.mk 72 0 1 0.8]] HandFilter.left 0.5)).
  exists [MidiNote.mk 48 0 1 0.8; MidiNote.mk 72 0 1 0.8], (MidiNote.mk 48 0 1 0.8).
  split; [left|]. split; [left|]. split; [reflexivity|]. split; [reflexivity|].
  split; [discriminate | reflexivity].
Defined.

(** X8: notes whose duration is zero or negative never sound; the
    fall view still draws them, at the minimum height 0.1, from the visible
    window before the onset until half a second after their end; the recede
    view draws one of negative duration only before its onset. *)
Theorem empty_notes_never_sound (notes : list NoteData.t) (t : Q)
    (Hempty : forall n, n ∈ notes -> NoteData.duration n <= 0) :
  activeNotes t notes = ∅
  /\ (forall n box, n ∈ notes ->
        FallingNotes.renderNote t n = Some box ->
        Vector3.y (Box.args box) == 0.1)
  /\ (forall n, n ∈ notes ->
        (is_Some (FallingNotes.renderNote t n) <->
         NoteData.time n - VISIBLE_WINDOW <= t
         /\ t <= NoteData.time n + NoteData.duration n + 0.5))
  /\ (forall n, n ∈ notes -> NoteData.duration n < 0 ->
        SynthesiaFallingNotes.renderNote t n = None
        \/ 0 < NoteData.time n - t).
Proof.
  split; [|split; [|split]].
  - apply leibniz_equiv, set_equiv. intros p. rewrite activeNotes_elem. split.
    + intros (n & Hn & _ & [H1 H2]). specialize (Hempty n Hn). lra.
    + intros H. exfalso. exact (not_elem_of_empty _ H).
  - intros n box Hn Hb. specialize (Hempty n Hn).
    unfold FallingNotes.renderNote in Hb. cbv zeta in Hb.
    destruct (_ || _); [discriminate|]. injection Hb as <-. simpl.
    apply Q.max_l. unfold NOTE_GAP, NOTE_SPEED. lra.
  - intros n Hn. rewrite fall_renderNote_visible, fall_outOfView_false. split; intros [H1 H2]; split; lra.
  - intros n Hn Hd.
    destruct (Qlt_le_dec 0 (NoteData.time n - t)) as [Hpos|Hneg]; [right; exact Hpos|].
    left. destruct (SynthesiaFallingNotes.renderNote t n) eqn:E; [|reflexivity].
    exfalso. assert (Hs : is_Some (SynthesiaFallingNotes.renderNote t n)) by (rewrite E; eauto).
    apply recede_renderNote_visible in Hs as (_ & H2 & _). lra.
Qed.

Lemma empty_notes_never_sound_witness :
  activeNotes 0 [sampleNote 60 0 0] = ∅.
Proof.
  apply (empty_notes_never_sound [sampleNote 60 0 0] 0).
  intros n Hn. apply list_elem_of_singleton in Hn. subst n. discriminate.
Defined.

End ActivationMore.

(** ** Box geometry of the two views *)

Section Geometry.

Local Open Scope Q_scope.

Lemma Qhalf (a : Q) : a / 2 == a * 0.5.
Proof. field. Qed.

Lemma fall_renderNote_Some (t : Q) (note : NoteData.t) (box : Box.t) :
  FallingNotes.renderNote t note = Some box ->
  FallingNotes.outOfView t note = false
  /\ box = Box.mk (NoteData.id note)
             (Vector3.mk (NoteData.x note)
                (HIT_Y + (NoteData.time note - t) * NOTE_SPEED
                 + Qmax 0.1 (NoteData.duration note * NOTE_SPEED - NOTE_GAP) / 2)
                (-2.5))
             (Vector3.mk (NoteData.width note)
                (Qmax 0.1 (NoteData.duration note * NOTE_SPEED - NOTE_GAP)) 0.5)
             (NoteData.color note).
Proof.
  unfold FallingNotes.renderNote, FallingNotes.outOfView. cbv zeta.
  destruct (_ || _); [discriminate|]. intros [= <-]. split; reflexivity.
Qed.

(** X9: in the fall view the bottom edge of a drawn box is
    [(onset - t) * 25] above the keys, at most [FALL_HEIGHT]; it is at or
    below the keys exactly from the onset on; the note sounds exactly while
    the keys lie between the bottom edge and the point [duration * 25]
    above it; and between two times the box moves by 25 units per second
    with its size unchanged. *)
Theorem fall_box_geometry (note : NoteData.t) (t : Q) (box : Box.t)
    (Hbox : FallingNotes.renderNote t note = Some box) :
  let bottom := Vector3.y (Box.position box) - Vector3.y (Box.args box) / 2 in
  bottom == (NoteData.time note - t) * 25
  /\ bottom <= FALL_HEIGHT
  /\ -12.5 <= bottom + NoteData.duration note * 25
  /\ (bottom <= 0 <-> NoteData.time note <= t)
  /\ (sounding t note <->
      bottom <= 0 /\ 0 < bottom + NoteData.duration note * 25)
  /\ (forall (t' : Q) (box' : Box.t),
        FallingNotes.renderNote t' note = Some box' ->
        Vector3.y (Box.position box') - Vector3.y (Box.position box) == - (t' - t) * 25
        /\ Box.args box' = Box.args box).
Proof.
  intros bottom. apply fall_renderNote_Some in Hbox as [Hview ->].
  apply fall_outOfView_false in Hview as [Hw Hg].
  assert (Hbottom : bottom == (NoteData.time note - t) * 25).
  { unfold bottom. simpl. unfold HIT_Y, NOTE_SPEED. field. }
  assert (HW : VISIBLE_WINDOW == 1.6) by reflexivity.
  assert (HF : FALL_HEIGHT == 40) by reflexivity.
  split; [exact Hbottom|]. rewrite Hbottom, HF. rewrite HW in Hw.
  split; [lra|]. split; [lra|]. split; [split; lra|]. split.
  - unfold sounding. split; intros [H1 H2]; split; lra.
  - intros t' box' Hbox'. apply fall_renderNote_Some in Hbox' as [_ ->]. simpl.
    split; [unfold NOTE_SPEED; ring | reflexivity].
Qed.

Lemma fall_box_geometry_witness :
  exists box, FallingNotes.renderNote 4.5 (sampleNote 60 5.0 1.0) = Some box
    /\ Vector3.y (Box.position box) - Vector3.y (Box.args box) / 2 == (5.0 - 4.5) * 25.
Proof.
  eexists. split; [reflexivity|].
  exact (proj1 (fall_box_geometry (sampleNote 60 5.0 1.0) 4.5 _ eq_refl)).
Defined.

Lemma recede_renderNote_Some (t : Q) (note : NoteData.t) (box : Box.t) :
  SynthesiaFallingNotes.renderNote t note = Some box ->
  let timeUntilHit := NoteData.time note - t in
  let full := SynthesiaFallingNotes.fullDepth note in
  SynthesiaFallingNotes.outOfView t note = false
  /\ Box.key box = NoteData.id note
  /\ Box.color box = NoteData.color note
  /\ Vector3.x (Box.position box) = NoteData.x note
  /\ Vector3.y (Box.position box) = 1
  /\ Vector3.x (Box.args box) = NoteData.width note
  /\ Vector3.y (Box.args box) = 0.5
  /\ 0 < Vector3.z (Box.args box)
  /\ ((0 <= timeUntilHit
       /\ Vector3.z (Box.args box) == full
       /\ Vector3.z (Box.position box) == - (timeUntilHit * 25) - full / 2)
      \/ (timeUntilHit < 0
          /\ Vector3.z (Box.args box) == full + timeUntilHit * 25
          /\ Vector3.z (Box.position box) == - (full + timeUntilHit * 25) / 2)).
Proof.
  rewrite recede_renderNote_eq. intros H timeUntilHit full.
  destruct (SynthesiaFallingNotes.outOfView t note); [discriminate|].
  fold timeUntilHit full in H.
  destruct (Qlt_le_dec timeUntilHit 0) as [Hlt|Hge].
  - rewrite clip_after in H by exact Hlt.
    destruct (_ <=? 0) eqn:E; [discriminate|]. injection H as <-. simpl.
    apply Qleb_gt in E.
    assert (Hd : Qmax 0 (full - - timeUntilHit * NOTE_SPEED) == full + timeUntilHit * 25).
    { destruct (Q.max_spec 0 (full - - timeUntilHit * NOTE_SPEED)) as [[Ha Hb]|[Ha Hb]].
      - rewrite Hb. unfold NOTE_SPEED. ring.
      - rewrite Hb in E. lra. }
    repeat split; try exact E. right. split; [exact Hlt|]. split; [exact Hd|].
    rewrite Hd. unfold KEY_Z. field.
  - rewrite clip_before in H by exact Hge.
    destruct (_ <=? 0) eqn:E; [discriminate|]. injection H as <-. simpl.
    apply Qleb_gt in E.
    repeat split; try exact E. left. split; [exact Hge|]. split; [reflexivity|].
    unfold KEY_Z, NOTE_SPEED. field.
Qed.

(** X10: in the recede view the far edge of a drawn box is
    [fullDepth] behind the point [(onset - t) * 25] away from the keys, the
    near edge is that point until the onset and the key line after it; the
    box never crosses the key line nor starts beyond [FALL_HEIGHT]; and
    before the onset it is the fall view's box with depth for height. *)
Theorem recede_box_geometry (note : NoteData.t) (t : Q) (box : Box.t)
    (Hbox : SynthesiaFallingNotes.renderNote t note = Some box) :
  let timeUntilHit := NoteData.time note - t in
  let head := Vector3.z (Box.position box) + Vector3.z (Box.args box) / 2 in
  let tail := Vector3.z (Box.position box) - Vector3.z (Box.args box) / 2 in
  tail == - (timeUntilHit * 25) - SynthesiaFallingNotes.fullDepth note
  /\ head == Qmin 0 (- (timeUntilHit * 25))
  /\ tail < head /\ head <= 0
  /\ - FALL_HEIGHT <= head
  /\ (forall boxFall : Box.t,
        0 <= timeUntilHit ->
        FallingNotes.renderNote t note = Some boxFall ->
        Vector3.z (Box.position box) == - Vector3.y (Box.position boxFall)
        /\ Vector3.z (Box.args box) == Vector3.y (Box.args boxFall)
        /\ Vector3.x (Box.position box) = Vector3.x (Box.position boxFall)
        /\ Vector3.x (Box.args box) = Vector3.x (Box.args boxFall)).
Proof.
  intros timeUntilHit head tail.
  pose proof (recede_renderNote_Some t note box Hbox) as H. cbv zeta in H.
  fold timeUntilHit in H.
  destruct H as (Hview & _ & _ & Hx & _ & Hw & _ & Hpos & Hshape).
  apply recede_outOfView_false in Hview as [Hwin _]. fold timeUntilHit in Hwin.
  assert (HW : VISIBLE_WINDOW == 1.6) by reflexivity. rewrite HW in Hwin.
  assert (HF : FALL_HEIGHT == 40) by reflexivity.
  set (full := SynthesiaFallingNotes.fullDepth note) in *.
  unfold head, tail.
  destruct Hshape as [(Hge & Hd & Hz)|(Hlt & Hd & Hz)].
  - assert (Hmin : Qmin 0 (- (timeUntilHit * 25)) == - (timeUntilHit * 25))
      by (apply Q.min_r; lra).
    rewrite Hmin, HF, Hz, Hd.
    split; [field|]. split; [field|]. split; [rewrite Hd in Hpos; rewrite !Qhalf; lra|].
    rewrite !Qhalf. split; [lra|]. split; [lra|].
    intros boxFall _ HbF. apply fall_renderNote_Some in HbF as [_ ->]. simpl.
    rewrite Hx, Hw, Hz, Hd. split; [|split; [|split]]; try reflexivity.
    unfold full, SynthesiaFallingNotes.fullDepth, HIT_Y. cbv zeta.
    fold timeUntilHit. unfold NOTE_SPEED. field.
  - assert (Hmin : Qmin 0 (- (timeUntilHit * 25)) == 0) by (apply Q.min_l; lra).
    rewrite Hmin, HF, Hz, Hd.
    split; [field|]. split; [field|]. split; [rewrite Hd in Hpos; rewrite !Qhalf; lra|].
    rewrite !Qhalf. split; [lra|]. split; [lra|].
    intros boxFall Hge. lra.
Qed.

Lemma recede_box_geometry_witness :
  exists box, SynthesiaFallingNotes.renderNote 0.5 (sampleNote 60 0 1.0) = Some box
    /\ Vector3.z (Box.position box) - Vector3.z (Box.args box) / 2
       == - ((0 - 0.5) * 25) - SynthesiaFallingNotes.fullDepth (sampleNote 60 0 1.0).
Proof.
  eexists. split; [reflexivity|].
  exact (proj1 (recede_box_geometry (sampleNote 60 0 1.0) 0.5 _ eq_refl)).
Defined.

(** X11: a note of at least 0.104 s is drawn by the recede view from
    the visible window before its onset until 0.1 s before its end, and by
    the fall view until 0.5 s after its end. *)
Theorem recede_note_lifetime (note : NoteData.t) (t : Q)
    (Hlong : 0.104 <= NoteData.duration note) :
  (is_Some (SynthesiaFallingNotes.renderNote t note) <->
   NoteData.time note - VISIBLE_WINDOW <= t
   /\ t < NoteData.time note + NoteData.duration note - 0.1)
  /\ (is_Some (FallingNotes.renderNote t note) <->
      NoteData.time note - VISIBLE_WINDOW <= t
      /\ t <= NoteData.time note + NoteData.duration note + 0.5).
Proof.
  assert (Hfull : SynthesiaFallingNotes.fullDepth note
                  == NoteData.duration note * 25 - 2.5).
  { unfold SynthesiaFallingNotes.fullDepth. cbv zeta.
    rewrite Q.max_r; unfold NOTE_GAP, NOTE_SPEED; [reflexivity | lra]. }
  split.
  - rewrite recede_renderNote_visible, Hfull. unfold NOTE_SPEED. split.
    + intros (H1 & H2 & H3). split; [lra|].
      destruct (Qlt_le_dec (NoteData.time note - t) 0) as [Hlt|Hge].
      * specialize (H3 Hlt). lra.
      * lra.
    + intros [H1 H2]. split; [lra|]. split; [lra|]. intros _. lra.
  - rewrite fall_renderNote_visible, fall_outOfView_false.
    split; intros [H1 H2]; split; lra.
Qed.

Lemma recede_note_lifetime_witness :
  is_Some (SynthesiaFallingNotes.renderNote 0.5 (sampleNote 60 0 1.0)).
Proof.
  apply (proj1 (recede_note_lifetime (sampleNote 60 0 1.0) 0.5 ltac:(discriminate))).
  split; [discriminate | reflexivity].
Defined.

End Geometry.

(** ** Sparkle tracking of the two views *)

Lemma union_swap (a b c : gset string) : a ∪ b ∪ c = b ∪ (a ∪ c).
Proof. rewrite (comm_L (∪) a b), (assoc_L (∪)). reflexivity. Qed.

Lemma union_empty_end (a : gset string) : a = a ∪ ∅.
Proof. symmetry. apply (right_id_L ∅ (∪)). Qed.

Lemma elem_of_add (x y : string) (a : gset string) :
  x <> y -> (y ∈ {[ x ]} ∪ a <-> y ∈ a).
Proof.
  intros Hne. rewrite elem_of_union, elem_of_singleton. split; [|auto].
  intros [->|H]; [contradiction | exact H].
Qed.

Section TrackingProof.

Context (outOfView : Q -> NoteData.t -> bool) (anchor : Q -> NoteData.t -> Q).

Local Open Scope Q_scope.

Abbreviation Acc := (gset string * gset string)%type.
Abbreviation Callback := (Q -> Q -> string -> Eff unit).

Variable frameNote : Q -> Callback -> Acc -> NoteData.t -> Eff Acc.
Variable frameNotes : Q -> Callback -> Acc -> list NoteData.t -> Eff Acc.

Hypothesis frameNote_eq :
  forall t cb (vis last : gset string) note r,
    frameNote t cb (vis, last) note r =
    if outOfView t note then ((vis, last), r)
    else if negb (bool_decide (NoteData.id note ∈ last))
            && (NoteData.time note - t >? 0)
            && (NoteData.time note - t <? VISIBLE_WINDOW)
         then (({[ NoteData.id note ]} ∪ vis, {[ NoteData.id note ]} ∪ last),
               exec (cb (NoteData.x note) (anchor t note) (NoteData.color note)) r)
         else (({[ NoteData.id note ]} ∪ vis, last), r).

Hypothesis frameNotes_nil :
  forall t cb acc r, frameNotes t cb acc [] r = (acc, r).

Hypothesis frameNotes_cons :
  forall t cb acc note rest r,
    frameNotes t cb acc (note :: rest) r =
    frameNotes t cb (fst (frameNote t cb acc note r)) rest
      (snd (frameNote t cb acc note r)).

Lemma sparklesDue_fresh (t : Q) (last : gset string) (id : string)
    (rest : list NoteData.t) :
  id ∉ map NoteData.id rest ->
  List.filter (sparklesDue outOfView t ({[ id ]} ∪ last)) rest
  = List.filter (sparklesDue outOfView t last) rest.
Proof.
  intros Hfresh. induction rest as [|m rest IH]; [reflexivity|].
  simpl in Hfresh. apply not_elem_of_cons in Hfresh as [Hne Hrest].
  simpl. rewrite (IH Hrest).
  assert (E : sparklesDue outOfView t ({[ id ]} ∪ last) m
              = sparklesDue outOfView t last m).
  { unfold sparklesDue. f_equal. f_equal. f_equal. f_equal.
    apply bool_decide_ext. apply elem_of_add. intros ->. apply Hne. reflexivity. }
  rewrite E. reflexivity.
Qed.

Lemma frameNotes_spec (t : Q) (cb : Callback) (notes : list NoteData.t) :
  NoDup (map NoteData.id notes) ->
  forall (vis last : gset string) (r : Refs),
    frameNotes t cb (vis, last) notes r =
    ((vis ∪ idsOf (List.filter (fun n => negb (outOfView t n)) notes),
      last ∪ idsOf (List.filter (sparklesDue outOfView t last) notes)),
     sparkleCalls anchor t cb (List.filter (sparklesDue outOfView t last) notes) r).
Proof.
  induction notes as [|n rest IH]; intros Hnd vis last r.
  - rewrite frameNotes_nil. unfold idsOf. simpl. f_equal. f_equal; apply union_empty_end.
  - simpl in Hnd. apply NoDup_cons in Hnd as [Hfresh Hnd].
    rewrite frameNotes_cons, frameNote_eq. simpl List.filter.
    assert (Hdue : sparklesDue outOfView t last n
                   = negb (outOfView t n)
                     && (negb (bool_decide (NoteData.id n ∈ last))
                         && (NoteData.time n - t >? 0)
                         && (NoteData.time n - t <? VISIBLE_WINDOW)))
      by reflexivity.
    rewrite Hdue. clear Hdue.
    destruct (outOfView t n) eqn:Ev; simpl.
    + apply IH. exact Hnd.
    + destruct (negb (bool_decide (NoteData.id n ∈ last))
                && (NoteData.time n - t >? 0)
                && (NoteData.time n - t <? VISIBLE_WINDOW)) eqn:Ed; simpl.
      * rewrite (IH Hnd), (sparklesDue_fresh t last _ rest Hfresh).
        unfold idsOf. simpl. f_equal. f_equal; apply union_swap.
      * rewrite (IH Hnd). unfold idsOf. simpl. f_equal. f_equal. apply union_swap.
Qed.

Variable useFrame :
  list NoteData.t -> Q -> Callback -> gset string -> Eff (gset string).

Hypothesis useFrame_eq :
  forall notes t cb last r,
    useFrame notes t cb last r =
    (filter (fun id => id ∈ (frameNotes t cb (∅, last) notes r).1.1)
            (frameNotes t cb (∅, last) notes r).1.2,
     (frameNotes t cb (∅, last) notes r).2).

Lemma useFrame_spec (notes : list NoteData.t) (t : Q) (cb : Callback)
    (last : gset string) (r : Refs) :
  NoDup (map NoteData.id notes) ->
  useFrame notes t cb last r =
  ((last ∩ idsOf (List.filter (fun n => negb (outOfView t n)) notes))
   ∪ idsOf (List.filter (sparklesDue outOfView t last) notes),
   sparkleCalls anchor t cb (List.filter (sparklesDue outOfView t last) notes) r).
Proof.
  intros Hnd. rewrite useFrame_eq, (frameNotes_spec t cb notes Hnd). simpl.
  f_equal. apply leibniz_equiv, set_equiv. intros id.
  rewrite elem_of_filter, !elem_of_union, elem_of_intersection.
  assert (Hsub : id ∈ idsOf (List.filter (sparklesDue outOfView t last) notes) ->
                 id ∈ idsOf (List.filter (fun n => negb (outOfView t n)) notes)).
  { unfold idsOf. rewrite !elem_of_list_to_set, !list_elem_of_fmap.
    intros (n & -> & Hn). exists n. split; [reflexivity|].
    apply list_elem_of_In, filter_In. apply list_elem_of_In, filter_In in Hn as [Hn Hd].
    split; [exact Hn|]. unfold sparklesDue in Hd. apply andb_true_iff in Hd. tauto. }
  split.
  - intros [[H|H] [H'|H']]; try (exfalso; exact (not_elem_of_empty _ H)); auto.
  - intros [[H1 H2]|H]; split; auto.
Qed.

Lemma idsOf_elem (id : string) (l : list NoteData.t) :
  id ∈ idsOf l <-> exists n, n ∈ l /\ NoteData.id n = id.
Proof.
  unfold idsOf. rewrite elem_of_list_to_set, list_elem_of_fmap.
  split; intros (n & H1 & H2); exists n; auto.
Qed.

Lemma filter_elem (P : NoteData.t -> bool) (l : list NoteData.t) (n : NoteData.t) :
  n ∈ List.filter P l <-> n ∈ l /\ P n = true.
Proof. rewrite !list_elem_of_In. apply filter_In. Qed.

Lemma filter_none (P : NoteData.t -> bool) (l : list NoteData.t) :
  (forall n, n ∈ l -> P n = false) -> List.filter P l = [].
Proof.
  induction l as [|a l IH]; intros H; [reflexivity|]. simpl.
  rewrite (H a) by left. apply IH. intros n Hn. apply H. right. exact Hn.
Qed.

Lemma NoDup_ids (notes : list NoteData.t) (n m : NoteData.t) :
  NoDup (map NoteData.id notes) -> n ∈ notes -> m ∈ notes ->
  NoteData.id n = NoteData.id m -> n = m.
Proof.
  intros Hnd Hn Hm E.
  apply list_elem_of_lookup_1 in Hn as [i Hi]. apply list_elem_of_lookup_1 in Hm as [j Hj].
  assert (i = j).
  { apply (NoDup_lookup _ i j (NoteData.id n) Hnd).
    - rewrite list_lookup_fmap, Hi. reflexivity.
    - rewrite list_lookup_fmap, Hj, E. reflexivity. }
  subst j. congruence.
Qed.

Lemma useFrame_once (notes : list NoteData.t) (t : Q) (cb : Callback)
    (last : gset string) (r : Refs) :
  NoDup (map NoteData.id notes) ->
  let last' := (useFrame notes t cb last r).1 in
  let r' := (useFrame notes t cb last r).2 in
  (forall n, n ∈ notes -> NoteData.id n ∈ last -> outOfView t n = false ->
     NoteData.id n ∈ last' /\ sparklesDue outOfView t last n = false)
  /\ (forall n, n ∈ notes -> sparklesDue outOfView t last n = true ->
       NoteData.id n ∈ last')
  /\ (forall n, n ∈ notes -> outOfView t n = true -> NoteData.id n ∉ last')
  /\ useFrame notes t cb last' r' = (last', r').
Proof.
  intros Hnd last' r'. subst last' r'.
  rewrite (useFrame_spec notes t cb last r Hnd). simpl.
  set (inView := List.filter (fun n => negb (outOfView t n)) notes).
  set (due := List.filter (sparklesDue outOfView t last) notes).
  assert (Ha : forall n, n ∈ notes -> NoteData.id n ∈ last -> outOfView t n = false ->
     NoteData.id n ∈ last ∩ idsOf inView ∪ idsOf due
     /\ sparklesDue outOfView t last n = false).
  { intros n Hn Hl Hv. split.
    - apply elem_of_union. left. apply elem_of_intersection. split; [exact Hl|].
      apply idsOf_elem. exists n. split; [|reflexivity].
      apply filter_elem. rewrite Hv. auto.
    - unfold sparklesDue. rewrite (bool_decide_eq_true_2 _ Hl). simpl.
      apply andb_false_r. }
  assert (Hb : forall n, n ∈ notes -> sparklesDue outOfView t last n = true ->
       NoteData.id n ∈ last ∩ idsOf inView ∪ idsOf due).
  { intros n Hn Hd. apply elem_of_union. right. apply idsOf_elem.
    exists n. split; [|reflexivity]. apply filter_elem. auto. }
  assert (Hc : forall n, n ∈ notes -> outOfView t n = true ->
       NoteData.id n ∉ last ∩ idsOf inView ∪ idsOf due).
  { intros n Hn Hv H. apply elem_of_union in H as [H|H].
    - apply elem_of_intersection in H as [_ H]. apply idsOf_elem in H as (m & Hm & E).
      apply filter_elem in Hm as [Hm Hmv].
      assert (m = n) by (apply (NoDup_ids notes); auto). subst m.
      rewrite Hv in Hmv. discriminate.
    - apply idsOf_elem in H as (m & Hm & E). apply filter_elem in Hm as [Hm Hmd].
      assert (m = n) by (apply (NoDup_ids notes); auto). subst m.
      unfold sparklesDue in Hmd. rewrite Hv in Hmd. discriminate. }
  split; [exact Ha|]. split; [exact Hb|]. split; [exact Hc|].
  rewrite (useFrame_spec notes t cb _ _ Hnd).
  assert (Hnone : List.filter
            (sparklesDue outOfView t (last ∩ idsOf inView ∪ idsOf due)) notes = []).
  { apply filter_none. intros n Hn.
    destruct (sparklesDue outOfView t (last ∩ idsOf inView ∪ idsOf due) n) eqn:E;
      [|reflexivity].
    exfalso. unfold sparklesDue in E.
    apply andb_true_iff in E as [Ev E]. apply andb_true_iff in E as [E Ew].
    apply andb_true_iff in E as [Ei Ez].
    apply negb_true_iff in Ev. apply negb_true_iff, bool_decide_eq_false in Ei.
    apply Ei. destruct (decide (NoteData.id n ∈ last)) as [Hl|Hl].
    - apply (Ha n Hn Hl Ev).
    - apply (Hb n Hn). unfold sparklesDue.
      rewrite Ev, (bool_decide_eq_false_2 _ Hl), Ez, Ew. reflexivity. }
  rewrite Hnone. simpl. f_equal.
  apply leibniz_equiv, set_equiv. intros id.
  rewrite !elem_of_union, !elem_of_intersection, !elem_of_union, !elem_of_intersection.
  split.
  - intros [[H _]|H]; [exact H|]. exfalso. exact (not_elem_of_empty _ H).
  - intros [[H1 H2]|H]; left; split; auto.
    apply idsOf_elem in H as (n & Hn & <-). apply filter_elem in Hn as [Hn Hd].
    apply idsOf_elem. exists n. split; [|reflexivity]. apply filter_elem.
    split; [exact Hn|]. unfold sparklesDue in Hd. apply andb_true_iff in Hd. tauto.
Qed.

End TrackingProof.

Section TrackingViews.

Local Open Scope Q_scope.

Lemma fall_frameNote_eq t cb (vis last : gset string) note r :
  FallingNotes.frameNote t cb (vis, last) note r =
  if FallingNotes.outOfView t note then ((vis, last), r)
  else if negb (bool_decide (NoteData.id note ∈ last))
          && (NoteData.time note - t >? 0)
          && (NoteData.time note - t <? VISIBLE_WINDOW)
       then (({[ NoteData.id note ]} ∪ vis, {[ NoteData.id note ]} ∪ last),
             exec (cb (NoteData.x note) (fallAnchor t note) (NoteData.color note)) r)
       else (({[ NoteData.id note ]} ∪ vis, last), r).
Proof.
  unfold FallingNotes.frameNote, FallingNotes.outOfView, fallAnchor, exec, bind, ret.
  cbv zeta.
  destruct (_ || _); [reflexivity|].
  destruct (_ && _); [|reflexivity].
  destruct (cb _ _ _ r). reflexivity.
Qed.

Lemma fall_frameNotes_cons t cb acc note rest r :
  FallingNotes.frameNotes t cb acc (note :: rest) r =
  FallingNotes.frameNotes t cb (FallingNotes.frameNote t cb acc note r).1 rest
    (FallingNotes.frameNote t cb acc note r).2.
Proof.
  simpl. unfold bind. destruct (FallingNotes.frameNote t cb acc note r). reflexivity.
Qed.

Lemma fall_useFrame_eq notes t cb last r :
  FallingNotes.useFrame notes t cb last r =
  (filter (fun id => id ∈ (FallingNotes.frameNotes t cb (∅, last) notes r).1.1)
          (FallingNotes.frameNotes t cb (∅, last) notes r).1.2,
   (FallingNotes.frameNotes t cb (∅, last) notes r).2).
Proof.
  unfold FallingNotes.useFrame, bind.
  destruct (FallingNotes.frameNotes t cb (∅, last) notes r) as [[vis l] r']. reflexivity.
Qed.

Lemma recede_frameNote_eq t cb (vis last : gset string) note r :
  SynthesiaFrame.frameNote t cb (vis, last) note r =
  if SynthesiaFallingNotes.outOfView t note then ((vis, last), r)
  else if negb (bool_decide (NoteData.id note ∈ last))
          && (NoteData.time note - t >? 0)
          && (NoteData.time note - t <? VISIBLE_WINDOW)
       then (({[ NoteData.id note ]} ∪ vis, {[ NoteData.id note ]} ∪ last),
             exec (cb (NoteData.x note) (recedeAnchor t note) (NoteData.color note)) r)
       else (({[ NoteData.id note ]} ∪ vis, last), r).
Proof.
  unfold SynthesiaFrame.frameNote, SynthesiaFallingNotes.outOfView, recedeAnchor,
    exec, bind, ret.
  cbv zeta.
  destruct (_ || _); [reflexivity|].
  destruct (_ && _); [|reflexivity].
  destruct (cb _ _ _ r). reflexivity.
Qed.

Lemma recede_frameNotes_cons t cb acc note rest r :
  SynthesiaFrame.frameNotes t cb acc (note :: rest) r =
  SynthesiaFrame.frameNotes t cb (SynthesiaFrame.frameNote t cb acc note r).1 rest
    (SynthesiaFrame.frameNote t cb acc note r).2.
Proof.
  simpl. unfold bind. destruct (SynthesiaFrame.frameNote t cb acc note r). reflexivity.
Qed.

Lemma recede_useFrame_eq notes t cb last r :
  SynthesiaFrame.useFrame notes t cb last r =
  (filter (fun id => id ∈ (SynthesiaFrame.frameNotes t cb (∅, last) notes r).1.1)
          (SynthesiaFrame.frameNotes t cb (∅, last) notes r).1.2,
   (SynthesiaFrame.frameNotes t cb (∅, last) notes r).2).
Proof.
  unfold SynthesiaFrame.useFrame, bind.
  destruct (SynthesiaFrame.frameNotes t cb (∅, last) notes r) as [[vis l] r']. reflexivity.
Qed.

(** X12: for notes with distinct ids, one frame of either view asks
    for sparkles once for each note that is in view, ahead of the keys and
    not yet recorded, in the order of the list and at the middle of the
    note; it leaves recorded the ids that were recorded and are still in
    view, plus the ids it asked for. *)
Theorem sparkles_per_frame (notes : list NoteData.t) (t : Q)
    (onSpawnSparkles : Q -> Q -> string -> Eff unit)
    (lastSpawnedNotes : gset string) (r : Refs)
    (Hids : NoDup (map NoteData.id notes)) :
  let inViewFall := List.filter (fun n => negb (FallingNotes.outOfView t n)) notes in
  let dueFall :=
    List.filter (sparklesDue FallingNotes.outOfView t lastSpawnedNotes) notes in
  let inViewRecede :=
    List.filter (fun n => negb (SynthesiaFallingNotes.outOfView t n)) notes in
  let dueRecede :=
    List.filter (sparklesDue SynthesiaFallingNotes.outOfView t lastSpawnedNotes) notes in
  FallingNotes.useFrame notes t onSpawnSparkles lastSpawnedNotes r
  = ((lastSpawnedNotes ∩ idsOf inViewFall) ∪ idsOf dueFall,
     sparkleCalls fallAnchor t onSpawnSparkles dueFall r)
  /\ SynthesiaFrame.useFrame notes t onSpawnSparkles lastSpawnedNotes r
     = ((lastSpawnedNotes ∩ idsOf inViewRecede) ∪ idsOf dueRecede,
        sparkleCalls recedeAnchor t onSpawnSparkles dueRecede r).
Proof.
  split.
  - apply (useFrame_spec FallingNotes.outOfView fallAnchor
             FallingNotes.frameNote FallingNotes.frameNotes
             fall_frameNote_eq (fun _ _ _ _ => eq_refl) fall_frameNotes_cons
             FallingNotes.useFrame fall_useFrame_eq). exact Hids.
  - apply (useFrame_spec SynthesiaFallingNotes.outOfView recedeAnchor
             SynthesiaFrame.frameNote SynthesiaFrame.frameNotes
             recede_frameNote_eq (fun _ _ _ _ => eq_refl) recede_frameNotes_cons
             SynthesiaFrame.useFrame recede_useFrame_eq). exact Hids.
Qed.

(** X13: for notes with distinct ids, a recorded note in view stays
    recorded and is not asked for again; a note asked for becomes recorded;
    a note out of view is forgotten; and a second frame at the same time
    changes nothing. The same in both views. *)
Theorem sparkles_once_per_appearance (notes : list NoteData.t) (t : Q)
    (onSpawnSparkles : Q -> Q -> string -> Eff unit)
    (lastSpawnedNotes : gset string) (r : Refs)
    (Hids : NoDup (map NoteData.id notes)) :
  let fall := FallingNotes.useFrame notes t onSpawnSparkles lastSpawnedNotes r in
  let recede := SynthesiaFrame.useFrame notes t onSpawnSparkles lastSpawnedNotes r in
  ((forall n, n ∈ notes -> NoteData.id n ∈ lastSpawnedNotes ->
      FallingNotes.outOfView t n = false ->
      NoteData.id n ∈ fall.1
      /\ sparklesDue FallingNotes.outOfView t lastSpawnedNotes n = false)
   /\ (forall n, n ∈ notes ->
       sparklesDue FallingNotes.outOfView t lastSpawnedNotes n = true ->
       NoteData.id n ∈ fall.1)
   /\ (forall n, n ∈ notes -> FallingNotes.outOfView t n = true ->
       NoteData.id n ∉ fall.1)
   /\ FallingNotes.useFrame notes t onSpawnSparkles fall.1 fall.2 = fall)
  /\ ((forall n, n ∈ notes -> NoteData.id n ∈ lastSpawnedNotes ->
      SynthesiaFallingNotes.outOfView t n = false ->
      NoteData.id n ∈ recede.1
      /\ sparklesDue SynthesiaFallingNotes.outOfView t lastSpawnedNotes n = false)
   /\ (forall n, n ∈ notes ->
       sparklesDue SynthesiaFallingNotes.outOfView t lastSpawnedNotes n = true ->
       NoteData.id n ∈ recede.1)
   /\ (forall n, n ∈ notes -> SynthesiaFallingNotes.outOfView t n = true ->
       NoteData.id n ∉ recede.1)
   /\ SynthesiaFrame.useFrame notes t onSpawnSparkles recede.1 recede.2 = recede).
Proof.
  intros fall recede. split.
  - pose proof (useFrame_once FallingNotes.outOfView fallAnchor
             FallingNotes.frameNote FallingNotes.frameNotes
             fall_frameNote_eq (fun _ _ _ _ => eq_refl) fall_frameNotes_cons
             FallingNotes.useFrame fall_useFrame_eq
             notes t onSpawnSparkles lastSpawnedNotes r Hids) as H.
    cbv zeta in H. fold fall in H. destruct H as (Ha & Hb & Hc & Hd).
    repeat split; try assumption; try (apply Ha; assumption).
    rewrite Hd. destruct fall. reflexivity.
  - pose proof (useFrame_once SynthesiaFallingNotes.outOfView recedeAnchor
             SynthesiaFrame.frameNote SynthesiaFrame.frameNotes
             recede_frameNote_eq (fun _ _ _ _ => eq_refl) recede_frameNotes_cons
             SynthesiaFrame.useFrame recede_useFrame_eq
             notes t onSpawnSparkles lastSpawnedNotes r Hids) as H.
    cbv zeta in H. fold recede in H. destruct H as (Ha & Hb & Hc & Hd).
    repeat split; try assumption; try (apply Ha; assumption).
    rewrite Hd. destruct recede. reflexivity.
Qed.

End TrackingViews.

Lemma sampleNote_ids : NoDup (map NoteData.id [sampleNote 60 1.0 1.0]).
Proof. apply NoDup_singleton. Qed.

Lemma sparkles_per_frame_witness :
  FallingNotes.useFrame [sampleNote 60 1.0 1.0] 0 (PianoScene.spawnSparkles sampleJs)
    ∅ emptyRefs
  = ((∅ ∩ idsOf (List.filter (fun n => negb (FallingNotes.outOfView 0 n))
                   [sampleNote 60 1.0 1.0]))
     ∪ idsOf (List.filter (sparklesDue FallingNotes.outOfView 0 ∅)
                [sampleNote 60 1.0 1.0]),
     sparkleCalls fallAnchor 0 (PianoScene.spawnSparkles sampleJs)
       (List.filter (sparklesDue FallingNotes.outOfView 0 ∅) [sampleNote 60 1.0 1.0])
       emptyRefs).
Proof.
  exact (proj1 (sparkles_per_frame [sampleNote 60 1.0 1.0] 0
                  (PianoScene.spawnSparkles sampleJs) ∅ emptyRefs sampleNote_ids)).
Defined.

Lemma sparkles_once_per_appearance_witness :
  let fall := FallingNotes.useFrame [sampleNote 60 1.0 1.0] 0
                (PianoScene.spawnSparkles sampleJs) ∅ emptyRefs in
  FallingNotes.useFrame [sampleNote 60 1.0 1.0] 0
    (PianoScene.spawnSparkles sampleJs) fall.1 fall.2 = fall.
Proof.
  exact (proj2 (proj2 (proj2 (proj1
    (sparkles_once_per_appearance [sampleNote 60 1.0 1.0] 0
       (PianoScene.spawnSparkles sampleJs) ∅ emptyRefs sampleNote_ids))))).
Defined.

(** ** The instance buffer *)

Section FrameBounds.

Local Open Scope Q_scope.

Variable dt : Q.

Lemma lastN_short {A : Type} (n : nat) (l : list A) :
  (length l <= n)%nat -> lastN n l = l.
Proof. intros H. unfold lastN. replace (length l - n)%nat with O by lia. reflexivity. Qed.

Lemma lastN_cons_full {A : Type} (n : nat) (a : A) (l : list A) :
  (n <= length l)%nat -> lastN n (a :: l) = lastN n l.
Proof.
  intros H. unfold lastN. simpl length.
  replace (S (length l) - n)%nat with (S (length l - n)) by lia. reflexivity.
Qed.

Lemma lastN_length {A : Type} (n : nat) (l : list A) :
  length (lastN n l) = Nat.min n (length l).
Proof. unfold lastN. rewrite length_drop. lia. Qed.

Lemma particle_frame_any (particles : list Particle.t) :
  let '(kept, instances, activeCount) := ParticleSystem.advance dt particles in
  let survivors := List.filter (fun p => negb (particleFades dt p)) particles in
  activeCount = Z.of_nat (length kept)
  /\ Forall2 (particleAdvanced dt) (lastN (Z.to_nat ParticleSystem.COUNT) survivors) kept
  /\ Forall2 particleDrawn (rev kept) instances.
Proof.
  unfold ParticleSystem.advance, ParticleSystem.COUNT.
  induction particles as [|p rest IH].
  - simpl. repeat split; constructor.
  - simpl foldr. simpl List.filter.
    destruct (foldr (ParticleSystem.step dt) ([], [], 0%Z) rest)
      as [[kept instances] activeCount].
    destruct IH as (Hc & Hadv & Hdrawn).
    pose proof (Forall2_length _ _ _ Hadv) as Hlen. rewrite lastN_length in Hlen.
    unfold ParticleSystem.step, particleFades at 1.
    destruct (Particle.life p - dt * 1.2 <=? 0) eqn:Elife; simpl negb; cbv iota.
    + auto.
    + destruct (activeCount >=? ParticleSystem.COUNT)%Z eqn:Efull.
      * rewrite Z.geb_leb in Efull. apply Z.leb_le in Efull.
        unfold ParticleSystem.COUNT in Efull.
        split; [exact Hc|]. split; [|exact Hdrawn].
        rewrite lastN_cons_full; [exact Hadv|]. lia.
      * rewrite Z.geb_leb in Efull. apply Z.leb_gt in Efull.
        unfold ParticleSystem.COUNT in Efull.
        split; [simpl; lia|]. split.
        -- rewrite lastN_short in Hadv by lia.
           rewrite lastN_short by (simpl; lia).
           constructor; [|exact Hadv].
           unfold particleAdvanced, accelerated, moved. simpl. repeat split; reflexivity.
        -- simpl rev. apply Forall2_app; [exact Hdrawn|].
           constructor; [|constructor]. unfold particleDrawn. simpl.
           repeat split; reflexivity.
Qed.

Lemma sparkle_frame_any (sparkles : list Sparkle.t) :
  let '(kept, instances, activeCount) := SparkleSystem.advance dt sparkles in
  let survivors := List.filter (fun s => negb (sparkleFades dt s)) sparkles in
  activeCount = Z.of_nat (length kept)
  /\ Forall2 (sparkleAdvanced dt) (lastN (Z.to_nat SparkleSystem.COUNT) survivors) kept
  /\ Forall2 sparkleDrawn (rev kept) instances.
Proof.
  unfold SparkleSystem.advance, SparkleSystem.COUNT.
  induction sparkles as [|s rest IH].
  - simpl. repeat split; constructor.
  - simpl foldr. simpl List.filter.
    destruct (foldr (SparkleSystem.step dt) ([], [], 0%Z) rest)
      as [[kept instances] activeCount].
    destruct IH as (Hc & Hadv & Hdrawn).
    pose proof (Forall2_length _ _ _ Hadv) as Hlen. rewrite lastN_length in Hlen.
    unfold SparkleSystem.step, sparkleFades at 1.
    destruct (Sparkle.life s - dt * 1.5 <=? 0) eqn:Elife; simpl negb; cbv iota.
    + auto.
    + destruct (activeCount >=? SparkleSystem.COUNT)%Z eqn:Efull.
      * rewrite Z.geb_leb in Efull. apply Z.leb_le in Efull.
        unfold SparkleSystem.COUNT in Efull.
        split; [exact Hc|]. split; [|exact Hdrawn].
        rewrite lastN_cons_full; [exact Hadv|]. lia.
      * rewrite Z.geb_leb in Efull. apply Z.leb_gt in Efull.
        unfold SparkleSystem.COUNT in Efull.
        split; [simpl; lia|]. split.
        -- rewrite lastN_short in Hadv by lia.
           rewrite lastN_short by (simpl; lia).
           constructor; [|exact Hadv].
           unfold sparkleAdvanced, accelerated, moved. simpl. repeat split; reflexivity.
        -- simpl rev. apply Forall2_app; [exact Hdrawn|].
           constructor; [|constructor]. unfold sparkleDrawn. simpl.
           repeat split; reflexivity.
Qed.

(** X14: whatever the size of a pool, a frame draws as many
    instances as it keeps members, never more than the buffer holds (1000
    particles, 500 sparkles) nor than the pool had; the members kept are the
    last ones that survive the step, advanced by it. *)
Theorem frame_fits_the_instance_buffer
    (particles : list Particle.t) (sparkles : list Sparkle.t) :
  (let '(kept, instances, activeCount) := ParticleSystem.advance dt particles in
   activeCount = Z.of_nat (length kept)
   /\ length instances = length kept
   /\ (activeCount <= ParticleSystem.COUNT)%Z
   /\ (length kept <= length particles)%nat
   /\ Forall2 (particleAdvanced dt)
        (lastN 1000 (List.filter (fun p => negb (particleFades dt p)) particles))
        kept)
  /\ (let '(kept, instances, activeCount) := SparkleSystem.advance dt sparkles in
      activeCount = Z.of_nat (length kept)
      /\ length instances = length kept
      /\ (activeCount <= SparkleSystem.COUNT)%Z
      /\ (length kept <= length sparkles)%nat
      /\ Forall2 (sparkleAdvanced dt)
           (lastN 500 (List.filter (fun s => negb (sparkleFades dt s)) sparkles))
           kept).
Proof.
  split.
  - pose proof (particle_frame_any particles) as H.
    destruct (ParticleSystem.advance dt particles) as [[kept instances] activeCount].
    destruct H as (Hc & Hadv & Hdrawn).
    pose proof (Forall2_length _ _ _ Hadv) as Hlen. rewrite lastN_length in Hlen.
    pose proof (Forall2_length _ _ _ Hdrawn) as Hlen'. rewrite length_rev in Hlen'.
    pose proof (filter_length (fun p => negb (particleFades dt p)) particles) as Hf.
    unfold ParticleSystem.COUNT in *. change (Z.to_nat 1000) with 1000%nat in *.
    repeat split; try assumption; lia.
  - pose proof (sparkle_frame_any sparkles) as H.
    destruct (SparkleSystem.advance dt sparkles) as [[kept instances] activeCount].
    destruct H as (Hc & Hadv & Hdrawn).
    pose proof (Forall2_length _ _ _ Hadv) as Hlen. rewrite lastN_length in Hlen.
    pose proof (Forall2_length _ _ _ Hdrawn) as Hlen'. rewrite length_rev in Hlen'.
    pose proof (filter_length (fun s => negb (sparkleFades dt s)) sparkles) as Hf.
    unfold SparkleSystem.COUNT in *. change (Z.to_nat 500) with 500%nat in *.
    repeat split; try assumption; lia.
Qed.

End FrameBounds.

(** ** Splitting a frame *)

Section FrameSplit.

Local Open Scope Q_scope.

Lemma Forall2_filter_both {A B : Type} (R : A -> B -> Prop)
    (P : A -> bool) (P' : B -> bool) (l : list A) (l' : list B) :
  (forall a b, R a b -> P a = P' b) ->
  Forall2 R l l' -> Forall2 R (List.filter P l) (List.filter P' l').
Proof.
  intros Hsame H. induction H as [|a b l l' Hab Hl IH]; simpl; [constructor|].
  rewrite <- (Hsame a b Hab). destruct (P a); [constructor; assumption | assumption].
Qed.

Lemma Forall2_join {A B C : Type} (R : A -> B -> Prop) (S : A -> C -> Prop)
    (l : list A) (lb : list B) (lc : list C) :
  Forall2 R l lb -> Forall2 S l lc ->
  Forall2 (fun b c => exists a, R a b /\ S a c) lb lc.
Proof.
  intros H. revert lc. induction H as [|a b l lb Hab Hl IH]; intros lc Hc.
  - inversion Hc. constructor.
  - inversion Hc as [|? c ? lc' Hac Hc']; subst. constructor; eauto.
Qed.

Lemma Forall2_chain {A B C : Type} (R : A -> B -> Prop) (S : B -> C -> Prop)
    (l : list A) (lb : list B) (lc : list C) :
  Forall2 R l lb -> Forall2 S lb lc ->
  Forall2 (fun a c => exists b, R a b /\ S b c) l lc.
Proof.
  intros H. revert lc. induction H as [|a b l lb Hab Hl IH]; intros lc Hc.
  - inversion Hc. constructor.
  - inversion Hc as [|? c ? lc' Hbc Hc']; subst. constructor; eauto.
Qed.

Lemma filter_implied {A : Type} (P P' : A -> bool) (l : list A) :
  (forall a, P a = true -> P' a = true) ->
  List.filter P (List.filter P' l) = List.filter P l.
Proof.
  intros H. induction l as [|a l IH]; simpl; [reflexivity|].
  destruct (P' a) eqn:E'; simpl.
  - rewrite IH. reflexivity.
  - rewrite IH. destruct (P a) eqn:E; [|reflexivity].
    rewrite (H a E) in E'. discriminate.
Qed.

Lemma particlesAfter_shape (dt : Q) (particles : list Particle.t) :
  (length particles <= 1000)%nat ->
  Forall2 (particleAdvanced dt)
    (List.filter (fun p => negb (particleFades dt p)) particles)
    (particlesAfter dt particles)
  /\ (length (particlesAfter dt particles) <= length particles)%nat.
Proof.
  intros Hlen. unfold particlesAfter.
  pose proof (particle_advance_shape dt particles Hlen) as H.
  destruct (ParticleSystem.advance dt particles) as [[kept instances] activeCount].
  simpl. tauto.
Qed.

Lemma sparklesAfter_shape (dt : Q) (sparkles : list Sparkle.t) :
  (length sparkles <= 500)%nat ->
  Forall2 (sparkleAdvanced dt)
    (List.filter (fun s => negb (sparkleFades dt s)) sparkles)
    (sparklesAfter dt sparkles)
  /\ (length (sparklesAfter dt sparkles) <= length sparkles)%nat.
Proof.
  intros Hlen. unfold sparklesAfter.
  pose proof (sparkle_advance_shape dt sparkles Hlen) as H.
  destruct (SparkleSystem.advance dt sparkles) as [[kept instances] activeCount].
  simpl. tauto.
Qed.

(** X15: for pools within their buffers, a frame of [dt1 + dt2] and
    a frame of [dt1] followed by one of [dt2 >= 0] keep the same members with
    the same life, velocity, [x] and [z]; the two frames leave each particle
    [20 * dt1 * dt2] higher, each sparkle [5 * dt1 * dt2]. *)
Theorem split_frame_raises_members (dt1 dt2 : Q)
    (particles : list Particle.t) (sparkles : list Sparkle.t)
    (Hdt : 0 <= dt2)
    (Hparticles : (length particles <= 1000)%nat)
    (Hsparkles : (length sparkles <= 500)%nat) :
  Forall2 (particleSplit dt1 dt2)
    (particlesAfter (dt1 + dt2) particles)
    (particlesAfter dt2 (particlesAfter dt1 particles))
  /\ Forall2 (sparkleSplit dt1 dt2)
       (sparklesAfter (dt1 + dt2) sparkles)
       (sparklesAfter dt2 (sparklesAfter dt1 sparkles)).
Proof.
  split.
  - destruct (particlesAfter_shape (dt1 + dt2) particles Hparticles) as [Hone _].
    destruct (particlesAfter_shape dt1 particles Hparticles) as [H1 Hl1].
    destruct (particlesAfter_shape dt2 (particlesAfter dt1 particles) ltac:(lia)) as [H2 _].
    set (alive12 := fun p : Particle.t => negb (particleFades (dt1 + dt2) p)) in *.
    set (alive1 := fun p : Particle.t => negb (particleFades dt1 p)) in *.
    set (alive2 := fun p : Particle.t => negb (particleFades dt2 p)) in *.
    assert (Hfilt : Forall2 (particleAdvanced dt1)
                      (List.filter alive12 particles)
                      (List.filter alive2 (particlesAfter dt1 particles))).
    { rewrite <- (filter_implied alive12 alive1).
      - apply Forall2_filter_both; [|exact H1].
        intros a b (Hlife & _). unfold alive12, alive2, particleFades. f_equal.
        apply Qleb_same; [rewrite Hlife; ring | reflexivity].
      - intros a. unfold alive12, alive1, particleFades.
        rewrite !negb_true_iff, !Qleb_gt. lra. }
    pose proof (Forall2_chain _ _ _ _ _ Hfilt H2) as Htwo.
    pose proof (Forall2_join _ _ _ _ _ Hone Htwo) as Hboth.
    eapply Forall2_impl; [exact Hboth|].
    intros one two (p & A12 & p1 & A1 & A2).
    destruct A12 as (L12 & (Vx12 & Vy12 & Vz12) & (Px12 & Py12 & Pz12) & M12 & S12 & C12).
    destruct A1 as (L1 & (Vx1 & Vy1 & Vz1) & (Px1 & Py1 & Pz1) & M1 & S1 & C1).
    destruct A2 as (L2 & (Vx2 & Vy2 & Vz2) & (Px2 & Py2 & Pz2) & M2 & S2 & C2).
    unfold particleSplit, sameVector.
    split; [rewrite L2, L1, L12; ring|].
    split; [split; [rewrite Vx2, Vx1, Vx12; reflexivity|
            split; [rewrite Vy2, Vy1, Vy12; ring | rewrite Vz2, Vz1, Vz12; reflexivity]]|].
    split; [rewrite Px2, Px1, Px12, Vx2, Vx1, Vx12; ring|].
    split; [rewrite Py2, Py1, Py12, Vy2, Vy1, Vy12; ring|].
    split; [rewrite Pz2, Pz1, Pz12, Vz2, Vz1, Vz12; ring|].
    split; [congruence|]. split; congruence.
  - destruct (sparklesAfter_shape (dt1 + dt2) sparkles Hsparkles) as [Hone _].
    destruct (sparklesAfter_shape dt1 sparkles Hsparkles) as [H1 Hl1].
    destruct (sparklesAfter_shape dt2 (sparklesAfter dt1 sparkles) ltac:(lia)) as [H2 _].
    set (alive12 := fun s : Sparkle.t => negb (sparkleFades (dt1 + dt2) s)) in *.
    set (alive1 := fun s : Sparkle.t => negb (sparkleFades dt1 s)) in *.
    set (alive2 := fun s : Sparkle.t => negb (sparkleFades dt2 s)) in *.
    assert (Hfilt : Forall2 (sparkleAdvanced dt1)
                      (List.filter alive12 sparkles)
                      (List.filter alive2 (sparklesAfter dt1 sparkles))).
    { rewrite <- (filter_implied alive12 alive1).
      - apply Forall2_filter_both; [|exact H1].
        intros a b (Hlife & _). unfold alive12, alive2, sparkleFades. f_equal.
        apply Qleb_same; [rewrite Hlife; ring | reflexivity].
      - intros a. unfold alive12, alive1, sparkleFades.
        rewrite !negb_true_iff, !Qleb_gt. lra. }
    pose proof (Forall2_chain _ _ _ _ _ Hfilt H2) as Htwo.
    pose proof (Forall2_join _ _ _ _ _ Hone Htwo) as Hboth.
    eapply Forall2_impl; [exact Hboth|].
    intros one two (p & A12 & p1 & A1 & A2).
    destruct A12 as (L12 & R12 & (Vx12 & Vy12 & Vz12) & (Px12 & Py12 & Pz12) & M12 & S12 & W12 & C12).
    destruct A1 as (L1 & R1 & (Vx1 & Vy1 & Vz1) & (Px1 & Py1 & Pz1) & M1 & S1 & W1 & C1).
    destruct A2 as (L2 & R2 & (Vx2 & Vy2 & Vz2) & (Px2 & Py2 & Pz2) & M2 & S2 & W2 & C2).
    unfold sparkleSplit, sameVector.
    split; [rewrite L2, L1, L12; ring|].
    split; [rewrite R2, R1, R12, W1; ring|].
    split; [split; [rewrite Vx2, Vx1, Vx12; reflexivity|
            split; [rewrite Vy2, Vy1, Vy12; ring | rewrite Vz2, Vz1, Vz12; reflexivity]]|].
    split; [rewrite Px2, Px1, Px12, Vx2, Vx1, Vx12; ring|].
    split; [rewrite Py2, Py1, Py12, Vy2, Vy1, Vy12; ring|].
    split; [rewrite Pz2, Pz1, Pz12, Vz2, Vz1, Vz12; ring|].
    split; [congruence|]. split; congruence.
Qed.

End FrameSplit.

Lemma split_frame_raises_members_witness :
  Forall2 (particleSplit 0.25 0.25)
    (particlesAfter (0.25 + 0.25) [sampleParticle 1.0])
    (particlesAfter 0.25 (particlesAfter 0.25 [sampleParticle 1.0])).
Proof.
  apply (split_frame_raises_members 0.25 0.25 [sampleParticle 1.0] []).
  - discriminate.
  - simpl. lia.
  - simpl. lia.
Defined.

(** ** Members of the pools over a run *)

Section Soundness.

Context (js : JsEnv) (Hrandom : randomInRange js).

Local Open Scope Q_scope.

Lemma forN_membersSound (body : Eff unit) :
  (forall r, membersSound r -> membersSound (exec body r)) ->
  forall n r, membersSound r -> membersSound (exec (forN n body) r).
Proof.
  intros Hbody. induction n as [|n IH]; intros r Hr; [exact Hr|].
  unfold exec in *. simpl. unfold bind. specialize (Hbody r Hr).
  destruct (body r) as [[] r1]. simpl in Hbody. apply IH. exact Hbody.
Qed.

Lemma fall_newParticle_sound x color r :
  membersSound r -> membersSound (exec (PianoScene.newParticle js x color) r).
Proof.
  intros [Hp Hs]. split; [|exact Hs]. simpl.
  apply Forall_app. split; [exact Hp|]. constructor; [|constructor].
  unfold particleSound. simpl.
  pose proof (Hrandom (S (S (drawn r)))) as [H1 H2].
  pose proof (Hrandom (S (S (S (S (drawn r)))))) as [H3 H4].
  repeat split; lra.
Qed.

Lemma recede_newParticle_sound x color r :
  membersSound r -> membersSound (exec (SynthesiaScene.newParticle js x color) r).
Proof.
  intros [Hp Hs]. split; [|exact Hs]. simpl.
  apply Forall_app. split; [exact Hp|]. constructor; [|constructor].
  unfold particleSound. simpl.
  pose proof (Hrandom (S (S (drawn r)))) as [H1 H2].
  pose proof (Hrandom (S (S (S (S (drawn r)))))) as [H3 H4].
  repeat split; lra.
Qed.

Lemma fall_newSparkle_sound x y color r :
  membersSound r -> membersSound (exec (PianoScene.newSparkle js x y color) r).
Proof.
  intros [Hp Hs]. split; [exact Hp|]. simpl.
  apply Forall_app. split; [exact Hs|]. constructor; [|constructor].
  unfold sparkleSound. simpl.
  pose proof (Hrandom (S (S (S (S (S (drawn r))))))) as [H1 H2].
  repeat split; try lra; try reflexivity; discriminate.
Qed.

Lemma recede_newSparkle_sound x z color r :
  membersSound r -> membersSound (exec (SynthesiaScene.newSparkle js x z color) r).
Proof.
  intros [Hp Hs]. split; [exact Hp|]. simpl.
  apply Forall_app. split; [exact Hs|]. constructor; [|constructor].
  unfold sparkleSound. simpl.
  pose proof (Hrandom (S (S (S (S (drawn r)))))) as [H1 H2].
  repeat split; try lra; try reflexivity; discriminate.
Qed.

Lemma spawn_membersSound (call : SpawnCall) (r : Refs) :
  membersSound r -> membersSound (exec (spawn js call) r).
Proof.
  intros Hr. destruct call as [x c|x y c|x c|x z c]; simpl.
  - unfold exec, PianoScene.spawnParticles, bind, particlesLength.
    destruct (_ <=? 0)%Z; [exact Hr|].
    apply (forN_membersSound _ (fall_newParticle_sound x c)). exact Hr.
  - unfold exec, PianoScene.spawnSparkles, bind, sparklesLength.
    destruct (_ <=? 0)%Z; [exact Hr|]. cbn [random fst snd].
    apply (forN_membersSound _ (fall_newSparkle_sound x y c)). exact Hr.
  - unfold exec, SynthesiaScene.spawnParticles, bind, particlesLength.
    destruct (_ <=? 0)%Z; [exact Hr|].
    apply (forN_membersSound _ (recede_newParticle_sound x c)). exact Hr.
  - unfold exec, SynthesiaScene.spawnSparkles, bind, sparklesLength.
    destruct (_ <=? 0)%Z; [exact Hr|].
    apply (forN_membersSound _ (recede_newSparkle_sound x z c)). exact Hr.
Qed.

Lemma Forall_lastN {A : Type} (P : A -> Prop) (n : nat) (l : list A) :
  Forall P l -> Forall P (lastN n l).
Proof. unfold lastN. apply Forall_drop. Qed.

Lemma Forall_filter_alive {A : Type} (P : A -> Prop) (f : A -> bool) (l : list A) :
  Forall P l -> Forall (fun a => P a /\ f a = true) (List.filter f l).
Proof.
  induction 1 as [|a l Ha Hl IH]; simpl; [constructor|].
  destruct (f a) eqn:E; [constructor; auto | exact IH].
Qed.

Lemma Forall2_transfer {A B : Type} (R : A -> B -> Prop) (P : A -> Prop)
    (Q' : B -> Prop) (l : list A) (l' : list B) :
  (forall a b, P a -> R a b -> Q' b) ->
  Forall P l -> Forall2 R l l' -> Forall Q' l'.
Proof.
  intros H HP HR. induction HR as [|a b l l' Hab Hl IH]; [constructor|].
  inversion HP; subst. constructor; eauto.
Qed.

Lemma particle_survivor_sound (delta : Q) (p k : Particle.t) :
  0 <= delta ->
  particleSound p /\ negb (particleFades delta p) = true ->
  particleAdvanced delta p k -> particleSound k.
Proof.
  intros Hd [(H1 & H2 & H3 & H4 & H5 & H6) Ha] (L & _ & _ & M & S & _).
  unfold particleFades in Ha. apply negb_true_iff, Qleb_gt in Ha.
  unfold particleSound. rewrite L, M, S. repeat split; lra.
Qed.

Lemma sparkle_survivor_sound (delta : Q) (s k : Sparkle.t) :
  0 <= delta ->
  sparkleSound s /\ negb (sparkleFades delta s) = true ->
  sparkleAdvanced delta s k -> sparkleSound k.
Proof.
  intros Hd [(H1 & H2 & H3 & H4 & H5) Ha] (L & _ & _ & _ & M & S & _).
  unfold sparkleFades in Ha. apply negb_true_iff, Qleb_gt in Ha.
  unfold sparkleSound. rewrite L, M, S. repeat split; lra.
Qed.

Lemma particle_frame_sound (mounted : bool) (delta : Q) (r : Refs) :
  0 <= delta -> membersSound r ->
  membersSound (exec (ParticleSystem.useFrame mounted delta) r).
Proof.
  intros Hd [Hp Hs]. unfold exec, ParticleSystem.useFrame.
  destruct mounted; simpl; [|split; assumption].
  pose proof (particle_frame_any delta (particlesRef r)) as H.
  destruct (ParticleSystem.advance delta (particlesRef r)) as [[kept inst] ac].
  destruct H as (_ & Hadv & _). split; [|exact Hs]. simpl.
  eapply Forall2_transfer; [|apply Forall_lastN, Forall_filter_alive, Hp|exact Hadv].
  intros a b Ha Hab. exact (particle_survivor_sound delta a b Hd Ha Hab).
Qed.

Lemma sparkle_frame_sound (mounted : bool) (delta : Q) (r : Refs) :
  0 <= delta -> membersSound r ->
  membersSound (exec (SparkleSystem.useFrame mounted delta) r).
Proof.
  intros Hd [Hp Hs]. unfold exec, SparkleSystem.useFrame.
  destruct mounted; simpl; [|split; assumption].
  pose proof (sparkle_frame_any delta (sparklesRef r)) as H.
  destruct (SparkleSystem.advance delta (sparklesRef r)) as [[kept inst] ac].
  destruct H as (_ & Hadv & _). split; [exact Hp|]. simpl.
  eapply Forall2_transfer; [|apply Forall_lastN, Forall_filter_alive, Hs|exact Hadv].
  intros a b Ha Hab. exact (sparkle_survivor_sound delta a b Hd Ha Hab).
Qed.

Lemma played_membersSound (r : Refs) : Played js r -> membersSound r.
Proof.
  induction 1 as [|r r' Hr IH Htick].
  - split; constructor.
  - destruct Htick as [call r|mounted delta r Hd|mounted delta r Hd].
    + apply spawn_membersSound, IH.
    + apply particle_frame_sound; assumption.
    + apply sparkle_frame_sound; assumption.
Qed.

Lemma scale_in_range (size life maxLife : Q) :
  0 < life -> life <= maxLife -> 0 < size ->
  0 < size * (life / maxLife) /\ size * (life / maxLife) <= size.
Proof.
  intros Hl Hm Hs.
  assert (Hpos : 0 < maxLife) by lra.
  assert (Hq : 0 < life / maxLife) by (apply Qlt_shift_div_l; lra).
  assert (Hq1 : life / maxLife <= 1) by (apply Qle_shift_div_r; lra).
  split.
  - apply Qmult_lt_0_compat; assumption.
  - rewrite <- (Qmult_1_r size) at 2. apply Qmult_le_l; assumption.
Qed.

(** X16: with [Math.random] in [[0, 1)], after any run of spawn
    requests and frames with [delta >= 0] every particle has
    [0 < life <= maxLife], [0.8 <= maxLife < 1.5] and [0.2 <= size < 0.4],
    every sparkle [0 < life <= maxLife = 1] and [0.1 <= size < 0.25]; so the
    next frame draws every instance with a scale in [(0, 0.4)], [(0, 0.25)]
    for sparkles. *)
Theorem pool_members_stay_sound (r : Refs) (Hplayed : Played js r) :
  Forall particleSound (particlesRef r)
  /\ Forall sparkleSound (sparklesRef r)
  /\ (forall (delta : Q) (instances : list Instance.t) (count : Z) (r' : Refs),
        0 <= delta ->
        ParticleSystem.useFrame true delta r = (Some (instances, count), r') ->
        Forall (fun i => 0 < Instance.scale i /\ Instance.scale i < 0.4) instances)
  /\ (forall (delta : Q) (instances : list Instance.t) (count : Z) (r' : Refs),
        0 <= delta ->
        SparkleSystem.useFrame true delta r = (Some (instances, count), r') ->
        Forall (fun i => 0 < Instance.scale i /\ Instance.scale i < 0.25) instances).
Proof.
  destruct (played_membersSound r Hplayed) as [Hp Hs].
  split; [exact Hp|]. split; [exact Hs|]. split.
  - intros delta instances count r' Hd Hrun.
    pose proof (particle_frame_sound true delta r Hd (conj Hp Hs)) as [Hp' _].
    unfold exec in Hp'. rewrite Hrun in Hp'. simpl in Hp'.
    unfold ParticleSystem.useFrame in Hrun. simpl in Hrun.
    pose proof (particle_frame_any delta (particlesRef r)) as H.
    destruct (ParticleSystem.advance delta (particlesRef r)) as [[kept inst] ac].
    destruct H as (_ & _ & Hdrawn). injection Hrun as <- _ <-. simpl in Hp'.
    eapply Forall2_transfer; [|apply Forall_rev, Hp'|exact Hdrawn].
    intros p i (H1 & H2 & H3 & H4 & H5 & H6) (Hscale & _).
    destruct (scale_in_range (Particle.size p) (Particle.life p) (Particle.maxLife p))
      as [Ha Hb]; lra.
  - intros delta instances count r' Hd Hrun.
    pose proof (sparkle_frame_sound true delta r Hd (conj Hp Hs)) as [_ Hs'].
    unfold exec in Hs'. rewrite Hrun in Hs'. simpl in Hs'.
    unfold SparkleSystem.useFrame in Hrun. simpl in Hrun.
    pose proof (sparkle_frame_any delta (sparklesRef r)) as H.
    destruct (SparkleSystem.advance delta (sparklesRef r)) as [[kept inst] ac].
    destruct H as (_ & _ & Hdrawn). injection Hrun as <- _ <-. simpl in Hs'.
    eapply Forall2_transfer; [|apply Forall_rev, Hs'|exact Hdrawn].
    intros s i (H1 & H2 & H3 & H4 & H5) (Hscale & _).
    destruct (scale_in_range (Sparkle.size s) (Sparkle.life s) (Sparkle.maxLife s))
      as [Ha Hb]; lra.
Qed.

End Soundness.

(** ** Idle pools and spawn counts *)

Lemma sampleJs_randomInRange : randomInRange sampleJs.
Proof.
  intros k. simpl.
  assert (H : (0 <= Z.of_nat (k mod 10) < 10)%Z).
  { pose proof (Nat.mod_upper_bound k 10). lia. }
  split.
  - apply Qle_shift_div_l; [reflexivity|].
    rewrite Qmult_0_l. rewrite <- (Zle_Qle 0). lia.
  - apply Qlt_shift_div_r; [reflexivity|].
    rewrite Qmult_1_l. rewrite <- (Zlt_Qlt _ 10). lia.
Qed.

Section Idle.

Local Open Scope Q_scope.

Lemma particle_frame_ref (delta : Q) (r : Refs) :
  particlesRef (exec (ParticleSystem.useFrame true delta) r)
  = particlesAfter delta (particlesRef r)
  /\ sparklesRef (exec (ParticleSystem.useFrame true delta) r) = sparklesRef r.
Proof.
  unfold exec, ParticleSystem.useFrame, particlesAfter. simpl.
  destruct (ParticleSystem.advance delta (particlesRef r)) as [[kept inst] ac].
  split; reflexivity.
Qed.

Lemma sparkle_frame_ref (delta : Q) (r : Refs) :
  sparklesRef (exec (SparkleSystem.useFrame true delta) r)
  = sparklesAfter delta (sparklesRef r)
  /\ particlesRef (exec (SparkleSystem.useFrame true delta) r) = particlesRef r.
Proof.
  unfold exec, SparkleSystem.useFrame, sparklesAfter. simpl.
  destruct (SparkleSystem.advance delta (sparklesRef r)) as [[kept inst] ac].
  split; reflexivity.
Qed.

Lemma particlesAfter_bound (delta bound : Q) (particles : list Particle.t) :
  Forall (fun p => Particle.life p <= bound) particles ->
  Forall (fun p => 0 < Particle.life p /\ Particle.life p <= bound - delta * 1.2)
    (particlesAfter delta particles).
Proof.
  intros Hb. unfold particlesAfter.
  pose proof (particle_frame_any delta particles) as H.
  destruct (ParticleSystem.advance delta particles) as [[kept inst] ac].
  destruct H as (_ & Hadv & _). simpl.
  eapply Forall2_transfer;
    [|apply Forall_lastN, Forall_filter_alive, Hb|exact Hadv].
  intros a b [Ha Halive] (L & _).
  unfold particleFades in Halive. apply negb_true_iff, Qleb_gt in Halive.
  simpl in Ha. rewrite L. split; lra.
Qed.

Lemma sparklesAfter_bound (delta bound : Q) (sparkles : list Sparkle.t) :
  Forall (fun s => Sparkle.life s <= bound) sparkles ->
  Forall (fun s => 0 < Sparkle.life s /\ Sparkle.life s <= bound - delta * 1.5)
    (sparklesAfter delta sparkles).
Proof.
  intros Hb. unfold sparklesAfter.
  pose proof (sparkle_frame_any delta sparkles) as H.
  destruct (SparkleSystem.advance delta sparkles) as [[kept inst] ac].
  destruct H as (_ & Hadv & _). simpl.
  eapply Forall2_transfer;
    [|apply Forall_lastN, Forall_filter_alive, Hb|exact Hadv].
  intros a b [Ha Halive] (L & _).
  unfold sparkleFades in Halive. apply negb_true_iff, Qleb_gt in Halive.
  simpl in Ha. rewrite L. split; lra.
Qed.

Lemma Forall_weaken {A : Type} (P P' : A -> Prop) (l : list A) :
  (forall a, P a -> P' a) -> Forall P l -> Forall P' l.
Proof. intros H. induction 1; constructor; auto. Qed.

Lemma idleFrames_particles (deltas : list Q) :
  forall (r : Refs) (bound : Q),
    Forall (fun p => 0 < Particle.life p /\ Particle.life p <= bound) (particlesRef r) ->
    bound <= elapsed deltas * 1.2 ->
    particlesRef (idleFrames deltas r) = [].
Proof.
  induction deltas as [|delta rest IH]; intros r bound Hb Hsum; simpl in *.
  - destruct (particlesRef r) as [|p ps]; [reflexivity|].
    inversion Hb as [|? ? [H1 H2] _]; subst. lra.
  - apply (IH _ (bound - delta * 1.2)).
    + rewrite (proj2 (sparkle_frame_ref _ _)), (proj1 (particle_frame_ref _ _)).
      apply particlesAfter_bound.
      eapply Forall_weaken; [|exact Hb]. intros a [_ Ha]. exact Ha.
    + lra.
Qed.

Lemma idleFrames_sparkles (deltas : list Q) :
  forall (r : Refs) (bound : Q),
    Forall (fun s => 0 < Sparkle.life s /\ Sparkle.life s <= bound) (sparklesRef r) ->
    bound <= elapsed deltas * 1.5 ->
    sparklesRef (idleFrames deltas r) = [].
Proof.
  induction deltas as [|delta rest IH]; intros r bound Hb Hsum; simpl in *.
  - destruct (sparklesRef r) as [|p ps]; [reflexivity|].
    inversion Hb as [|? ? [H1 H2] _]; subst. lra.
  - apply (IH _ (bound - delta * 1.5)).
    + rewrite (proj1 (sparkle_frame_ref _ _)), (proj2 (particle_frame_ref _ _)).
      apply sparklesAfter_bound.
      eapply Forall_weaken; [|exact Hb]. intros a [_ Ha]. exact Ha.
    + lra.
Qed.

(** X17: after such a run, frames in which nothing is spawned empty
    the particle pool once their steps add up to 1.25 s, and the sparkle pool
    once they add up to 2/3 s. *)
Theorem idle_pools_run_empty (js : JsEnv) (r : Refs) (deltas : list Q)
    (Hrandom : randomInRange js) (Hplayed : Played js r) :
  (1.25 <= elapsed deltas -> particlesRef (idleFrames deltas r) = [])
  /\ (2 / 3 <= elapsed deltas -> sparklesRef (idleFrames deltas r) = []).
Proof.
  destruct (played_membersSound js Hrandom r Hplayed) as [Hp Hs]. split; intros Hsum.
  - apply (idleFrames_particles deltas r 1.5); [|lra].
    eapply Forall_weaken; [|exact Hp].
    intros p (H1 & H2 & H3 & H4 & _). split; lra.
  - apply (idleFrames_sparkles deltas r 1); [|].
    + eapply Forall_weaken; [|exact Hs].
      intros s (H1 & H2 & H3 & _). split; lra.
    + assert (H : 2 / 3 * 1.5 == 1) by reflexivity. nra.
Qed.

End Idle.

Lemma pool_members_stay_sound_witness :
  Forall particleSound
    (particlesRef (exec (spawn sampleJs (FallParticles 0 COLORS.cyan)) emptyRefs)).
Proof.
  exact (proj1 (pool_members_stay_sound sampleJs sampleJs_randomInRange _
                  (played_tick _ _ _ (played_init _) (tick_spawn _ _ _)))).
Defined.

Lemma idle_pools_run_empty_witness :
  particlesRef
    (idleFrames [1%Q; 0.5%Q]
       (exec (spawn sampleJs (FallParticles 0 COLORS.cyan)) emptyRefs)) = [].
Proof.
  apply (proj1 (idle_pools_run_empty sampleJs _ [1%Q; 0.5%Q] sampleJs_randomInRange
                  (played_tick _ _ _ (played_init _) (tick_spawn _ _ _)))).
  vm_compute. discriminate.
Defined.

Section SpawnCounts.

Context (js : JsEnv) (Hrandom : randomInRange js).

Lemma sparkleCount_range (r : Q) :
  (0 <= r)%Q -> (r < 1)%Q -> 3 <= 3 + Qfloor (r * 3) <= 5.
Proof.
  intros H0 H1.
  assert (Hlo : 0 <= Qfloor (r * 3)).
  { change 0 with (Qfloor 0). apply Qfloor_resp_le. lra. }
  assert (Hhi : Qfloor (r * 3) < 3).
  { rewrite (Zlt_Qlt _ 3). pose proof (Qfloor_le (r * 3)) as Hf.
    change (inject_Z 3) with 3%Q. lra. }
  lia.
Qed.

(** X18: with [Math.random] in [[0, 1)], a request for particles
    that finds at least ten free slots appends exactly ten particles, in
    either scene; a request for sparkles appends three to five sparkles in
    the fall scene when five slots are free, and exactly two in the recede
    scene when two are; the other pool is left as it was. *)
Theorem spawn_counts_with_room (r : Refs) (x y z : Q) (color : string) :
  ((length (particlesRef r) <= 490)%nat ->
     pushed 10 0 r (exec (PianoScene.spawnParticles js x color) r)
     /\ pushed 10 0 r (exec (SynthesiaScene.spawnParticles js x color) r))
  /\ ((length (sparklesRef r) <= 495)%nat ->
        exists n : nat, (3 <= n <= 5)%nat
          /\ pushed 0 n r (exec (PianoScene.spawnSparkles js x y color) r))
  /\ ((length (sparklesRef r) <= 498)%nat ->
        pushed 0 2 r (exec (SynthesiaScene.spawnSparkles js x z color) r)).
Proof.
  split; [|split].
  - intros Hroom. split.
    + pose proof (fall_spawnParticles_pushed js x color r) as H.
      replace (Z.to_nat _) with 10%nat in H by lia. exact H.
    + pose proof (recede_spawnParticles_pushed js x color r) as H.
      replace (Z.to_nat _) with 10%nat in H by lia. exact H.
  - intros Hroom.
    destruct (Hrandom (drawn r)) as [H0 H1].
    pose proof (sparkleCount_range _ H0 H1) as Hc.
    eexists. split; [|apply fall_spawnSparkles_pushed]. lia.
  - intros Hroom.
    pose proof (recede_spawnSparkles_pushed js x z color r) as H.
    replace (Z.to_nat _) with 2%nat in H by lia. exact H.
Qed.

End SpawnCounts.

Lemma spawn_counts_with_room_witness :
  exists n : nat, (3 <= n <= 5)%nat
    /\ pushed 0 n emptyRefs (exec (PianoScene.spawnSparkles sampleJs 0 0 COLORS.cyan) emptyRefs).
Proof.
  apply (proj1 (proj2 (spawn_counts_with_room sampleJs sampleJs_randomInRange
                         emptyRefs 0 0 0 COLORS.cyan))).
  simpl. lia.
Defined.

(** ** The keyboard frame *)

(** Boolean comparisons of integers, as propositions for [lia]. *)
Ltac zbool :=
  repeat match goal with
  | H : (_ <=? _)%Z = true |- _ => apply Z.leb_le in H
  | H : (_ <=? _)%Z = false |- _ => apply Z.leb_gt in H
  | H : (_ <? _)%Z = true |- _ => apply Z.ltb_lt in H
  | H : (_ <? _)%Z = false |- _ => apply Z.ltb_ge in H
  | H : (_ =? _)%Z = true |- _ => apply Z.eqb_eq in H
  | H : (_ =? _)%Z = false |- _ => apply Z.eqb_neq in H
  end.

Lemma setAdd_elem (v x : Z) (s : list Z) : x ∈ setAdd v s <-> x = v \/ x ∈ s.
Proof.
  unfold setAdd. destruct (includes s v) eqn:E.
  - apply includes_In, list_elem_of_In in E. split; [auto|].
    intros [->|H]; assumption.
  - rewrite elem_of_app, list_elem_of_singleton. tauto.
Qed.

Lemma setAdd_NoDup (v : Z) (s : list Z) : NoDup s -> NoDup (setAdd v s).
Proof.
  intros H. unfold setAdd. destruct (includes s v) eqn:E; [exact H|].
  apply NoDup_app. split; [exact H|]. split; [|apply NoDup_singleton].
  intros x Hx Hv. apply list_elem_of_singleton in Hv. subst.
  apply list_elem_of_In, includes_In in Hx. congruence.
Qed.

Lemma activeNotesOrder_fold (animTime : Q) (notes : list NoteData.t) :
  forall (order : list Z) (active : gset Z),
    NoDup order -> list_to_set order = active ->
    NoDup (fold_left
             (fun (active : list Z) n =>
                if ((animTime >=? NoteData.time n)
                    && (animTime <? NoteData.time n + NoteData.duration n))%Q
                then setAdd (NoteData.midi n) active else active)
             notes order)
    /\ list_to_set
         (fold_left
            (fun (active : list Z) n =>
               if ((animTime >=? NoteData.time n)
                   && (animTime <? NoteData.time n + NoteData.duration n))%Q
               then setAdd (NoteData.midi n) active else active)
            notes order)
       = fold_left
           (fun (active : gset Z) n =>
              if ((animTime >=? NoteData.time n)
                  && (animTime <? NoteData.time n + NoteData.duration n))%Q
              then {[ NoteData.midi n ]} ∪ active else active)
           notes active.
Proof.
  induction notes as [|n rest IH]; intros order active Hnd Heq; simpl.
  - split; assumption.
  - destruct ((animTime >=? NoteData.time n)
              && (animTime <? NoteData.time n + NoteData.duration n))%Q.
    + apply IH; [apply setAdd_NoDup, Hnd|].
      apply leibniz_equiv, set_equiv. intros x.
      rewrite elem_of_list_to_set, setAdd_elem, elem_of_union, elem_of_singleton,
        <- Heq, elem_of_list_to_set. tauto.
    + apply IH; assumption.
Qed.

Lemma activeNotesOrder_spec (animTime : Q) (notes : list NoteData.t) :
  NoDup (activeNotesOrder animTime notes)
  /\ list_to_set (activeNotesOrder animTime notes) = activeNotes animTime notes.
Proof.
  apply activeNotesOrder_fold; [apply NoDup_nil_2|].
  apply leibniz_equiv, set_equiv. intros x.
  rewrite elem_of_list_to_set. split; intros H; [inversion H|].
  exfalso. exact (not_elem_of_empty _ H).
Qed.

Lemma find_pitchRange {B : Type} (f : Z -> B) (lo midi : Z) (count : nat) :
  forall start : nat,
    List.find (fun k : Z * B => (k.1 =? midi)%Z)
      (map (fun i => (i, f i)) (map (fun k => lo + Z.of_nat k) (seq start count)))
    = if (lo + Z.of_nat start <=? midi) && (midi <? lo + Z.of_nat start + Z.of_nat count)
      then Some (midi, f midi) else None.
Proof.
  induction count as [|count IH]; intros start; simpl.
  - destruct (_ <=? _) eqn:E1, (_ <? _) eqn:E2; try reflexivity. exfalso. zbool. lia.
  - destruct (lo + Z.of_nat start =? midi) eqn:E.
    + apply Z.eqb_eq in E. subst midi.
      replace (_ <=? _) with true by (symmetry; apply Z.leb_le; lia).
      replace (_ <? _) with true by (symmetry; apply Z.ltb_lt; lia).
      reflexivity.
    + rewrite IH. change (Z.pos (Pos.of_succ_nat count)) with (Z.of_nat (S count)).
      destruct (lo + Z.of_nat start <=? midi) eqn:E1,
               (lo + Z.of_nat (S start) <=? midi) eqn:E2,
               (midi <? lo + Z.of_nat (S start) + Z.of_nat count) eqn:E3,
               (midi <? lo + Z.of_nat start + Z.of_nat (S count)) eqn:E4;
        try reflexivity; exfalso; zbool; lia.
Qed.

Lemma find_keys (midi : Z) :
  PianoKeys.find midi
  = if onKeyboard midi then Some (midi, getNoteX midi) else None.
Proof.
  unfold PianoKeys.find, keys, pitchRange, onKeyboard.
  rewrite (find_pitchRange getNoteX 21 midi 88 0).
  destruct (21 + Z.of_nat 0 <=? midi) eqn:E1, (21 <=? midi) eqn:E2;
    try (exfalso; zbool; lia); [|reflexivity].
  destruct (midi <? 21 + Z.of_nat 0 + Z.of_nat 88) eqn:E3, (midi <=? 108) eqn:E4;
    try reflexivity; exfalso; zbool; lia.
Qed.

Lemma useFrame_onKeyboard (onSpawnParticles : Q -> string -> Eff unit)
    (order : list Z) :
  forall r : Refs,
    PianoKeys.useFrame order onSpawnParticles r
    = forEach (List.filter onKeyboard order)
        (fun midi => onSpawnParticles (Lane.x (getNoteX midi)) (handColor midi)) r.
Proof.
  unfold PianoKeys.useFrame.
  induction order as [|midi rest IH]; intros r; [reflexivity|].
  simpl. rewrite find_keys. destruct (onKeyboard midi); simpl.
  - unfold bind. unfold handColor at 1.
    destruct (onSpawnParticles _ _ r) as [[] r1]. apply IH.
  - unfold bind. simpl. apply IH.
Qed.

Lemma forEach_spawn_length (spawnParticles : Q -> string -> Eff unit)
    (lane : Z -> Q) (colour : Z -> string) :
  (forall x c r,
      pushed (Z.to_nat (Z.min 10 (500 - Z.of_nat (length (particlesRef r))))) 0
        r (exec (spawnParticles x c) r)) ->
  forall (pitches : list Z) (r : Refs),
    (length (particlesRef r) <= 500)%nat ->
    length (particlesRef
              (exec (forEach pitches (fun midi => spawnParticles (lane midi) (colour midi))) r))
    = Nat.min 500 (length (particlesRef r) + 10 * length pitches)
    /\ sparklesRef
         (exec (forEach pitches (fun midi => spawnParticles (lane midi) (colour midi))) r)
       = sparklesRef r.
Proof.
  intros Hspawn. induction pitches as [|midi rest IH]; intros r Hr.
  - split; [|reflexivity]. unfold exec. cbn [forEach ret snd length]. lia.
  - specialize (Hspawn (lane midi) (colour midi) r).
    destruct Hspawn as (ps & ss & Hp & Hlp & Hs & Hls).
    destruct ss; [|discriminate]. rewrite app_nil_r in Hs.
    unfold exec in *. cbn [forEach length]. unfold bind.
    destruct (spawnParticles (lane midi) (colour midi) r) as [[] r1].
    cbn [snd length] in *.
    assert (Hr1 : (length (particlesRef r1) <= 500)%nat).
    { rewrite Hp, length_app. lia. }
    destruct (IH r1 Hr1) as [IHp IHs]. rewrite IHp, IHs, Hs, Hp, length_app.
    split; [lia|reflexivity].
Qed.

(** X19: the sounding set, in the order [forEach] visits it, has no
    duplicates; a keyboard frame asks for particles once for each sounding
    pitch from 21 to 108, at the lane centre of its key and in the colour of
    its hand, and not at all for a pitch outside that range; with either
    scene's [spawnParticles] a pool within capacity ends with
    [min 500 (n + 10 * k)] particles for [k] such pitches, the sparkles
    untouched. *)
Theorem keyboard_frame_emits (js : JsEnv) (animTime : Q)
    (notes : list NoteData.t) (r : Refs) (Hroom : withinCapacity r) :
  NoDup (activeNotesOrder animTime notes)
  /\ list_to_set (activeNotesOrder animTime notes) = activeNotes animTime notes
  /\ (forall onSpawnParticles : Q -> string -> Eff unit,
        PianoKeys.useFrame (activeNotesOrder animTime notes) onSpawnParticles r
        = forEach (soundingKeys animTime notes)
            (fun midi => onSpawnParticles (Lane.x (getNoteX midi)) (handColor midi)) r)
  /\ length (particlesRef
               (exec (PianoKeys.useFrame (activeNotesOrder animTime notes)
                        (PianoScene.spawnParticles js)) r))
     = Nat.min 500 (length (particlesRef r)
                    + 10 * length (soundingKeys animTime notes))
  /\ length (particlesRef
               (exec (PianoKeys.useFrame (activeNotesOrder animTime notes)
                        (SynthesiaScene.spawnParticles js)) r))
     = Nat.min 500 (length (particlesRef r)
                    + 10 * length (soundingKeys animTime notes))
  /\ sparklesRef
       (exec (PianoKeys.useFrame (activeNotesOrder animTime notes)
                (PianoScene.spawnParticles js)) r) = sparklesRef r
  /\ sparklesRef
       (exec (PianoKeys.useFrame (activeNotesOrder animTime notes)
                (SynthesiaScene.spawnParticles js)) r) = sparklesRef r.
Proof.
  destruct (activeNotesOrder_spec animTime notes) as [Hnd Hset].
  destruct Hroom as [Hp _]. unfold capacity in Hp.
  split; [exact Hnd|]. split; [exact Hset|].
  split; [intros cb; apply useFrame_onKeyboard|].
  unfold exec. rewrite !useFrame_onKeyboard. fold (soundingKeys animTime notes).
  destruct (forEach_spawn_length (PianoScene.spawnParticles js)
              (fun midi => Lane.x (getNoteX midi)) handColor
              (fall_spawnParticles_pushed js) (soundingKeys animTime notes) r Hp)
    as [H1 H2].
  destruct (forEach_spawn_length (SynthesiaScene.spawnParticles js)
              (fun midi => Lane.x (getNoteX midi)) handColor
              (recede_spawnParticles_pushed js) (soundingKeys animTime notes) r Hp)
    as [H3 H4].
  unfold exec in *. auto.
Qed.

Lemma keyboard_frame_emits_witness :
  soundingKeys 0.5 [sampleNote 60 0 1.0; sampleNote 120 0 1.0; sampleNote 60 0.25 1.0]
  = [60]
  /\ length (particlesRef
               (exec (PianoKeys.useFrame
                        (activeNotesOrder 0.5
                           [sampleNote 60 0 1.0; sampleNote 120 0 1.0;
                            sampleNote 60 0.25 1.0])
                        (PianoScene.spawnParticles sampleJs)) emptyRefs))
     = 10%nat
  /\ PianoKeys.useFrame
       (activeNotesOrder 0.5
          [sampleNote 60 0 1.0; sampleNote 120 0 1.0; sampleNote 60 0.25 1.0])
       (PianoScene.spawnParticles sampleJs) emptyRefs
     = PianoScene.spawnParticles sampleJs (Lane.x (getNoteX 60)) COLORS.cyan emptyRefs.
Proof.
  destruct (keyboard_frame_emits sampleJs 0.5
              [sampleNote 60 0 1.0; sampleNote 120 0 1.0; sampleNote 60 0.25 1.0]
              emptyRefs emptyRefs_withinCapacity)
    as (_ & _ & Hcalls & Hcount & _).
  split; [reflexivity|]. split; [exact Hcount|].
  rewrite Hcalls.
  change (soundingKeys 0.5
            [sampleNote 60 0 1.0; sampleNote 120 0 1.0; sampleNote 60 0.25 1.0])
    with [60].
  cbn [forEach]. unfold bind, handColor.
  destruct (PianoScene.spawnParticles sampleJs (Lane.x (getNoteX 60))
              (if 60 <? 60 then COLORS.magenta else COLORS.cyan) emptyRefs)
    as [[] r1] eqn:E.
  change (if 60 <? 60 then COLORS.magenta else COLORS.cyan) with COLORS.cyan in E.
  rewrite E. reflexivity.
Defined.

(** ** The keyboard render *)

Lemma keys_lookup (pitch : Z) :
  21 <= pitch <= 108 ->
  keys !! Z.to_nat (pitch - 21) = Some (pitch, getNoteX pitch).
Proof.
  intros H. unfold keys, pitchRange.
  rewrite !list_lookup_fmap, lookup_seq_lt by lia. simpl.
  replace (21 + Z.of_nat (Z.to_nat (pitch - 21))) with pitch by lia. reflexivity.
Qed.

Lemma notes_lane (js : JsEnv) (midiData : option Midi) handFilter d :
  d ∈ notes js midiData handFilter ->
  NoteData.color d = handColor (NoteData.midi d)
  /\ NoteData.x d = Lane.x (getNoteX (NoteData.midi d)).
Proof.
  destruct midiData as [midiData|]; [|intros H; inversion H].
  intros H. split.
  - apply (notes_hand js midiData handFilter d H).
  - destruct (notes_from_event js midiData handFilter d H)
      as (track & n & _ & _ & _ & Hm & _ & _ & _ & Hx & _).
    rewrite Hx, Hm. reflexivity.
Qed.

(** X20: the keyboard always renders 88 keys; the key of a pitch
    from 21 to 108 carries a point light exactly while a derived note of that
    pitch sounds, and then has the colour of the note and the [x] of its
    lane; otherwise it has its base colour, no light and no emission. *)
Theorem lit_key_matches_its_notes (js : JsEnv) (midiData : option Midi)
    (handFilter : HandFilter.t) (animTime : Q) (pitch : Z)
    (Hkey : 21 <= pitch <= 108) :
  length (PianoKeys.render (activeNotes animTime (notes js midiData handFilter)))
  = 88%nat
  /\ exists view : KeyView.t,
       PianoKeys.render (activeNotes animTime (notes js midiData handFilter))
         !! Z.to_nat (pitch - 21) = Some view
       /\ KeyView.midi view = pitch
       /\ Vector3.x (KeyView.position view) = Lane.x (getNoteX pitch)
       /\ (KeyView.pointLight view <> None
           <-> exists n, n ∈ notes js midiData handFilter
                 /\ NoteData.midi n = pitch /\ sounding animTime n)
       /\ (forall n, n ∈ notes js midiData handFilter ->
             NoteData.midi n = pitch -> sounding animTime n ->
             KeyView.color view = NoteData.color n
             /\ KeyView.emissive view = NoteData.color n
             /\ KeyView.pointLight view = Some (NoteData.color n)
             /\ KeyView.emissiveIntensity view = 2.5%Q
             /\ Vector3.x (KeyView.position view) = NoteData.x n)
       /\ ((forall n, n ∈ notes js midiData handFilter ->
              NoteData.midi n = pitch -> ~ sounding animTime n) ->
           KeyView.color view
           = (if Lane.isBlack (getNoteX pitch) then COLORS_blackKey
              else COLORS_whiteKey)
           /\ KeyView.pointLight view = None
           /\ KeyView.emissiveIntensity view = 0%Q).
Proof.
  split; [reflexivity|].
  eexists. split.
  { unfold PianoKeys.render. rewrite list_lookup_fmap, (keys_lookup pitch Hkey).
    reflexivity. }
  unfold PianoKeys.renderKey. cbn [fst snd KeyView.midi KeyView.position
    KeyView.pointLight KeyView.color KeyView.emissive KeyView.emissiveIntensity
    Vector3.x].
  split; [reflexivity|]. split; [reflexivity|].
  pose proof (activeNotes_elem animTime (notes js midiData handFilter) pitch) as Hact.
  destruct (bool_decide (pitch ∈ activeNotes animTime (notes js midiData handFilter)))
    eqn:E.
  - apply bool_decide_eq_true in E. split; [|split].
    + split; [intros _; apply Hact, E | intros _; discriminate].
    + intros n Hn Hm _. destruct (notes_lane js midiData handFilter n Hn) as [Hc Hx].
      rewrite Hc, Hx, Hm. unfold handColor, COLORS_magentaGlow, COLORS_cyanGlow,
        COLORS.magenta, COLORS.cyan.
      destruct (pitch <? 60); repeat split; reflexivity.
    + intros Hnone. exfalso. apply Hact in E as (n & Hn & Hm & Hs).
      exact (Hnone n Hn Hm Hs).
  - apply bool_decide_eq_false in E. split; [|split].
    + split; [intros H; exfalso; apply H; reflexivity|].
      intros H. exfalso. apply E, Hact, H.
    + intros n Hn Hm Hs. exfalso. apply E, Hact. exists n. auto.
    + intros _. repeat split; reflexivity.
Qed.

Lemma lit_key_matches_its_notes_witness :
  exists view : KeyView.t,
    PianoKeys.render
      (activeNotes 0.5
         (notes sampleJs (Some [[MidiNote.mk 60 0 1 0.8]]) HandFilter.both))
      !! 39%nat = Some view
    /\ KeyView.midi view = 60
    /\ KeyView.pointLight view = Some COLORS.cyan
    /\ KeyView.color view = COLORS.cyan
    /\ KeyView.emissiveIntensity view = 2.5%Q.
Proof.
  destruct (lit_key_matches_its_notes sampleJs (Some [[MidiNote.mk 60 0 1 0.8]])
              HandFilter.both 0.5 60 ltac:(lia))
    as (_ & view & Hlook & Hmidi & _ & _ & Hlit & _).
  exists view. split; [exact Hlook|]. split; [exact Hmidi|].
  destruct (event_to_notes sampleJs [[MidiNote.mk 60 0 1 0.8]] HandFilter.both
              [MidiNote.mk 60 0 1 0.8] (MidiNote.mk 60 0 1 0.8))
    as (d & Hd & Hm & Ht & Hdur & _); [left | left | reflexivity |].
  assert (Hs : sounding 0.5 d).
  { unfold sounding. rewrite Ht, Hdur. split; vm_compute; [discriminate | reflexivity]. }
  destruct (Hlit d Hd Hm Hs) as (Hc & _ & Hl & Hi & _).
  destruct (notes_lane sampleJs _ _ d Hd) as [Hcol _]. rewrite Hm in Hcol.
  rewrite Hl, Hc, Hcol. split; [reflexivity|]. split; [reflexivity | exact Hi].
Defined.

(** ** The audio schedule *)

Lemma shouldPlay_passes (handFilter : HandFilter.t) (note : MidiNote.t) :
  shouldPlay handFilter note = passes handFilter note.
Proof.
  unfold shouldPlay, passes.
  destruct handFilter; simpl; try reflexivity.
  - apply andb_true_r || (destruct (_ <? _); reflexivity).
  - rewrite Z.geb_leb. apply Z.leb_antisym.
Qed.

Lemma scheduleTrack_notes (handFilter : HandFilter.t) (track : Track) :
  map Scheduled.note (scheduleTrack handFilter track)
  = List.filter (passes handFilter) track.
Proof.
  induction track as [|n rest IH]; simpl; [reflexivity|].
  rewrite map_app, IH, shouldPlay_passes.
  destruct (passes handFilter n); reflexivity.
Qed.

Lemma scheduleNotes_notes (handFilter : HandFilter.t) (midi : Midi) :
  map Scheduled.note (scheduleNotes handFilter midi)
  = List.filter (passes handFilter) (concat midi).
Proof.
  induction midi as [|track rest IH]; simpl; [reflexivity|].
  rewrite map_app, List.filter_app, scheduleTrack_notes. f_equal. exact IH.
Qed.

Lemma scheduleNotes_time (handFilter : HandFilter.t) (midi : Midi) :
  Forall (fun e => Scheduled.time e
                   = (MidiNote.time (Scheduled.note e) + AUDIO_OFFSET)%Q)
    (scheduleNotes handFilter midi).
Proof.
  induction midi as [|track rest IH]; simpl; [constructor|].
  apply Forall_app. split; [|exact IH].
  clear IH. induction track as [|n track IH]; simpl; [constructor|].
  destruct (shouldPlay handFilter n); simpl; [constructor; [reflexivity|]|]; exact IH.
Qed.

Lemma schedule_keys (js : JsEnv) (handFilter : HandFilter.t) (midi : Midi) :
  map noteKey (notes js (Some midi) handFilter)
  ≡ₚ map (fun e => eventKey (Scheduled.note e)) (scheduleNotes handFilter midi).
Proof.
  unfold notes. rewrite sortByTime_perm, deriveTracks_keys.
  rewrite <- scheduleNotes_notes, map_map. reflexivity.
Qed.

(** X21: the player schedules an attack for exactly the events the
    visualizer derives notes from (the two hand filters agree), one per note
    with the same pitch, duration and velocity, each 0.05 s before the onset
    the views use. *)
Theorem audio_follows_the_layout (js : JsEnv) (handFilter : HandFilter.t)
    (midi : Midi) :
  map noteKey (notes js (Some midi) handFilter)
  ≡ₚ map (fun e => eventKey (Scheduled.note e)) (scheduleNotes handFilter midi)
  /\ length (scheduleNotes handFilter midi)
     = length (notes js (Some midi) handFilter)
  /\ (forall d, d ∈ notes js (Some midi) handFilter ->
        exists e, e ∈ scheduleNotes handFilter midi
          /\ noteKey d = eventKey (Scheduled.note e)
          /\ (Scheduled.time e == NoteData.time d - 0.05)%Q)
  /\ (forall e, e ∈ scheduleNotes handFilter midi ->
        (Scheduled.time e == MidiNote.time (Scheduled.note e) - 0.05)%Q
        /\ exists d, d ∈ notes js (Some midi) handFilter
             /\ noteKey d = eventKey (Scheduled.note e)).
Proof.
  pose proof (schedule_keys js handFilter midi) as Hperm.
  pose proof (scheduleNotes_time handFilter midi) as Htime.
  rewrite Forall_forall in Htime.
  split; [exact Hperm|]. split; [|split].
  - apply Permutation_length in Hperm. rewrite !length_map in Hperm. auto.
  - intros d Hd.
    assert (Hk : noteKey d ∈ map noteKey (notes js (Some midi) handFilter)).
    { apply list_elem_of_fmap. exists d. auto. }
    rewrite Hperm in Hk. apply list_elem_of_fmap in Hk as (e & Hk & He).
    exists e. split; [exact He|]. split; [exact Hk|].
    rewrite (Htime e He). unfold noteKey, eventKey in Hk.
    injection Hk as _ Ht _ _. rewrite Ht. unfold AUDIO_OFFSET. ring.
  - intros e He. split.
    + rewrite (Htime e He). unfold AUDIO_OFFSET. ring.
    + assert (Hk : eventKey (Scheduled.note e)
                   ∈ map (fun e => eventKey (Scheduled.note e))
                       (scheduleNotes handFilter midi)).
      { apply list_elem_of_fmap. exists e. auto. }
      rewrite <- Hperm in Hk. apply list_elem_of_fmap in Hk as (d & Hk & Hd).
      exists d. auto.
Qed.

(** ** The scene clock *)

Section ClockLag.

Local Open Scope Q_scope.

Lemma Qabs_bounds (a bound : Q) : Qabs a <= bound <-> - bound <= a /\ a <= bound.
Proof. apply Qabs_Qle_condition. Qed.

Lemma syncAnimTime_bounds (currentTimeRef animTime : Q) :
  - (0.001) <= currentTimeRef - syncAnimTime currentTimeRef animTime
  /\ currentTimeRef - syncAnimTime currentTimeRef animTime <= 0.001.
Proof.
  apply Qabs_bounds. unfold syncAnimTime. destruct (_ >? 0.001) eqn:E.
  - assert (H : currentTimeRef - currentTimeRef == 0) by ring.
    rewrite H. discriminate.
  - apply Qltb_ge in E. exact E.
Qed.

(** X22: after the clock sync a second sync changes nothing, and a
    box drawn at the scene's time is within 0.025 units of the box at the
    player's time, in height (fall view) or in distance and depth (recede
    view), with the same lane. *)
Theorem scene_clock_lag_on_screen (currentTimeRef animTime : Q)
    (note : NoteData.t) :
  syncAnimTime currentTimeRef (syncAnimTime currentTimeRef animTime)
  = syncAnimTime currentTimeRef animTime
  /\ (forall drawn exact : Box.t,
        FallingNotes.renderNote (syncAnimTime currentTimeRef animTime) note
        = Some drawn ->
        FallingNotes.renderNote currentTimeRef note = Some exact ->
        Qabs (Vector3.y (Box.position drawn) - Vector3.y (Box.position exact))
        <= 0.025
        /\ Box.args drawn = Box.args exact
        /\ Vector3.x (Box.position drawn) = Vector3.x (Box.position exact))
  /\ (forall drawn exact : Box.t,
        SynthesiaFallingNotes.renderNote (syncAnimTime currentTimeRef animTime) note
        = Some drawn ->
        SynthesiaFallingNotes.renderNote currentTimeRef note = Some exact ->
        Qabs (Vector3.z (Box.position drawn) - Vector3.z (Box.position exact))
        <= 0.025
        /\ Qabs (Vector3.z (Box.args drawn) - Vector3.z (Box.args exact))
           <= 0.025
        /\ Vector3.x (Box.position drawn) = Vector3.x (Box.position exact)).
Proof.
  pose proof (syncAnimTime_bounds currentTimeRef animTime) as [Hlo Hhi].
  split; [|split].
  - unfold syncAnimTime at 1. destruct (_ >? 0.001) eqn:E; [|reflexivity].
    exfalso. apply Qltb_lt in E.
    pose proof (proj2 (Qabs_bounds _ 0.001) (conj Hlo Hhi)). lra.
  - intros drawn exact Hd He.
    apply fall_renderNote_Some in Hd as [_ ->].
    apply fall_renderNote_Some in He as [_ ->].
    cbn [Box.position Box.args Vector3.x Vector3.y Vector3.z].
    split; [|split; reflexivity].
    apply Qabs_bounds. unfold NOTE_SPEED, HIT_Y. rewrite !Qhalf. split; lra.
  - intros drawn exact Hd He.
    apply recede_renderNote_Some in Hd
      as (_ & _ & _ & Hx & _ & _ & _ & _ & Hd).
    apply recede_renderNote_Some in He
      as (_ & _ & _ & Hx' & _ & _ & _ & _ & He).
    rewrite Hx, Hx'.
    destruct Hd as [(H1 & H2 & H3)|(H1 & H2 & H3)],
             He as [(H4 & H5 & H6)|(H4 & H5 & H6)];
      rewrite H2, H3, H5, H6, ?Qhalf; repeat split;
      try reflexivity; apply Qabs_bounds; split; lra.
Qed.

End ClockLag.
